(** * 9cc: a compiler for arithmetic expressions

    A shallow embedding of [9cc.c]: the tokenizer, the recursive-descent
    parser ([expr], [mul], [primary]), the code generator ([gen]) and [main],
    together with a small model of the x86-64 instructions the compiler
    emits, so that the emitted program can be run.

    Conventions.
    - A C string ([char*] into the NUL-terminated [user_input]) is the
      [string] of the characters from the pointer onwards; the terminating
      NUL is the end of the [string] (a NUL character inside a [string] ends
      the C string early, see [c_str]).  [loc - user_input] is the
      difference of the two lengths.
    - [long] is 64 bits and [int] is 32 bits (the x86-64 System V ABI, the
      target of the emitted assembly); both are [Z] with the wrap-around
      written out.
    - The token list linked through [Token.next] is a [list Token]; the
      global cursor [token] is the remaining list, [[]] being [NULL].
    - [exit(1)] after [error_at] is the result [ErrorAt]; [main] turns it
      into what the process printed.
    - [expr], [mul], [primary], [gen] and [main] are first given on a call
      stack as deep as the recursion asks for; [expr_in], [mul_in],
      [primary_in], [gen_in] and [main_on_stack] are the same functions on a
      stack that holds a given number of nested calls, where the process is
      killed when a call finds no room. *)

From Stdlib Require Import ZArith List String Ascii Bool Lia DecimalString.
From Stdlib Require Import DecimalPos DecimalZ.
From Stdlib Require Import Relations Sorted.
Import ListNotations.

Local Open Scope string_scope.
Local Open Scope list_scope.

(** ** Characters: <ctype.h> in the C locale

    The program never calls [setlocale].  A byte above 127 is in none of
    the three classes. *)

Definition code (c : ascii) : nat := nat_of_ascii c.

Definition between (lo hi n : nat) : bool := (lo <=? n)%nat && (n <=? hi)%nat.

(* ' ', \t, \n, \v, \f, \r *)
Definition isspace (c : ascii) : bool :=
  between 9 13 (code c) || (code c =? 32)%nat.

Definition isdigit (c : ascii) : bool := between 48 57 (code c).

(* the printable characters that are neither a space nor alphanumeric *)
Definition ispunct (c : ascii) : bool :=
  between 33 47 (code c) || between 58 64 (code c)
  || between 91 96 (code c) || between 123 126 (code c).

Definition NUL : ascii := zero.

(* [*p] *)
Definition deref (p : string) : ascii :=
  match p with
  | EmptyString => NUL
  | String c _ => c
  end.

(* the characters [printf("%s", p)] prints: up to the first NUL *)
Fixpoint c_str (p : string) : string :=
  match p with
  | EmptyString => EmptyString
  | String c rest => if (c =? NUL)%char then EmptyString else String c (c_str rest)
  end.

(** ** Machine integers *)

Definition LONG_MAX : Z := 2 ^ 63 - 1.

(* conversion to a signed w-bit integer, modulo 2^w *)
Definition wrap (w : Z) (z : Z) : Z := ((z + 2 ^ (w - 1)) mod 2 ^ w - 2 ^ (w - 1))%Z.

Definition to_long (z : Z) : Z := wrap 64 z.
Definition to_int (z : Z) : Z := wrap 32 z.

(** ** Tokenizer *)

Inductive TokenKind : Type :=
| TK_RESERVED (* keywords or punctuators *)
| TK_NUM      (* integer literals *)
| TK_EOF.     (* end-of-file markers *)

Definition TokenKind_eqb (a b : TokenKind) : bool :=
  match a, b with
  | TK_RESERVED, TK_RESERVED | TK_NUM, TK_NUM | TK_EOF, TK_EOF => true
  | _, _ => false
  end.

(* [next] is the tail of the list the token sits in *)
Record Token : Type := mkToken {
  kind : TokenKind; (* token kind *)
  val : Z;          (* if kind is TK_NUM, its value *)
  str : string      (* token string *)
}.

(** What a call that may not return gives back. *)
Inductive result (A : Type) : Type :=
| Ok (a : A)
| ErrorAt (loc : string) (msg : string) (* error_at(loc, msg) was called *)
| NullDeref                             (* a NULL [token] was dereferenced *)
| OutOfFuel.                            (* the recursion bound of the model was hit *)

Arguments Ok {A} a.
Arguments ErrorAt {A} loc msg.
Arguments NullDeref {A}.
Arguments OutOfFuel {A}.

Definition bind {A B : Type} (r : result A) (k : A -> result B) : result B :=
  match r with
  | Ok a => k a
  | ErrorAt loc msg => ErrorAt loc msg
  | NullDeref => NullDeref
  | OutOfFuel => OutOfFuel
  end.

Notation "x <- r ;; k" := (bind r (fun x => k))
  (at level 61, r at next level, right associativity).
Notation "' p <- r ;; k" := (bind r (fun x => let 'p := x in k))
  (at level 61, p pattern, r at next level, right associativity).

Definition digit_value (c : ascii) : Z := Z.of_nat (code c - 48).

(* the digits [strtol] reads in base 10, and where it stops *)
Fixpoint strtol_digits (acc : Z) (p : string) : Z * string :=
  match p with
  | EmptyString => (acc, p)
  | String c rest =>
      if isdigit c then strtol_digits (acc * 10 + digit_value c) rest
      else (acc, p)
  end.

(* [strtol(p, &p, 10)] where [*p] is a digit: there is no white space or
   sign to skip, and a value above LONG_MAX is returned as LONG_MAX *)
Definition strtol (p : string) : Z * string :=
  let '(v, endptr) := strtol_digits 0 p in (Z.min v LONG_MAX, endptr).

(* new_token: [calloc] zeroes [val]; the token is linked after [cur] *)
Definition new_token (k : TokenKind) (s : string) : Token := mkToken k 0 s.

Fixpoint tokenize_loop (fuel : nat) (p : string) : result (list Token) :=
  match fuel with
  | O => OutOfFuel
  | S fuel =>
      let c := deref p in
      if (c =? NUL)%char then Ok [new_token TK_EOF p]
      else
        let p1 := match p with EmptyString => p | String _ q => q end in
        (* skip whitespace characters. *)
        if isspace c then tokenize_loop fuel p1
        (* punctuators *)
        else if ispunct c then
          toks <- tokenize_loop fuel p1 ;;
          Ok (new_token TK_RESERVED p :: toks)
        (* integer literal *)
        else if isdigit c then
          let '(v, p2) := strtol p in
          toks <- tokenize_loop fuel p2 ;;
          Ok (mkToken TK_NUM v p :: toks)
        else ErrorAt p "invalid token"
  end.

(* Tokenize [user_input] and returns new tokens. *)
Definition tokenize (user_input : string) : result (list Token) :=
  tokenize_loop (S (String.length user_input)) user_input.

(** ** Parser *)

(* the operator kinds of NodeKind; the fifth kind, ND_NUM, is the
   constructor of the leaves *)
Inductive NodeKind : Type :=
| ND_ADD  (* + *)
| ND_SUB  (* - *)
| ND_MUL  (* * *)
| ND_DIV. (* / *)

(* AST node type: a node of kind ND_NUM uses [val] only, the others use
   [lhs] and [rhs] only *)
Inductive Node : Type :=
| ND_NUM (val : Z)
| ND_BIN (kind : NodeKind) (lhs rhs : Node).

Definition new_binary (kind : NodeKind) (lhs rhs : Node) : Node :=
  ND_BIN kind lhs rhs.

(* the parameter is an [int]: the [long] argument is converted to [int],
   and back to [long] when stored in [node->val] *)
Definition new_num (val : Z) : Node := ND_NUM (to_int val).

(* the cursor [token] *)
Definition cursor : Type := list Token.

(* [token->kind != TK_RESERVED || token->str[0] != op] *)
Definition mismatch (op : ascii) (t : Token) : bool :=
  negb (TokenKind_eqb (kind t) TK_RESERVED) || negb (deref (str t) =? op)%char.

(* consumes the current token if it matches `op`. *)
Definition consume (op : ascii) (token : cursor) : result (bool * cursor) :=
  match token with
  | [] => NullDeref
  | t :: next => if mismatch op t then Ok (false, token) else Ok (true, next)
  end.

(* ensure that the current token is `op`. *)
Definition expect (op : ascii) (token : cursor) : result cursor :=
  match token with
  | [] => NullDeref
  | t :: next =>
      if mismatch op t then ErrorAt (str t) ("expected: '" ++ String op "'")
      else Ok next
  end.

(* ensure that the current token is TK_NUM. *)
Definition expect_number (token : cursor) : result (Z * cursor) :=
  match token with
  | [] => NullDeref
  | t :: next =>
      if negb (TokenKind_eqb (kind t) TK_NUM) then ErrorAt (str t) "expected a number"
      else Ok (val t, next)
  end.

Definition at_eof (token : cursor) : result bool :=
  match token with
  | [] => NullDeref
  | t :: _ => Ok (TokenKind_eqb (kind t) TK_EOF)
  end.

(* Each call of [expr], [mul], [primary] and each turn of a [for (;;)]
   loop takes one unit of fuel. *)
Fixpoint expr (fuel : nat) (token : cursor) {struct fuel} : result (Node * cursor) :=
  match fuel with
  | O => OutOfFuel
  | S fuel =>
      '(node, token) <- mul fuel token ;;
      expr_loop fuel node token
  end

with expr_loop (fuel : nat) (node : Node) (token : cursor) {struct fuel}
  : result (Node * cursor) :=
  match fuel with
  | O => OutOfFuel
  | S fuel =>
      '(plus, token) <- consume "+" token ;;
      if plus : bool then
        '(rhs, token) <- mul fuel token ;;
        expr_loop fuel (new_binary ND_ADD node rhs) token
      else
        '(minus, token) <- consume "-" token ;;
        if minus : bool then
          '(rhs, token) <- mul fuel token ;;
          expr_loop fuel (new_binary ND_SUB node rhs) token
        else Ok (node, token)
  end

with mul (fuel : nat) (token : cursor) {struct fuel} : result (Node * cursor) :=
  match fuel with
  | O => OutOfFuel
  | S fuel =>
      '(node, token) <- primary fuel token ;;
      mul_loop fuel node token
  end

with mul_loop (fuel : nat) (node : Node) (token : cursor) {struct fuel}
  : result (Node * cursor) :=
  match fuel with
  | O => OutOfFuel
  | S fuel =>
      '(star, token) <- consume "*" token ;;
      if star : bool then
        '(rhs, token) <- mul fuel token ;;
        mul_loop fuel (new_binary ND_MUL node rhs) token
      else
        '(slash, token) <- consume "/" token ;;
        if slash : bool then
          '(rhs, token) <- mul fuel token ;;
          mul_loop fuel (new_binary ND_DIV node rhs) token
        else Ok (node, token)
  end

with primary (fuel : nat) (token : cursor) {struct fuel} : result (Node * cursor) :=
  match fuel with
  | O => OutOfFuel
  | S fuel =>
      '(paren, token) <- consume "(" token ;;
      if paren : bool then
        '(node, token) <- expr fuel token ;;
        token <- expect ")" token ;;
        Ok (node, token)
      else
        '(v, token) <- expect_number token ;;
        Ok (new_num v, token)
  end.

(* fuel that is always enough for a stream of this length (see
   [expr_fuel_enough]) *)
Definition parse_fuel (token : cursor) : nat := 3 * List.length token + 3.

(** ** Code generator *)

Inductive reg : Type := rax | rdi.

(* the instructions [gen] and [main] print *)
Inductive instr : Type :=
| push_imm (v : Z)    (* push <v> *)
| push_reg (r : reg)  (* push <r> *)
| pop (r : reg)       (* pop <r> *)
| add_rax_rdi         (* add rax, rdi *)
| sub_rax_rdi         (* sub rax, rdi *)
| imul_rax_rdi        (* imul rax, rdi *)
| cqo
| idiv_rdi            (* idiv rdi *)
| ret.

Definition reg_name (r : reg) : string :=
  match r with rax => "rax" | rdi => "rdi" end.

(* [%ld] *)
Definition fmt_ld (z : Z) : string := NilZero.string_of_int (Z.to_int z).

(* the text of one output line, without its newline *)
Definition emit (i : instr) : string :=
  match i with
  | push_imm v => "  push " ++ fmt_ld v
  | push_reg r => "  push " ++ reg_name r
  | pop r => "  pop " ++ reg_name r
  | add_rax_rdi => "  add rax, rdi"
  | sub_rax_rdi => "  sub rax, rdi"
  | imul_rax_rdi => "  imul rax, rdi"
  | cqo => "  cqo"
  | idiv_rdi => "  idiv rdi"
  | ret => "  ret"
  end.

(* the [switch (node->kind)] of [gen] *)
Definition gen_op (kind : NodeKind) : list instr :=
  match kind with
  | ND_ADD => [add_rax_rdi]
  | ND_SUB => [sub_rax_rdi]
  | ND_MUL => [imul_rax_rdi]
  | ND_DIV => [cqo; idiv_rdi]
  end.

Fixpoint gen (node : Node) : list instr :=
  match node with
  | ND_NUM val => [push_imm val]
  | ND_BIN kind lhs rhs =>
      gen lhs ++ gen rhs ++ [pop rdi; pop rax] ++ gen_op kind ++ [push_reg rax]
  end.

(** ** main *)

(* what the process wrote and how it ended *)
Record Process : Type := mkProcess {
  stdout : list string; (* the lines printed with printf *)
  stderr : string;
  status : Z
}.

Definition newline : string := String (ascii_of_nat 10) EmptyString.

Fixpoint spaces (n : nat) : string :=
  match n with
  | O => EmptyString
  | S n => String " " (spaces n)
  end.

(* [loc - user_input] *)
Definition offset (user_input loc : string) : nat :=
  String.length user_input - String.length loc.

(* report an error location and exit: what [error_at] writes to stderr *)
Definition error_at (user_input loc msg : string) : Process :=
  let pos := offset user_input loc in
  mkProcess []
    (c_str user_input ++ newline ++ spaces pos ++ "^ " ++ msg ++ newline)
    1.

(* reports an error and exit. *)
Definition error (msg : string) : Process := mkProcess [] (msg ++ newline) 1.

Definition prologue : list string :=
  [".intel_syntax noprefix"; ".global main"; "main:"].

Definition epilogue : list instr := [pop rax; ret].

(* the instructions of the emitted [main:] *)
Definition program (node : Node) : list instr := gen node ++ epilogue.

(* [None]: the cursor was dereferenced when NULL, or the model ran out of
   fuel; [main_total] shows that neither happens.  With no argument at all,
   [argv[0]] is NULL and glibc prints "(null)" for it.  The call stack is as
   deep as the recursion asks for; [main_on_stack] is [main] on a stack of a
   given depth. *)
Definition main (argv : list string) : option Process :=
  match argv with
  | [_; user_input] =>
      (* tokenize and parse. *)
      match (token <- tokenize user_input ;; expr (parse_fuel token) token) with
      | Ok (node, _) =>
          Some (mkProcess (prologue ++ map emit (program node)) "" 0)
      | ErrorAt loc msg => Some (error_at user_input loc msg)
      | NullDeref | OutOfFuel => None
      end
  | _ =>
      Some (error (hd "(null)" argv ++ " : invalid of number of arguments"))
  end.

(** ** The instructions of the target, as far as the compiler uses them

    Registers hold signed 64-bit values.  [None] is a processor fault
    (#DE of [idiv]) or a [pop] from the empty operand stack. *)

Record machine : Type := mkMachine {
  RAX : Z;
  RDI : Z;
  RDX : Z;
  stack : list Z
}.

Definition get (r : reg) (m : machine) : Z :=
  match r with rax => RAX m | rdi => RDI m end.

Definition set (r : reg) (v : Z) (m : machine) : machine :=
  match r with
  | rax => mkMachine v (RDI m) (RDX m) (stack m)
  | rdi => mkMachine (RAX m) v (RDX m) (stack m)
  end.

Definition in_long (z : Z) : bool := ((- 2 ^ 63 <=? z) && (z <? 2 ^ 63))%Z.

Definition step (i : instr) (m : machine) : option machine :=
  match i with
  | push_imm v => Some (mkMachine (RAX m) (RDI m) (RDX m) (to_long v :: stack m))
  | push_reg r => Some (mkMachine (RAX m) (RDI m) (RDX m) (get r m :: stack m))
  | pop r =>
      match stack m with
      | [] => None
      | v :: st => Some (set r v (mkMachine (RAX m) (RDI m) (RDX m) st))
      end
  | add_rax_rdi => Some (set rax (to_long (RAX m + RDI m)) m)
  | sub_rax_rdi => Some (set rax (to_long (RAX m - RDI m)) m)
  | imul_rax_rdi => Some (set rax (to_long (RAX m * RDI m)) m)
  | cqo =>
      (* sign-extend RAX into RDX:RAX *)
      Some (mkMachine (RAX m) (RDI m) (if (RAX m <? 0)%Z then (-1)%Z else 0%Z) (stack m))
  | idiv_rdi =>
      (* signed division of RDX:RAX by RDI, truncating *)
      let dividend := (RDX m * 2 ^ 64 + RAX m mod 2 ^ 64)%Z in
      if (RDI m =? 0)%Z then None
      else
        let q := Z.quot dividend (RDI m) in
        if in_long q then Some (mkMachine q (RDI m) (Z.rem dividend (RDI m)) (stack m))
        else None
  | ret => Some m
  end.

(* straight-line execution *)
Fixpoint exec (prog : list instr) (m : machine) : option machine :=
  match prog with
  | [] => Some m
  | i :: prog =>
      match step i m with
      | Some m => exec prog m
      | None => None
      end
  end.

(* the value in RAX when the program reaches [ret] *)
Fixpoint run (prog : list instr) (m : machine) : option Z :=
  match prog with
  | [] => None
  | ret :: _ => Some (RAX m)
  | i :: prog =>
      match step i m with
      | Some m => run prog m
      | None => None
      end
  end.

(* the program of a source text, run from [m] *)
Definition compile_and_run (user_input : string) (m : machine) : option Z :=
  match (token <- tokenize user_input ;; expr (parse_fuel token) token) with
  | Ok (node, _) => run (program node) m
  | _ => None
  end.

(** ** The value of a tree in 64-bit arithmetic *)

Definition eval_op (kind : NodeKind) (a b : Z) : option Z :=
  match kind with
  | ND_ADD => Some (to_long (a + b))
  | ND_SUB => Some (to_long (a - b))
  | ND_MUL => Some (to_long (a * b))
  | ND_DIV =>
      if (b =? 0)%Z then None
      else if in_long (Z.quot a b) then Some (Z.quot a b) else None
  end.

Fixpoint eval (node : Node) : option Z :=
  match node with
  | ND_NUM val => Some (to_long val)
  | ND_BIN kind lhs rhs =>
      match eval lhs, eval rhs with
      | Some a, Some b => eval_op kind a b
      | _, _ => None
      end
  end.

Definition m0 : machine := mkMachine 0 0 0 [].

(* tokenize and parse, as [main] does *)
Definition parse (user_input : string) : result Node :=
  token <- tokenize user_input ;;
  '(node, _) <- expr (parse_fuel token) token ;;
  Ok node.

(** ** The standard reading of a chain [N1 op1 N2 op2 ...]

    Follows the words of the specification, not the code: multiplication
    and division before addition and subtraction, left to right among
    operators of equal precedence. *)

Inductive binop : Type := Plus | Minus | Times | Divide.

Definition chain : Type := (Z * list (binop * Z))%type.

(* [acc]: the sum of the terms already closed; [negate]: the sign in front
   of the current term; [term]: the product read so far *)
Fixpoint standard_chain (acc : Z) (negate : bool) (term : Z)
  (rest : list (binop * Z)) : Z :=
  let close := (if negate then acc - term else acc + term)%Z in
  match rest with
  | [] => close
  | (Times, n) :: rest => standard_chain acc negate (term * n) rest
  | (Divide, n) :: rest => standard_chain acc negate (Z.quot term n) rest
  | (Plus, n) :: rest => standard_chain close false n rest
  | (Minus, n) :: rest => standard_chain close true n rest
  end.

Definition standard_value (c : chain) : Z :=
  standard_chain 0 false (fst c) (snd c).

Definition binop_text (o : binop) : string :=
  match o with Plus => "+" | Minus => "-" | Times => "*" | Divide => "/" end.

(* the source text of a chain *)
Definition chain_text (c : chain) : string :=
  (fmt_ld (fst c) ++
   fold_right (fun '(o, n) s => binop_text o ++ fmt_ld n ++ s) "" (snd c))%string.

(** ** Vocabulary of the statements *)

(** Tokenization as a relation: [lexes p toks] when scanning from [p]
    produces [toks]; [lex_fails p loc] when it stops at [loc] with
    "invalid token". *)
Inductive lexes : string -> list Token -> Prop :=
| lexes_eof p :
    deref p = NUL -> lexes p [new_token TK_EOF p]
| lexes_space c q toks :
    c <> NUL -> isspace c = true -> lexes q toks -> lexes (String c q) toks
| lexes_punct c q toks :
    c <> NUL -> isspace c = false -> ispunct c = true -> lexes q toks ->
    lexes (String c q) (new_token TK_RESERVED (String c q) :: toks)
| lexes_num c q v p2 toks :
    c <> NUL -> isspace c = false -> ispunct c = false -> isdigit c = true ->
    strtol (String c q) = (v, p2) -> lexes p2 toks ->
    lexes (String c q) (mkToken TK_NUM v (String c q) :: toks).

Inductive lex_fails : string -> string -> Prop :=
| lex_fails_here c q :
    c <> NUL -> isspace c = false -> ispunct c = false -> isdigit c = false ->
    lex_fails (String c q) (String c q)
| lex_fails_space c q loc :
    c <> NUL -> isspace c = true -> lex_fails q loc -> lex_fails (String c q) loc
| lex_fails_punct c q loc :
    c <> NUL -> isspace c = false -> ispunct c = true -> lex_fails q loc ->
    lex_fails (String c q) loc
| lex_fails_num c q v p2 loc :
    c <> NUL -> isspace c = false -> ispunct c = false -> isdigit c = true ->
    strtol (String c q) = (v, p2) -> lex_fails p2 loc ->
    lex_fails (String c q) loc.

(* [q] is [p] or a later position of the same C string *)
Definition suffix (q p : string) : Prop := exists pre, p = (pre ++ q)%string.

(* [loc] is a position of the C string [p]: [pre] is what [p] holds before
   it, none of it NUL, so that [loc - p] is the length of [pre] and the line
   printed for [p] is [pre] followed by the line printed for [loc] *)
Definition points_into (loc p : string) : Prop :=
  exists pre, p = (pre ++ loc)%string /\ c_str p = (pre ++ c_str loc)%string.

Fixpoint string_forallb (f : ascii -> bool) (s : string) : bool :=
  match s with
  | EmptyString => true
  | String c rest => f c && string_forallb f rest
  end.

(** The operand stack. *)

(* the slots an instruction adds to the operand stack *)
Definition stack_effect (i : instr) : Z :=
  match i with
  | push_imm _ | push_reg _ => 1
  | pop _ => -1
  | _ => 0
  end.

Definition net_effect (prog : list instr) : Z :=
  fold_right (fun i n => (stack_effect i + n)%Z) 0%Z prog.

(** What a token list holds, and what the source holds. *)

Definition count_kind (k : TokenKind) (toks : list Token) : nat :=
  List.length (filter (fun t => TokenKind_eqb (kind t) k) toks).

Fixpoint count_chars (f : ascii -> bool) (s : string) : nat :=
  match s with
  | EmptyString => 0
  | String c rest => (if f c then 1 else 0) + count_chars f rest
  end.

(* the maximal runs of digits: the digits that do not follow a digit *)
Fixpoint digit_runs_from (after_digit : bool) (s : string) : nat :=
  match s with
  | EmptyString => 0
  | String c rest =>
      (if isdigit c && negb after_digit then 1 else 0) + digit_runs_from (isdigit c) rest
  end.

Definition digit_runs (s : string) : nat := digit_runs_from false s.

Fixpoint string_filter (f : ascii -> bool) (s : string) : string :=
  match s with
  | EmptyString => EmptyString
  | String c rest => if f c then String c (string_filter f rest) else string_filter f rest
  end.

Fixpoint take_digits (s : string) : string :=
  match s with
  | EmptyString => EmptyString
  | String c rest => if isdigit c then String c (take_digits rest) else EmptyString
  end.

(* the characters of the source a token stands for *)
Definition lexeme (t : Token) : string :=
  match kind t with
  | TK_RESERVED => String (deref (str t)) EmptyString
  | TK_NUM => take_digits (str t)
  | TK_EOF => EmptyString
  end.

Definition source_text (toks : list Token) : string :=
  fold_right (fun t s => (lexeme t ++ s)%string) EmptyString toks.

(* a token starts at a character of its kind *)
Definition starts_right (t : Token) : bool :=
  match kind t with
  | TK_RESERVED => ispunct (deref (str t))
  | TK_NUM => isdigit (deref (str t))
  | TK_EOF => (deref (str t) =? NUL)%char
  end.

(** Two sources that differ only in white space between tokens. *)

Fixpoint last_char (a : string) : ascii :=
  match a with
  | EmptyString => NUL
  | String c EmptyString => c
  | String _ rest => last_char rest
  end.

(* one white-space character more, anywhere but inside a run of digits *)
Inductive ws_insert : string -> string -> Prop :=
| ws_insert_at (a : string) (w : ascii) (b : string) :
    isspace w = true ->
    isdigit (last_char a) && isdigit (deref b) = false ->
    ws_insert (a ++ b) (a ++ String w b).

Definition ws_equiv : string -> string -> Prop :=
  clos_refl_sym_trans string ws_insert.

(* kind and value of a token, and the character the parser reads from it *)
Definition token_view (t : Token) : TokenKind * Z * ascii :=
  (kind t, val t, deref (str t)).

Definition same_view (toks toks' : list Token) : Prop :=
  map token_view toks = map token_view toks'.

Definition views (r : result (list Token)) : option (list (TokenKind * Z * ascii)) :=
  match r with
  | Ok toks => Some (map token_view toks)
  | _ => None
  end.

(* two calls end the same way, with results related by [R] *)
Definition rel_result {A : Type} (R : A -> A -> Prop) (r r' : result A) : Prop :=
  match r, r' with
  | Ok a, Ok a' => R a a'
  | ErrorAt _ _, ErrorAt _ _ => True
  | NullDeref, NullDeref => True
  | OutOfFuel, OutOfFuel => True
  | _, _ => False
  end.

Definition same_parse (x y : Node * cursor) : Prop :=
  fst x = fst y /\ same_view (snd x) (snd y).

(** What the parser is given and what it gives back. *)

(* the stream ends with an end-of-file marker, as [tokenize] builds it *)
Definition terminated (token : cursor) : Prop :=
  exists body e, token = body ++ [e] /\ kind e = TK_EOF.

(* [error_at(loc, msg)] as the parser calls it: at the string of a token of
   the stream that is not the one required *)
Definition syntax_error (token : cursor) (loc msg : string) : Prop :=
  exists t, In t token /\ loc = str t /\
    ((msg = "expected a number" /\ kind t <> TK_NUM) \/
     (msg = "expected: ')'" /\ mismatch ")" t = true)).

(* what a parsing function called with [fuel] at [token] may give: a node
   and a later cursor into the same stream ([strict]: at least one token
   later); a syntax error; and it runs out of fuel only below
   [3 * length token + b] *)
Definition parsed (strict : bool) (b fuel : nat) (token : cursor)
  (r : result (Node * cursor)) : Prop :=
  match r with
  | Ok (_, rest) =>
      terminated rest /\
      exists used, token = used ++ rest /\ (strict = true -> used <> [])
  | ErrorAt loc msg => syntax_error token loc msg
  | NullDeref => False
  | OutOfFuel => fuel < 3 * List.length token + b
  end.

(* a result that is a cursor of a terminated stream, not before [c] *)
Definition shorter (c : cursor) (x : result (Node * cursor)) : Prop :=
  match x with
  | Ok (_, rest) => terminated rest /\ List.length rest <= List.length c
  | _ => True
  end.

(* [c] and [c'] are cursors at the same place of two streams that are the
   same up to a token [t], followed by [r] in one and by [r'] in the other *)
Definition upto (r r' c c' : cursor) : Prop :=
  exists used t, c = used ++ t :: r /\ c' = used ++ t :: r'.

(* a call that stops at [t] or before it gives the same node in both
   streams, and stops at the same place *)
Definition local (r r' : cursor) (x x' : result (Node * cursor)) : Prop :=
  match x with
  | Ok (node, rest) =>
      List.length r < List.length rest ->
      exists rest', x' = Ok (node, rest') /\ upto r r' rest rest'
  | _ => True
  end.

(** What the tokenizer accepts and what a number token holds. *)

(* the characters the tokenizer has a case for *)
Definition lexable (c : ascii) : bool := isspace c || ispunct c || isdigit c.

(* a string of digits read in positional notation *)
Fixpoint decimal_value (s : string) : Z :=
  match s with
  | EmptyString => 0
  | String c rest =>
      (digit_value c * 10 ^ Z.of_nat (String.length rest) + decimal_value rest)%Z
  end.

(* [val] is zero but in a number token, where it is the value of the digits
   of the token, or LONG_MAX when that is above LONG_MAX *)
Definition value_ok (t : Token) : Prop :=
  match kind t with
  | TK_NUM =>
      val t = Z.min (decimal_value (lexeme t)) LONG_MAX /\ (0 <= val t <= LONG_MAX)%Z
  | _ => val t = 0%Z
  end.

(* the offsets of the tokens in the source *)
Definition offsets (user_input : string) (toks : list Token) : list nat :=
  map (fun t => offset user_input (str t)) toks.

(** What a tree holds and what the tokens it was read from hold. *)

Inductive item : Type :=
| Lit (v : Z)
| Op (k : NodeKind).

(* the literals and operators of a tree, from left to right *)
Fixpoint infix (node : Node) : list item :=
  match node with
  | ND_NUM v => [Lit v]
  | ND_BIN k l r => infix l ++ Op k :: infix r
  end.

(* what a token stands for in a tree: a number token for its value as
   [new_num] stores it, an operator for its node kind, any other token for
   nothing *)
Definition token_items (t : Token) : list item :=
  match kind t with
  | TK_NUM => [Lit (to_int (val t))]
  | TK_RESERVED =>
      let c := deref (str t) in
      if (c =? "+")%char then [Op ND_ADD]
      else if (c =? "-")%char then [Op ND_SUB]
      else if (c =? "*")%char then [Op ND_MUL]
      else if (c =? "/")%char then [Op ND_DIV]
      else []
  | TK_EOF => []
  end.

Definition items (toks : list Token) : list item := flat_map token_items toks.

(* a call started with the items [pre] already in the tree gives a tree
   that holds [pre] and the items of the tokens it has read *)
Definition reads (pre : list item) (token : cursor) (x : result (Node * cursor)) : Prop :=
  match x with
  | Ok (node, rest) =>
      exists used, token = used ++ rest /\ infix node = pre ++ items used
  | _ => True
  end.

(* the immediate operands pushed by a program, in order *)
Definition pushed (prog : list instr) : list Z :=
  flat_map (fun i => match i with push_imm v => [v] | _ => [] end) prog.

Definition literals (l : list item) : list Z :=
  flat_map (fun i => match i with Lit v => [v] | Op _ => [] end) l.

Definition in_int (z : Z) : Prop := (- 2 ^ 31 <= z < 2 ^ 31)%Z.

(** The value of a tree in unbounded arithmetic. *)

Fixpoint has_div (node : Node) : bool :=
  match node with
  | ND_NUM _ => false
  | ND_BIN k l r =>
      match k with ND_DIV => true | _ => has_div l || has_div r end
  end.

(* integer arithmetic without bounds, division truncating towards zero;
   [None] for a division by zero *)
Fixpoint exact (node : Node) : option Z :=
  match node with
  | ND_NUM v => Some v
  | ND_BIN k l r =>
      match exact l, exact r with
      | Some a, Some b =>
          match k with
          | ND_ADD => Some (a + b)%Z
          | ND_SUB => Some (a - b)%Z
          | ND_MUL => Some (a * b)%Z
          | ND_DIV => if (b =? 0)%Z then None else Some (Z.quot a b)
          end
      | _, _ => None
      end
  end.

(* the value of the tree and of each of its subtrees is defined and is a
   [long] *)
Fixpoint fits (node : Node) : bool :=
  match node with
  | ND_NUM v => in_long v
  | ND_BIN k l r =>
      fits l && fits r &&
      match exact node with
      | Some v => in_long v
      | None => false
      end
  end.

(** A tree written back as a source. *)

Definition op_char (k : NodeKind) : ascii :=
  match k with
  | ND_ADD => "+"
  | ND_SUB => "-"
  | ND_MUL => "*"
  | ND_DIV => "/"
  end.

(* the tree as a source text, every binary node in parentheses *)
Fixpoint show (node : Node) : string :=
  match node with
  | ND_NUM v => fmt_ld v
  | ND_BIN k l r => String "(" (show l ++ String (op_char k) (show r ++ ")"))
  end.

(* every literal is a non-negative [int] *)
Fixpoint small (node : Node) : bool :=
  match node with
  | ND_NUM v => ((0 <=? v) && (v <? 2 ^ 31))%Z
  | ND_BIN _ l r => small l && small r
  end.

(* the tokens of [show node], as the parser sees them *)
Inductive shows : Node -> list Token -> Prop :=
| shows_num v t :
    kind t = TK_NUM -> to_int (val t) = v -> shows (ND_NUM v) [t]
| shows_bin k l r tl to tr toks_l toks_r :
    mismatch "(" tl = false -> shows l toks_l ->
    mismatch (op_char k) to = false -> shows r toks_r ->
    mismatch ")" tr = false ->
    shows (ND_BIN k l r) (tl :: toks_l ++ to :: toks_r ++ [tr])
| shows_parens node tl tr toks :
    mismatch "(" tl = false -> shows node toks -> mismatch ")" tr = false ->
    shows node (tl :: toks ++ [tr]).

(* [s] inside [depth] pairs of parentheses *)
Fixpoint parens (depth : nat) (s : string) : string :=
  match depth with
  | O => s
  | S depth => String "(" (parens depth s ++ ")")
  end.

(** The grammar in the comments of the parser, on token lists:
    expr = mul ("+" mul | "-" mul)*, mul = primary ("*" primary | "/" primary)*,
    primary = "(" expr ")" | num. *)
Inductive G_primary : list Token -> Prop :=
| G_num t : kind t = TK_NUM -> G_primary [t]
| G_paren tl e tr :
    mismatch "(" tl = false -> G_expr e -> mismatch ")" tr = false ->
    G_primary (tl :: e ++ [tr])
with G_mul : list Token -> Prop :=
| G_mul_one p : G_primary p -> G_mul p
| G_mul_more m t p :
    G_mul m -> mismatch "*" t = false \/ mismatch "/" t = false -> G_primary p ->
    G_mul (m ++ t :: p)
with G_expr : list Token -> Prop :=
| G_expr_one m : G_mul m -> G_expr m
| G_expr_more e t m :
    G_expr e -> mismatch "+" t = false \/ mismatch "-" t = false -> G_mul m ->
    G_expr (e ++ t :: m).

(* a call returns having read tokens that satisfy [G] *)
Definition accepts (G : list Token -> Prop) (token : cursor)
  (x : result (Node * cursor)) : Prop :=
  match x with
  | Ok (_, rest) => exists used, token = used ++ rest /\ G used
  | _ => True
  end.

(* with every bound on the recursion from some bound on *)
Definition eventually (F : nat -> Prop) : Prop :=
  exists N, forall fuel, N <= fuel -> F fuel.

(* the cursor is on a token that is neither "*" nor "/" *)
Definition stops_mul (token : cursor) : Prop :=
  exists t rest, token = t :: rest /\ mismatch "*" t = true /\ mismatch "/" t = true.

(* the cursor is on a token that is none of "+", "-", "*" and "/" *)
Definition stops_expr (token : cursor) : Prop :=
  exists t rest, token = t :: rest /\
    mismatch "+" t = true /\ mismatch "-" t = true /\
    mismatch "*" t = true /\ mismatch "/" t = true.

(** ** The parser and the code generator on a call stack that is not
    unbounded

    [expr], [mul], [primary] and [gen] above recurse as deep as the source
    asks for.  In the C program each of their calls takes a frame of the call
    stack, and nothing limits the depth: when the stack is exhausted the
    process is killed (SIGSEGV).  The functions below take the number
    [frames] of nested calls of these functions the stack can still hold; a
    call with no frame left is [StackOverflow].  The [for (;;)] loops run in
    the frame of their function.  The calls that do not recurse ([consume],
    [expect], [error_at], [printf]) are taken to fit. *)

Inductive staged (A : Type) : Type :=
| Returned (r : result A)
| StackOverflow.

Arguments Returned {A} r.
Arguments StackOverflow {A}.

Definition bind_in {A B : Type} (x : staged A) (k : A -> staged B) : staged B :=
  match x with
  | Returned (Ok a) => k a
  | Returned (ErrorAt loc msg) => Returned (ErrorAt loc msg)
  | Returned NullDeref => Returned NullDeref
  | Returned OutOfFuel => Returned OutOfFuel
  | StackOverflow => StackOverflow
  end.

Notation "x <-- r ;; k" := (bind_in r (fun x => k))
  (at level 61, r at next level, right associativity).
Notation "' p <-- r ;; k" := (bind_in r (fun x => let 'p := x in k))
  (at level 61, p pattern, r at next level, right associativity).

Fixpoint expr_in (frames fuel : nat) (token : cursor) {struct fuel}
  : staged (Node * cursor) :=
  match fuel with
  | O => Returned OutOfFuel
  | S fuel =>
      match frames with
      | O => StackOverflow
      | S frames =>
          '(node, token) <-- mul_in frames fuel token ;;
          expr_loop_in frames fuel node token
      end
  end

with expr_loop_in (frames fuel : nat) (node : Node) (token : cursor) {struct fuel}
  : staged (Node * cursor) :=
  match fuel with
  | O => Returned OutOfFuel
  | S fuel =>
      '(plus, token) <-- Returned (consume "+" token) ;;
      if plus : bool then
        '(rhs, token) <-- mul_in frames fuel token ;;
        expr_loop_in frames fuel (new_binary ND_ADD node rhs) token
      else
        '(minus, token) <-- Returned (consume "-" token) ;;
        if minus : bool then
          '(rhs, token) <-- mul_in frames fuel token ;;
          expr_loop_in frames fuel (new_binary ND_SUB node rhs) token
        else Returned (Ok (node, token))
  end

with mul_in (frames fuel : nat) (token : cursor) {struct fuel}
  : staged (Node * cursor) :=
  match fuel with
  | O => Returned OutOfFuel
  | S fuel =>
      match frames with
      | O => StackOverflow
      | S frames =>
          '(node, token) <-- primary_in frames fuel token ;;
          mul_loop_in frames fuel node token
      end
  end

with mul_loop_in (frames fuel : nat) (node : Node) (token : cursor) {struct fuel}
  : staged (Node * cursor) :=
  match fuel with
  | O => Returned OutOfFuel
  | S fuel =>
      '(star, token) <-- Returned (consume "*" token) ;;
      if star : bool then
        '(rhs, token) <-- mul_in frames fuel token ;;
        mul_loop_in frames fuel (new_binary ND_MUL node rhs) token
      else
        '(slash, token) <-- Returned (consume "/" token) ;;
        if slash : bool then
          '(rhs, token) <-- mul_in frames fuel token ;;
          mul_loop_in frames fuel (new_binary ND_DIV node rhs) token
        else Returned (Ok (node, token))
  end

with primary_in (frames fuel : nat) (token : cursor) {struct fuel}
  : staged (Node * cursor) :=
  match fuel with
  | O => Returned OutOfFuel
  | S fuel =>
      match frames with
      | O => StackOverflow
      | S frames =>
          '(paren, token) <-- Returned (consume "(" token) ;;
          if paren : bool then
            '(node, token) <-- expr_in frames fuel token ;;
            token <-- Returned (expect ")" token) ;;
            Returned (Ok (node, token))
          else
            '(v, token) <-- Returned (expect_number token) ;;
            Returned (Ok (new_num v, token))
      end
  end.

(* [gen] with [frames] frames left: the instructions printed, and whether
   the call returned (it does not when the stack is exhausted) *)
Fixpoint gen_in (frames : nat) (node : Node) : list instr * bool :=
  match frames with
  | O => ([], false)
  | S frames =>
      match node with
      | ND_NUM val => ([push_imm val], true)
      | ND_BIN kind lhs rhs =>
          let '(a, returned) := gen_in frames lhs in
          if returned : bool then
            let '(b, returned) := gen_in frames rhs in
            if returned : bool then
              (a ++ b ++ [pop rdi; pop rax] ++ gen_op kind ++ [push_reg rax], true)
            else (a ++ b, false)
          else (a, false)
      end
  end.

(* how a run ends: by [exit] or [return], or killed when the call stack is
   exhausted, having passed the lines [printed] to printf (whether stdio has
   written them out by then is not said) *)
Inductive outcome : Type :=
| Exited (p : Process)
| Killed (printed : list string).

(* [main] with room for [frames] nested calls of [expr], [mul] and
   [primary], and for [gen_frames] nested calls of [gen] (the frames of [gen]
   need not have the size of those of the parser, so the two depths are
   given apart).  [tokenize] is a loop and calls nothing that recurses.
   [None] as for [main]. *)
Definition main_on_stack (frames gen_frames : nat) (argv : list string)
  : option outcome :=
  match argv with
  | [_; user_input] =>
      match tokenize user_input with
      | Ok token =>
          match expr_in frames (parse_fuel token) token with
          | StackOverflow => Some (Killed [])
          | Returned (Ok (node, _)) =>
              let '(code, returned) := gen_in gen_frames node in
              if returned : bool then
                Some (Exited (mkProcess (prologue ++ map emit (code ++ epilogue)) "" 0))
              else Some (Killed (prologue ++ map emit code))
          | Returned (ErrorAt loc msg) => Some (Exited (error_at user_input loc msg))
          | Returned NullDeref | Returned OutOfFuel => None
          end
      | ErrorAt loc msg => Some (Exited (error_at user_input loc msg))
      | NullDeref | OutOfFuel => None
      end
  | _ =>
      Some (Exited (error (hd "(null)" argv ++ " : invalid of number of arguments")))
  end.

(* [n] opening parentheses *)
Fixpoint opens (n : nat) : string :=
  match n with
  | O => EmptyString
  | S n => String "(" (opens n)
  end.

(* the nested calls of [gen] a tree asks for *)
Fixpoint height (node : Node) : nat :=
  match node with
  | ND_NUM _ => 1
  | ND_BIN _ l r => S (Nat.max (height l) (height r))
  end.

(** ** Which sources are in error, and where

    Said on the source and on the grammar, not on the run of the parser. *)

(* the tokens begin with a sentence of the grammar followed by a token that
   cannot continue it: what the parser takes without an error *)
Definition syntax_ok (toks : list Token) : Prop :=
  exists used rest, toks = used ++ rest /\ G_expr used /\ stops_expr rest.

(* tokens that can be continued to a stream without syntax error *)
Definition viable (pre : list Token) : Prop :=
  exists suffix, syntax_ok (pre ++ suffix).

(* what [error_at] prints, the caret under offset [pos] *)
Definition diagnostic (user_input : string) (pos : nat) (msg : string) : Process :=
  mkProcess []
    (c_str user_input ++ newline ++ spaces pos ++ "^ " ++ msg ++ newline) 1.

(* the message of [expect_number] or of [expect] of a closing parenthesis,
   for a token that is not the one wanted *)
Definition unexpected (t : Token) (msg : string) : Prop :=
  (msg = "expected a number" /\ kind t <> TK_NUM /\ mismatch "(" t = true) \/
  (msg = "expected: ')'" /\ mismatch ")" t = true).

(* the token a message asks for *)
Definition wanted (msg : string) (w : Token) : Prop :=
  (msg = "expected a number" /\ kind w = TK_NUM) \/
  (msg = "expected: ')'" /\ mismatch ")" w = false).

(* a call of [f] at [c] looks at no token after the one it stops at: where
   it returns, and where it reports an error, it does the same whatever
   follows that token; an error is at a token that is not the one wanted,
   and the tokens read before it, followed by one that the message asks
   for, can be continued to satisfy [G] *)
Definition determined (G : list Token -> Prop)
  (f : cursor -> result (Node * cursor)) (c : cursor) : Prop :=
  match f c with
  | Ok (node, rest) =>
      exists used, c = used ++ rest /\
        forall t s s', rest = t :: s -> f (used ++ t :: s') = Ok (node, t :: s')
  | ErrorAt loc msg =>
      exists used t s, c = used ++ t :: s /\ loc = str t /\ unexpected t msg /\
        (exists w more, wanted msg w /\ G (used ++ w :: more)) /\
        forall s', f (used ++ t :: s') = ErrorAt loc msg
  | _ => True
  end.

(* a closing parenthesis and a number, to continue what has been read *)
Definition closing : Token := mkToken TK_RESERVED 0 ")".
Definition a_number : Token := mkToken TK_NUM 0 "0".

(** * Properties *)

(** ** Strings *)

Lemma append_nil_r (s : string) : (s ++ "")%string = s.
Proof. induction s; simpl; congruence. Qed.

Lemma append_assoc (a b c : string) : ((a ++ b) ++ c = a ++ (b ++ c))%string.
Proof. induction a; simpl; congruence. Qed.

Lemma length_append (a b : string) :
  String.length (a ++ b) = String.length a + String.length b.
Proof. induction a; simpl; congruence. Qed.

Lemma suffix_refl (p : string) : suffix p p.
Proof. exists ""; reflexivity. Qed.

Lemma suffix_trans (a b c : string) : suffix a b -> suffix b c -> suffix a c.
Proof.
  intros [x ->] [y ->]. exists (y ++ x)%string. now rewrite append_assoc.
Qed.

Lemma suffix_tail (c : ascii) (q : string) : suffix q (String c q).
Proof. exists (String c ""); reflexivity. Qed.

Lemma suffix_length (q p : string) : suffix q p -> String.length q <= String.length p.
Proof. intros [x ->]. rewrite length_append. lia. Qed.

Lemma offset_suffix (pre loc : string) : offset (pre ++ loc) loc = String.length pre.
Proof. unfold offset. rewrite length_append. lia. Qed.

(** ** The tokenizer *)

Lemma strtol_digits_suffix (p : string) :
  forall acc, suffix (snd (strtol_digits acc p)) p.
Proof.
  induction p as [|c q IH]; intros acc; simpl.
  - apply suffix_refl.
  - destruct (isdigit c).
    + eapply suffix_trans; [apply IH | apply suffix_tail].
    + apply suffix_refl.
Qed.

Lemma strtol_endptr (c : ascii) (q : string) (v : Z) (p2 : string) :
  isdigit c = true -> strtol (String c q) = (v, p2) -> suffix p2 q.
Proof.
  unfold strtol. simpl. intros ->.
  pose proof (strtol_digits_suffix q (0 * 10 + digit_value c)) as H.
  destruct (strtol_digits _ q) as [v' e]. intros [= <- <-]. exact H.
Qed.

Lemma tokenize_loop_eq (fuel : nat) (p : string) :
  tokenize_loop (S fuel) p =
    let c := deref p in
    if (c =? NUL)%char then Ok [new_token TK_EOF p]
    else
      let p1 := match p with EmptyString => p | String _ q => q end in
      if isspace c then tokenize_loop fuel p1
      else if ispunct c then
        toks <- tokenize_loop fuel p1 ;;
        Ok (new_token TK_RESERVED p :: toks)
      else if isdigit c then
        let '(v, p2) := strtol p in
        toks <- tokenize_loop fuel p2 ;;
        Ok (mkToken TK_NUM v p :: toks)
      else ErrorAt p "invalid token".
Proof. reflexivity. Qed.

(* every input is tokenized or rejected, with the fuel [tokenize] gives *)
Lemma tokenize_loop_total (fuel : nat) :
  forall p, String.length p < fuel ->
    (exists toks, tokenize_loop fuel p = Ok toks /\ lexes p toks) \/
    (exists loc, tokenize_loop fuel p = ErrorAt loc "invalid token" /\ lex_fails p loc).
Proof.
  induction fuel as [|fuel IH]; intros p Hlen; [lia|].
  rewrite tokenize_loop_eq. cbv zeta.
  destruct (Ascii.eqb_spec (deref p) NUL) as [Hnul|Hnul].
  - left. eexists; split; [reflexivity|]. now constructor.
  - destruct p as [|c q]; [now elim Hnul|]. simpl in Hnul, Hlen. simpl deref.
    destruct (isspace c) eqn:Hs.
    + destruct (IH q ltac:(lia)) as [(toks & -> & H)|(loc & -> & H)].
      * left. eexists; split; [reflexivity|]. now constructor.
      * right. eexists; split; [reflexivity|]. now constructor.
    + destruct (ispunct c) eqn:Hp.
      * destruct (IH q ltac:(lia)) as [(toks & -> & H)|(loc & -> & H)].
        -- left. eexists; split; [reflexivity|]. now constructor.
        -- right. eexists; split; [reflexivity|]. now constructor.
      * destruct (isdigit c) eqn:Hd.
        -- destruct (strtol (String c q)) as [v p2] eqn:Hst.
           pose proof (suffix_length _ _ (strtol_endptr _ _ _ _ Hd Hst)) as Hl.
           destruct (IH p2 ltac:(lia)) as [(toks & -> & H)|(loc & -> & H)].
           ++ left. eexists; split; [reflexivity|]. eapply lexes_num; eauto.
           ++ right. eexists; split; [reflexivity|]. eapply lex_fails_num; eauto.
        -- right. eexists; split; [reflexivity|]. now constructor.
Qed.

Lemma tokenize_cases (user_input : string) :
  (exists toks, tokenize user_input = Ok toks /\ lexes user_input toks) \/
  (exists loc, tokenize user_input = ErrorAt loc "invalid token" /\ lex_fails user_input loc).
Proof. apply tokenize_loop_total. lia. Qed.

Lemma tokenize_Ok (user_input : string) (toks : list Token) :
  tokenize user_input = Ok toks -> lexes user_input toks.
Proof.
  destruct (tokenize_cases user_input) as [(t & -> & H)|(loc & -> & H)]; congruence.
Qed.

Lemma tokenize_ErrorAt (user_input loc msg : string) :
  tokenize user_input = ErrorAt loc msg ->
  msg = "invalid token" /\ lex_fails user_input loc.
Proof.
  destruct (tokenize_cases user_input) as [(t & -> & H)|(l & -> & H)];
    [discriminate|]. intros [= <- <-]. now split.
Qed.

Lemma points_into_refl (p : string) : points_into p p.
Proof. exists ""; split; reflexivity. Qed.

Lemma points_into_tail (loc q : string) (c : ascii) :
  c <> NUL -> points_into loc q -> points_into loc (String c q).
Proof.
  intros Hc (pre & -> & E). exists (String c pre). split; [reflexivity|].
  simpl. destruct (Ascii.eqb_spec c NUL); [contradiction|]. now rewrite E.
Qed.

Lemma points_into_trans (a b c : string) :
  points_into a b -> points_into b c -> points_into a c.
Proof.
  intros (x & -> & Ex) (y & -> & Ey). exists (y ++ x)%string. split.
  - now rewrite append_assoc.
  - now rewrite Ey, Ex, append_assoc.
Qed.

Lemma points_into_suffix (loc p : string) : points_into loc p -> suffix loc p.
Proof. intros (pre & -> & _). now exists pre. Qed.

Lemma isdigit_not_NUL (c : ascii) : isdigit c = true -> c <> NUL.
Proof. intros H ->. discriminate. Qed.

Lemma strtol_digits_points (p : string) :
  forall acc, points_into (snd (strtol_digits acc p)) p.
Proof.
  induction p as [|c q IH]; intros acc; simpl.
  - apply points_into_refl.
  - destruct (isdigit c) eqn:Hd.
    + apply points_into_tail; [now apply isdigit_not_NUL | apply IH].
    + apply points_into_refl.
Qed.

Lemma strtol_points (p : string) (v : Z) (p2 : string) :
  strtol p = (v, p2) -> points_into p2 p.
Proof.
  unfold strtol. pose proof (strtol_digits_points p 0) as H.
  destruct (strtol_digits 0 p) as [v' e]. intros [= <- <-]. exact H.
Qed.

(* the shape of a token stream: tokens at positions of the input, one
   end-of-file marker, last, at the terminating NUL *)
Lemma lexes_shape (p : string) (toks : list Token) :
  lexes p toks ->
  Forall (fun t => points_into (str t) p) toks /\
  exists body e, toks = body ++ [e] /\ kind e = TK_EOF /\ val e = 0%Z /\
    deref (str e) = NUL /\ Forall (fun t => kind t <> TK_EOF) body.
Proof.
  induction 1 as [p Hp | c q toks Hc Hs _ (IHf & body & e & -> & IH)
                 | c q toks Hc Hs Hp _ (IHf & body & e & -> & IH)
                 | c q v p2 toks Hc Hs Hp Hd Hst _ (IHf & body & e & -> & IH)].
  - split.
    + constructor; [apply points_into_refl | constructor].
    + exists [], (new_token TK_EOF p). repeat split; trivial.
  - split.
    + eapply Forall_impl; [|exact IHf]. intros t Ht. now apply points_into_tail.
    + now exists body, e.
  - split.
    + constructor; [apply points_into_refl|].
      eapply Forall_impl; [|exact IHf]. intros t Ht. now apply points_into_tail.
    + exists (new_token TK_RESERVED (String c q) :: body), e.
      destruct IH as (? & ? & ? & ?). repeat split; trivial.
      constructor; [discriminate | assumption].
  - split.
    + constructor; [apply points_into_refl|].
      eapply Forall_impl; [|exact IHf]. intros t Ht.
      eapply points_into_trans; [exact Ht | now apply (strtol_points _ v)].
    + exists (mkToken TK_NUM v (String c q) :: body), e.
      destruct IH as (? & ? & ? & ?). repeat split; trivial.
      constructor; [discriminate | assumption].
Qed.

Lemma lexes_terminated (p : string) (toks : list Token) :
  lexes p toks -> terminated toks.
Proof.
  intros H. apply lexes_shape in H as (_ & body & e & -> & He & _).
  now exists body, e.
Qed.

(* a lexical error is at the first character that starts no token *)
Lemma lex_fails_points (p loc : string) :
  lex_fails p loc ->
  points_into loc p /\
  exists c q, loc = String c q /\ c <> NUL /\
    isspace c = false /\ ispunct c = false /\ isdigit c = false.
Proof.
  induction 1 as [c q Hc Hs Hp Hd | c q loc Hc Hs _ [IH1 IH2]
                 | c q loc Hc Hs Hp _ [IH1 IH2]
                 | c q v p2 loc Hc Hs Hp Hd Hst _ [IH1 IH2]].
  - split; [apply points_into_refl|]. now exists c, q.
  - split; [now apply points_into_tail | exact IH2].
  - split; [now apply points_into_tail | exact IH2].
  - split; [|exact IH2].
    eapply points_into_trans; [exact IH1 | now apply (strtol_points _ v)].
Qed.

(** *** Character classes *)

Ltac by_cases_on_char c :=
  destruct c as [[] [] [] [] [] [] [] []]; vm_compute; try discriminate; auto.

Lemma isdigit_not_isspace (c : ascii) : isdigit c = true -> isspace c = false.
Proof. by_cases_on_char c. Qed.

Lemma isdigit_not_ispunct (c : ascii) : isdigit c = true -> ispunct c = false.
Proof. by_cases_on_char c. Qed.

Lemma ispunct_not_isdigit (c : ascii) : ispunct c = true -> isdigit c = false.
Proof. by_cases_on_char c. Qed.

Lemma isspace_not_isdigit (c : ascii) : isspace c = true -> isdigit c = false.
Proof. by_cases_on_char c. Qed.

Lemma isspace_not_ispunct (c : ascii) : isspace c = true -> ispunct c = false.
Proof. by_cases_on_char c. Qed.

Lemma isspace_not_NUL (c : ascii) : isspace c = true -> c <> NUL.
Proof. intros H ->. discriminate. Qed.

Lemma c_str_cons (c : ascii) (q : string) :
  c <> NUL -> c_str (String c q) = String c (c_str q).
Proof. intros H. simpl. now destruct (Ascii.eqb_spec c NUL). Qed.

Lemma c_str_deref_NUL (p : string) : deref p = NUL -> c_str p = "".
Proof. destruct p as [|c q]; simpl; [reflexivity|]. now intros ->. Qed.

Lemma deref_c_str (p : string) : deref (c_str p) = deref p.
Proof.
  destruct p as [|c q]; simpl; [reflexivity|].
  now destruct (Ascii.eqb_spec c NUL) as [->|].
Qed.

(** *** What [strtol] reads *)

(* [strtol] reads the maximal run of digits at [p] *)
Lemma strtol_digits_span (p : string) :
  forall acc, exists ds,
    p = (ds ++ snd (strtol_digits acc p))%string /\
    string_forallb isdigit ds = true /\
    isdigit (deref (snd (strtol_digits acc p))) = false.
Proof.
  induction p as [|c q IH]; intros acc; simpl.
  - now exists "".
  - destruct (isdigit c) eqn:Hd.
    + destruct (IH (acc * 10 + digit_value c)%Z) as (ds & E & Hds & Hn).
      exists (String c ds). simpl. rewrite Hd, Hds. repeat split; trivial.
      now rewrite <- E.
    + exists "". simpl. now rewrite Hd.
Qed.

Lemma strtol_span (c : ascii) (q : string) (v : Z) (p2 : string) :
  isdigit c = true -> strtol (String c q) = (v, p2) ->
  exists ds, q = (ds ++ p2)%string /\ string_forallb isdigit ds = true /\
    isdigit (deref p2) = false.
Proof.
  unfold strtol. simpl. intros ->.
  destruct (strtol_digits_span q (0 * 10 + digit_value c)) as (ds & E & H).
  destruct (strtol_digits _ q) as [v' e]. intros [= <- <-]. now exists ds.
Qed.

Section DigitRun.
Variables (ds p2 : string).
Hypothesis Hds : string_forallb isdigit ds = true.

Lemma c_str_digits : c_str (ds ++ p2) = (ds ++ c_str p2)%string.
Proof.
  induction ds as [|c q IH]; simpl in *; [reflexivity|].
  apply andb_prop in Hds as [Hc Hq].
  destruct (Ascii.eqb_spec c NUL) as [->|_]; [discriminate|].
  now rewrite IH.
Qed.

Lemma count_punct_digits (r : string) :
  count_chars ispunct (ds ++ r) = count_chars ispunct r.
Proof.
  induction ds as [|c q IH]; simpl in *; [reflexivity|].
  apply andb_prop in Hds as [Hc Hq].
  now rewrite (isdigit_not_ispunct c Hc), IH.
Qed.

Lemma filter_digits (r : string) :
  string_filter (fun c => negb (isspace c)) (ds ++ r) =
    (ds ++ string_filter (fun c => negb (isspace c)) r)%string.
Proof.
  induction ds as [|c q IH]; simpl in *; [reflexivity|].
  apply andb_prop in Hds as [Hc Hq].
  now rewrite (isdigit_not_isspace c Hc), IH.
Qed.

Lemma take_digits_run (r : string) :
  isdigit (deref r) = false -> take_digits (ds ++ r) = ds.
Proof.
  intros Hr. induction ds as [|c q IH]; simpl in *.
  - destruct r as [|c r]; simpl in *; [reflexivity|]. now rewrite Hr.
  - apply andb_prop in Hds as [Hc Hq]. now rewrite Hc, IH.
Qed.

Lemma digit_runs_after (r : string) :
  isdigit (deref r) = false ->
  digit_runs_from true (ds ++ r) = digit_runs_from false r.
Proof.
  intros Hr. induction ds as [|c q IH]; simpl in *.
  - destruct r as [|c r]; simpl in *; [reflexivity|]. now rewrite Hr.
  - apply andb_prop in Hds as [Hc Hq]. rewrite Hc. simpl. now apply IH.
Qed.
End DigitRun.

Lemma strtol_digits_run (ds r : string) :
  string_forallb isdigit ds = true -> isdigit (deref r) = false ->
  forall acc, strtol_digits acc (ds ++ r) = (fst (strtol_digits acc ds), r).
Proof.
  intros Hds Hr. induction ds as [|c q IH]; intros acc; simpl in *.
  - destruct r as [|c r]; simpl in *; [reflexivity|]. now rewrite Hr.
  - apply andb_prop in Hds as [Hc Hq]. rewrite Hc. now apply IH.
Qed.

Lemma strtol_run (c : ascii) (ds r : string) :
  isdigit c = true -> string_forallb isdigit ds = true ->
  isdigit (deref r) = false ->
  strtol (String c (ds ++ r)) =
    (Z.min (fst (strtol_digits 0 (String c ds))) LONG_MAX, r).
Proof.
  intros Hc Hds Hr. unfold strtol.
  change (String c (ds ++ r)) with (String c ds ++ r)%string.
  rewrite strtol_digits_run; trivial. simpl. now rewrite Hc.
Qed.

(** *** What the tokens stand for *)

Lemma lexes_source (p : string) (toks : list Token) :
  lexes p toks ->
  count_kind TK_RESERVED toks = count_chars ispunct (c_str p) /\
  count_kind TK_NUM toks = digit_runs (c_str p) /\
  source_text toks = string_filter (fun c => negb (isspace c)) (c_str p) /\
  forallb starts_right toks = true.
Proof.
  unfold digit_runs.
  induction 1 as [p Hp | c q toks Hc Hs _ (IH1 & IH2 & IH3 & IH4)
                 | c q toks Hc Hs Hp _ (IH1 & IH2 & IH3 & IH4)
                 | c q v p2 toks Hc Hs Hp Hd Hst _ (IH1 & IH2 & IH3 & IH4)].
  - rewrite (c_str_deref_NUL p Hp). repeat split.
    unfold starts_right. simpl. now rewrite Hp.
  - rewrite (c_str_cons c q Hc). simpl.
    rewrite (isspace_not_ispunct c Hs), (isspace_not_isdigit c Hs), Hs. simpl.
    now repeat split.
  - rewrite (c_str_cons c q Hc). simpl.
    rewrite Hp, (ispunct_not_isdigit c Hp), Hs. simpl.
    unfold count_kind in *. simpl. rewrite IH1, IH2, IH3.
    unfold starts_right at 1. simpl. rewrite Hp. now repeat split.
  - destruct (strtol_span c q v p2 Hd Hst) as (ds & -> & Hds & Hn).
    rewrite (c_str_cons c _ Hc), (c_str_digits ds p2 Hds). simpl.
    rewrite Hp, Hd, Hs. simpl.
    rewrite (count_punct_digits ds Hds), (filter_digits ds Hds).
    rewrite (digit_runs_after ds Hds) by now rewrite deref_c_str.
    unfold count_kind in *. simpl. rewrite IH1, IH2.
    unfold lexeme at 1. simpl. rewrite Hd, (take_digits_run ds Hds p2 Hn), IH3.
    unfold starts_right at 1. simpl. rewrite Hd. now repeat split.
Qed.

Lemma count_kind_app (k : TokenKind) (a b : list Token) :
  count_kind k (a ++ b) = count_kind k a + count_kind k b.
Proof. unfold count_kind. now rewrite filter_app, length_app. Qed.

Lemma count_kind_none (k : TokenKind) (toks : list Token) :
  Forall (fun t => kind t <> k) toks -> count_kind k toks = 0.
Proof.
  unfold count_kind. induction 1 as [|t l Ht _ IH]; simpl; [reflexivity|].
  destruct (kind t), k; simpl; trivial; now elim Ht.
Qed.

Lemma count_kind_total (toks : list Token) :
  List.length toks =
    count_kind TK_RESERVED toks + count_kind TK_NUM toks + count_kind TK_EOF toks.
Proof.
  unfold count_kind. induction toks as [|t l IH]; simpl; [reflexivity|].
  destruct (kind t); simpl; lia.
Qed.

(** *** The relation and the function *)

Lemma lexes_tokenize_loop (p : string) (toks : list Token) :
  lexes p toks ->
  forall fuel, String.length p < fuel -> tokenize_loop fuel p = Ok toks.
Proof.
  induction 1 as [p Hp | c q toks Hc Hs _ IH | c q toks Hc Hs Hp _ IH
                 | c q v p2 toks Hc Hs Hp Hd Hst _ IH];
    intros [|fuel] Hf; try lia; rewrite tokenize_loop_eq; cbv zeta.
  - now rewrite Hp.
  - simpl deref. simpl in Hf.
    destruct (Ascii.eqb_spec c NUL); [contradiction|]. rewrite Hs.
    apply IH. lia.
  - simpl deref. simpl in Hf.
    destruct (Ascii.eqb_spec c NUL); [contradiction|]. rewrite Hs, Hp.
    rewrite IH by lia. reflexivity.
  - simpl deref. simpl in Hf.
    destruct (Ascii.eqb_spec c NUL); [contradiction|]. rewrite Hs, Hp, Hd, Hst.
    pose proof (suffix_length _ _ (strtol_endptr _ _ _ _ Hd Hst)).
    rewrite IH by lia. reflexivity.
Qed.

Lemma lex_fails_tokenize_loop (p loc : string) :
  lex_fails p loc ->
  forall fuel, String.length p < fuel ->
    tokenize_loop fuel p = ErrorAt loc "invalid token".
Proof.
  induction 1 as [c q Hc Hs Hp Hd | c q loc Hc Hs _ IH | c q loc Hc Hs Hp _ IH
                 | c q v p2 loc Hc Hs Hp Hd Hst _ IH];
    intros [|fuel] Hf; try lia; rewrite tokenize_loop_eq; cbv zeta;
    simpl deref; simpl in Hf;
    (destruct (Ascii.eqb_spec c NUL); [contradiction|]).
  - now rewrite Hs, Hp, Hd.
  - rewrite Hs. apply IH. lia.
  - rewrite Hs, Hp. rewrite IH by lia. reflexivity.
  - rewrite Hs, Hp, Hd, Hst.
    pose proof (suffix_length _ _ (strtol_endptr _ _ _ _ Hd Hst)).
    rewrite IH by lia. reflexivity.
Qed.

Lemma lexes_tokenize (p : string) (toks : list Token) :
  lexes p toks -> tokenize p = Ok toks.
Proof. intros H. apply lexes_tokenize_loop; [exact H | lia]. Qed.

Lemma lex_fails_tokenize (p loc : string) :
  lex_fails p loc -> tokenize p = ErrorAt loc "invalid token".
Proof. intros H. apply lex_fails_tokenize_loop; [exact H | lia]. Qed.

(** *** White space between tokens *)

Lemma string_app_eq_app (a b : string) :
  forall c d, (a ++ b = c ++ d)%string ->
    exists l, (a = (c ++ l)%string /\ d = (l ++ b)%string) \/
              (c = (a ++ l)%string /\ b = (l ++ d)%string).
Proof.
  induction a as [|x a IH]; intros c d E; simpl in E.
  - exists c. right. now split.
  - destruct c as [|y c]; simpl in E.
    + exists (String x a). left. now split.
    + injection E as -> E. destruct (IH c d E) as (l & [[-> ->]|[-> ->]]);
        exists l; [left|right]; now split.
Qed.

Lemma last_char_cons (c : ascii) (a : string) :
  a <> "" -> last_char (String c a) = last_char a.
Proof. destruct a; [intros H; now elim H | reflexivity]. Qed.

Lemma last_char_digits (c : ascii) (ds : string) :
  isdigit c = true -> string_forallb isdigit ds = true ->
  isdigit (last_char (String c ds)) = true.
Proof.
  revert c. induction ds as [|d ds IH]; intros c Hc Hds; [exact Hc|].
  simpl in Hds. apply andb_prop in Hds as [Hd Hds].
  rewrite last_char_cons by discriminate. now apply IH.
Qed.

Lemma string_forallb_app (f : ascii -> bool) (a b : string) :
  string_forallb f (a ++ b) = string_forallb f a && string_forallb f b.
Proof. induction a as [|c a IH]; simpl; [reflexivity|]. now rewrite IH, andb_assoc. Qed.

Lemma deref_app (a b : string) : a <> "" -> deref (a ++ b) = deref a.
Proof. destruct a; [intros H; now elim H | reflexivity]. Qed.

(* the condition of [ws_insert_at], one character further *)
Lemma between_tokens_tail (c : ascii) (a b : string) :
  isdigit (last_char (String c a)) && isdigit (deref b) = false ->
  isdigit (last_char a) && isdigit (deref b) = false.
Proof.
  destruct a as [|d a]; [reflexivity|]. now rewrite last_char_cons by discriminate.
Qed.

Section Insert.
Variables (w : ascii) (b : string).
Hypothesis Hw : isspace w = true.

(* where a number that starts in [a] ends, in [a ++ b] and in [a ++ w b] *)
Lemma strtol_insert (c : ascii) (a : string) (v : Z) (p2 : string) :
  isdigit c = true ->
  isdigit (last_char (String c a)) && isdigit (deref b) = false ->
  strtol (String c (a ++ b)) = (v, p2) ->
  exists a2, p2 = (a2 ++ b)%string /\
    strtol (String c (a ++ String w b)) = (v, (a2 ++ String w b)%string) /\
    isdigit (last_char a2) && isdigit (deref b) = false.
Proof.
  intros Hc Hcond Hst.
  destruct (strtol_span c _ v p2 Hc Hst) as (ds & E & Hds & Hn).
  destruct (string_app_eq_app _ _ _ _ E) as (l & [[-> ->]|[-> ->]]).
  - (* the run ends inside [a] *)
    exists l. split; [reflexivity|].
    assert (Hl : isdigit (deref (l ++ String w b)) = false).
    { destruct l as [|x l]; [simpl; now apply isspace_not_isdigit | exact Hn]. }
    rewrite append_assoc, (strtol_run c ds _ Hc Hds Hn) in Hst.
    injection Hst as <-.
    rewrite append_assoc, (strtol_run c ds _ Hc Hds Hl). split; [reflexivity|].
    destruct l as [|x l]; [reflexivity|].
    revert Hcond. clear. revert c.
    induction ds as [|d ds IH]; intros c.
    + simpl append. now rewrite last_char_cons by discriminate.
    + intros H. apply (IH d). simpl append in *.
      now rewrite last_char_cons in H by discriminate.
  - (* the run goes on in [b]: [a] ends with a digit and [b] starts with one *)
    rewrite string_forallb_app in Hds. apply andb_prop in Hds as [Ha Hl].
    rewrite (last_char_digits c a Hc Ha) in Hcond.
    destruct l as [|x l].
    + exists "". simpl in *.
      pose proof (strtol_run c a (String w p2) Hc Ha
                    (isspace_not_isdigit w Hw)) as E2.
      pose proof (strtol_run c a p2 Hc Ha Hn) as E1.
      rewrite Hst in E1. injection E1 as ->. now rewrite E2.
    + simpl in Hl, Hcond. apply andb_prop in Hl as [Hx _].
      rewrite Hx in Hcond. discriminate.
Qed.

Lemma lexes_insert (p : string) (toks : list Token) :
  lexes p toks ->
  forall a, p = (a ++ b)%string ->
    isdigit (last_char a) && isdigit (deref b) = false ->
    exists toks', lexes (a ++ String w b) toks' /\ same_view toks toks'.
Proof.
  pose proof (isspace_not_NUL w Hw) as Hw0.
  induction 1 as [p Hp | c q toks Hc Hs Hl IH | c q toks Hc Hs Hp Hl IH
                 | c q v p2 toks Hc Hs Hp Hd Hst Hl IH]; intros a E Hcond.
  - destruct a as [|x a]; simpl in E; subst p.
    + exists [new_token TK_EOF b]. split; [|reflexivity].
      apply lexes_space; trivial. now apply lexes_eof.
    + simpl in Hp. subst x. exists [new_token TK_EOF (String NUL a ++ String w b)].
      split; [now apply lexes_eof | reflexivity].
  - destruct a as [|x a]; simpl in E.
    + subst b. exists toks. split; [|reflexivity].
      apply lexes_space; trivial. now apply lexes_space.
    + injection E as <- ->.
      destruct (IH a eq_refl (between_tokens_tail _ _ _ Hcond)) as (toks' & H1 & H2).
      exists toks'. split; [|exact H2]. now apply lexes_space.
  - destruct a as [|x a]; simpl in E.
    + subst b. eexists. split; [|reflexivity].
      apply lexes_space; trivial. now apply lexes_punct.
    + injection E as <- ->.
      destruct (IH a eq_refl (between_tokens_tail _ _ _ Hcond)) as (toks' & H1 & H2).
      exists (new_token TK_RESERVED (String c a ++ String w b) :: toks').
      split; [now apply lexes_punct|].
      unfold same_view in *. simpl. now rewrite H2.
  - destruct a as [|x a]; simpl in E.
    + subst b. eexists. split; [|reflexivity].
      apply lexes_space; trivial. now apply (lexes_num c q v p2).
    + injection E as <- ->.
      destruct (strtol_insert c a v p2 Hd Hcond Hst) as (a2 & -> & Hst' & Hc2).
      destruct (IH a2 eq_refl Hc2) as (toks' & H1 & H2).
      exists (mkToken TK_NUM v (String c a ++ String w b) :: toks').
      split; [now apply (lexes_num c _ v (a2 ++ String w b))|].
      unfold same_view in *. simpl. now rewrite H2.
Qed.

Lemma lex_fails_insert (p loc : string) :
  lex_fails p loc ->
  forall a, p = (a ++ b)%string ->
    isdigit (last_char a) && isdigit (deref b) = false ->
    exists loc', lex_fails (a ++ String w b) loc'.
Proof.
  pose proof (isspace_not_NUL w Hw) as Hw0.
  induction 1 as [c q Hc Hs Hp Hd | c q loc Hc Hs Hl IH | c q loc Hc Hs Hp Hl IH
                 | c q v p2 loc Hc Hs Hp Hd Hst Hl IH]; intros a E Hcond.
  - destruct a as [|x a]; simpl in E.
    + subst b. eexists. apply lex_fails_space; trivial. now apply lex_fails_here.
    + injection E as <- ->. eexists. now apply lex_fails_here.
  - destruct a as [|x a]; simpl in E.
    + subst b. eexists. apply lex_fails_space; trivial.
      apply lex_fails_space; eauto.
    + injection E as <- ->.
      destruct (IH a eq_refl (between_tokens_tail _ _ _ Hcond)) as (loc' & H1).
      exists loc'. now apply lex_fails_space.
  - destruct a as [|x a]; simpl in E.
    + subst b. eexists. apply lex_fails_space; trivial.
      apply lex_fails_punct; eauto.
    + injection E as <- ->.
      destruct (IH a eq_refl (between_tokens_tail _ _ _ Hcond)) as (loc' & H1).
      exists loc'. now apply lex_fails_punct.
  - destruct a as [|x a]; simpl in E.
    + subst b. eexists. apply lex_fails_space; trivial.
      apply (lex_fails_num c q v p2); eauto.
    + injection E as <- ->.
      destruct (strtol_insert c a v p2 Hd Hcond Hst) as (a2 & -> & Hst' & Hc2).
      destruct (IH a2 eq_refl Hc2) as (loc' & H1).
      exists loc'. now apply (lex_fails_num c _ v (a2 ++ String w b)).
Qed.
End Insert.

(* one more white-space character between tokens: same tokens, or an error
   in both sources *)
Lemma tokenize_ws_insert (s1 s2 : string) :
  ws_insert s1 s2 ->
  rel_result same_view (tokenize s1) (tokenize s2).
Proof.
  intros [a w b Hw Hcond].
  destruct (tokenize_cases (a ++ b)) as [(toks & -> & Hl)|(loc & -> & Hl)].
  - destruct (lexes_insert w b Hw _ _ Hl a eq_refl Hcond) as (toks' & H1 & H2).
    rewrite (lexes_tokenize _ _ H1). exact H2.
  - destruct (lex_fails_insert w b Hw _ _ Hl a eq_refl Hcond) as (loc' & H1).
    rewrite (lex_fails_tokenize _ _ H1). exact I.
Qed.

(** ** The parser *)

Lemma expr_eq (fuel : nat) (token : cursor) :
  expr (S fuel) token =
    ('(node, token) <- mul fuel token ;; expr_loop fuel node token).
Proof. reflexivity. Qed.

Lemma expr_loop_eq (fuel : nat) (node : Node) (token : cursor) :
  expr_loop (S fuel) node token =
    ('(plus, token) <- consume "+" token ;;
     if plus : bool then
       '(rhs, token) <- mul fuel token ;;
       expr_loop fuel (new_binary ND_ADD node rhs) token
     else
       '(minus, token) <- consume "-" token ;;
       if minus : bool then
         '(rhs, token) <- mul fuel token ;;
         expr_loop fuel (new_binary ND_SUB node rhs) token
       else Ok (node, token)).
Proof. reflexivity. Qed.

Lemma mul_eq (fuel : nat) (token : cursor) :
  mul (S fuel) token =
    ('(node, token) <- primary fuel token ;; mul_loop fuel node token).
Proof. reflexivity. Qed.

Lemma mul_loop_eq (fuel : nat) (node : Node) (token : cursor) :
  mul_loop (S fuel) node token =
    ('(star, token) <- consume "*" token ;;
     if star : bool then
       '(rhs, token) <- mul fuel token ;;
       mul_loop fuel (new_binary ND_MUL node rhs) token
     else
       '(slash, token) <- consume "/" token ;;
       if slash : bool then
         '(rhs, token) <- mul fuel token ;;
         mul_loop fuel (new_binary ND_DIV node rhs) token
       else Ok (node, token)).
Proof. reflexivity. Qed.

Lemma primary_eq (fuel : nat) (token : cursor) :
  primary (S fuel) token =
    ('(paren, token) <- consume "(" token ;;
     if paren : bool then
       '(node, token) <- expr fuel token ;;
       token <- expect ")" token ;;
       Ok (node, token)
     else
       '(v, token) <- expect_number token ;;
       Ok (new_num v, token)).
Proof. reflexivity. Qed.

Lemma terminated_cons (t : Token) (next : cursor) :
  terminated (t :: next) -> kind t <> TK_EOF -> terminated next.
Proof.
  intros (body & e & Heq & He) Hk.
  destruct body as [|b body]; simpl in Heq; injection Heq as -> ->.
  - contradiction.
  - now exists body, e.
Qed.

Lemma terminated_nonnull (token : cursor) : terminated token -> token <> [].
Proof. intros (body & e & -> & _). now destruct body. Qed.

Lemma mismatch_false (op : ascii) (t : Token) :
  mismatch op t = false -> kind t = TK_RESERVED /\ deref (str t) = op.
Proof.
  unfold mismatch. intros H. apply orb_false_elim in H as [H1 H2].
  apply negb_false_iff in H1, H2. split.
  - now destruct (kind t).
  - now apply Ascii.eqb_eq.
Qed.

(* the three ways the parser looks at the cursor *)
Lemma consume_cases (op : ascii) (token : cursor) :
  terminated token ->
  (consume op token = Ok (false, token) /\
   exists t next, token = t :: next /\ mismatch op t = true) \/
  (exists t next, token = t :: next /\ mismatch op t = false /\
     consume op token = Ok (true, next) /\ terminated next).
Proof.
  intros Ht. destruct token as [|t next]; [now apply terminated_nonnull in Ht|].
  simpl. destruct (mismatch op t) eqn:Hm.
  - left. split; [reflexivity|]. now exists t, next.
  - right. exists t, next. repeat split; trivial.
    apply (terminated_cons t); trivial.
    apply mismatch_false in Hm as [-> _]. discriminate.
Qed.

Lemma expect_cases (op : ascii) (token : cursor) :
  terminated token ->
  exists t next, token = t :: next /\
    ((mismatch op t = true /\
      expect op token = ErrorAt (str t) ("expected: '" ++ String op "'")) \/
     (mismatch op t = false /\ expect op token = Ok next /\ terminated next)).
Proof.
  intros Ht. destruct token as [|t next]; [now apply terminated_nonnull in Ht|].
  exists t, next. split; [reflexivity|]. simpl.
  destruct (mismatch op t) eqn:Hm.
  - now left.
  - right. repeat split; trivial.
    apply (terminated_cons t); trivial.
    apply mismatch_false in Hm as [-> _]. discriminate.
Qed.

Lemma expect_number_cases (token : cursor) :
  terminated token ->
  exists t next, token = t :: next /\
    ((kind t <> TK_NUM /\ expect_number token = ErrorAt (str t) "expected a number") \/
     (kind t = TK_NUM /\ expect_number token = Ok (val t, next) /\ terminated next)).
Proof.
  intros Ht. destruct token as [|t next]; [now apply terminated_nonnull in Ht|].
  exists t, next. split; [reflexivity|]. simpl.
  destruct (kind t) eqn:Hk; simpl.
  - left. split; [discriminate|reflexivity].
  - right. repeat split; trivial. apply (terminated_cons t); trivial. congruence.
  - left. split; [discriminate|reflexivity].
Qed.

Lemma syntax_error_app (used rest : cursor) (loc msg : string) :
  syntax_error rest loc msg -> syntax_error (used ++ rest) loc msg.
Proof.
  intros (t & Hin & H). exists t. split; [apply in_or_app; now right|exact H].
Qed.

(* a result obtained further down the stream, seen from the caller *)
Lemma parsed_lift (s' s : bool) (b' b f : nat) (token used rest : cursor)
  (r : result (Node * cursor)) :
  parsed s' b' f rest r ->
  token = used ++ rest ->
  b' + 1 <= 3 * List.length used + b ->
  (s = true -> used <> [] \/ s' = true) ->
  parsed s b (S f) token r.
Proof.
  intros Hr -> Hb Hs. destruct r as [[node rest']| loc msg | |]; simpl in *.
  - destruct Hr as (Ht & used' & -> & Hu). split; [exact Ht|].
    exists (used ++ used'). split; [now rewrite app_assoc|].
    intros E. destruct (Hs E) as [H|H].
    + destruct used; [now elim H|discriminate].
    + specialize (Hu H). destruct used'; [now elim Hu|]. now destruct used.
  - now apply syntax_error_app.
  - exact Hr.
  - rewrite length_app. lia.
Qed.

Lemma parsed_bind (s1 s : bool) (b1 b f : nat) (token used0 token1 : cursor)
  (r1 : result (Node * cursor)) (k : Node * cursor -> result (Node * cursor)) :
  token = used0 ++ token1 ->
  parsed s1 b1 f token1 r1 ->
  b1 + 1 <= 3 * List.length used0 + b ->
  (forall node rest used,
      terminated rest -> token1 = used ++ rest -> (s1 = true -> used <> []) ->
      parsed s b (S f) token (k (node, rest))) ->
  parsed s b (S f) token (bind r1 k).
Proof.
  intros -> Hr Hb Hk. destruct r1 as [[node rest]| loc msg | |]; simpl in *.
  - destruct Hr as (Ht & used & -> & Hu). now apply (Hk node rest used).
  - now apply syntax_error_app.
  - exact Hr.
  - rewrite length_app. lia.
Qed.

(* The parser on a terminated stream: it never dereferences NULL, it stops
   at a later cursor of the same stream, its errors are at tokens of the
   stream, and the fuel bounds below are enough. *)
Lemma parser_parsed (fuel : nat) :
  (forall token, terminated token -> parsed true 3 fuel token (expr fuel token)) /\
  (forall node token, terminated token ->
     parsed false 2 fuel token (expr_loop fuel node token)) /\
  (forall token, terminated token -> parsed true 2 fuel token (mul fuel token)) /\
  (forall node token, terminated token ->
     parsed false 1 fuel token (mul_loop fuel node token)) /\
  (forall token, terminated token -> parsed true 1 fuel token (primary fuel token)).
Proof.
  induction fuel as [|f (IHe & IHel & IHm & IHml & IHp)].
  { repeat split; intros; simpl; lia. }
  assert (Hloop : forall (k1 k2 : NodeKind) (op1 op2 : ascii) (b : nat) node token
            (loop : Node -> cursor -> result (Node * cursor)),
            (forall node token, terminated token -> parsed false b f token (loop node token)) ->
            1 <= b <= 2 ->
            terminated token ->
            parsed false b (S f) token
              ('(c1, token) <- consume op1 token ;;
               if c1 : bool then
                 '(rhs, token) <- mul f token ;; loop (new_binary k1 node rhs) token
               else
                 '(c2, token) <- consume op2 token ;;
                 if c2 : bool then
                   '(rhs, token) <- mul f token ;; loop (new_binary k2 node rhs) token
                 else Ok (node, token))).
  { intros k1 k2 op1 op2 b node token loop IHloop Hb Ht.
    assert (Hcont : forall t next k, token = t :: next -> terminated next ->
              parsed false b (S f) token
                ('(rhs, token) <- mul f next ;; loop (new_binary k node rhs) token)).
    { intros t next k -> Hn.
      apply (parsed_bind true false 2 b f (t :: next) [t] next);
        [reflexivity | now apply IHm | simpl; lia |].
      intros rhs rest used Hrest -> Hu. cbn.
      apply (parsed_lift false false b b f _ (t :: used) rest);
        [now apply IHloop | reflexivity | simpl; lia | discriminate]. }
    destruct (consume_cases op1 token Ht) as [[-> _]|(t & next & E & _ & -> & Hn)]; cbn.
    - destruct (consume_cases op2 token Ht) as [[-> _]|(t & next & E & _ & -> & Hn)]; cbn.
      + split; [exact Ht|]. exists []. split; [reflexivity|discriminate].
      + now apply (Hcont t next).
    - now apply (Hcont t next). }
  split; [|split; [|split; [|split]]].
  - intros token Ht. rewrite expr_eq.
    apply (parsed_bind true true 2 3 f token [] token);
      [reflexivity | now apply IHm | simpl; lia |].
    intros node rest used Hrest -> Hu. cbn.
    apply (parsed_lift false true 2 3 f _ used rest);
      [now apply IHel | reflexivity | lia |].
    intros _. left. now apply Hu.
  - intros node token Ht. rewrite expr_loop_eq.
    apply (Hloop ND_ADD ND_SUB); [exact IHel | lia | exact Ht].
  - intros token Ht. rewrite mul_eq.
    apply (parsed_bind true true 1 2 f token [] token);
      [reflexivity | now apply IHp | simpl; lia |].
    intros node rest used Hrest -> Hu. cbn.
    apply (parsed_lift false true 1 2 f _ used rest);
      [now apply IHml | reflexivity | lia |].
    intros _. left. now apply Hu.
  - intros node token Ht. rewrite mul_loop_eq.
    apply (Hloop ND_MUL ND_DIV); [exact IHml | lia | exact Ht].
  - intros token Ht. rewrite primary_eq.
    destruct (consume_cases "(" token Ht) as [[-> _]|(t & next & -> & _ & -> & Hn)]; cbn.
    + destruct (expect_number_cases token Ht)
        as (t & next & -> & [[Hk ->]|(Hk & -> & Hn)]); cbn.
      * exists t. split; [now left|]. split; [reflexivity|]. now left.
      * split; [exact Hn|]. exists [t]. split; [reflexivity|discriminate].
    + apply (parsed_bind true true 3 1 f (t :: next) [t] next);
        [reflexivity | now apply IHe | simpl; lia |].
      intros node rest used Hrest -> Hu. cbn.
      destruct (expect_cases ")" rest Hrest)
        as (t' & next' & -> & [[Hk ->]|(Hk & -> & Hn')]); cbn.
      * exists t'. split; [right; apply in_or_app; right; now left|].
        split; [reflexivity|]. now right.
      * split; [exact Hn'|]. exists (t :: used ++ [t']).
        split; [simpl; now rewrite <- app_assoc|discriminate].
Qed.

(* [parse_fuel] is enough: on a terminated stream [expr] returns a node
   and the cursor it stopped at, or reports a syntax error *)
Lemma expr_cases (token : cursor) :
  terminated token ->
  (exists node rest used, expr (parse_fuel token) token = Ok (node, rest) /\
     terminated rest /\ token = used ++ rest /\ used <> []) \/
  (exists loc msg, expr (parse_fuel token) token = ErrorAt loc msg /\
     syntax_error token loc msg).
Proof.
  intros Ht. pose proof (proj1 (parser_parsed (parse_fuel token)) token Ht) as H.
  destruct (expr (parse_fuel token) token) as [[node rest]| loc msg | |]; simpl in H.
  - left. destruct H as (Hr & used & E & Hu). exists node, rest, used. auto.
  - right. now exists loc, msg.
  - contradiction.
  - unfold parse_fuel in H. lia.
Qed.

(** *** The parser reads kinds, values and first characters only *)

Lemma rel_bind {A B : Type} (R : A -> A -> Prop) (S : B -> B -> Prop)
  (r r' : result A) (k k' : A -> result B) :
  rel_result R r r' ->
  (forall x y, R x y -> rel_result S (k x) (k' y)) ->
  rel_result S (bind r k) (bind r' k').
Proof.
  intros Hr Hk. destruct r, r'; simpl in *; try contradiction; auto.
Qed.

Lemma same_view_cons (t : Token) (next toks' : list Token) :
  same_view (t :: next) toks' ->
  exists t' next', toks' = t' :: next' /\ token_view t = token_view t' /\
    same_view next next'.
Proof.
  unfold same_view. destruct toks' as [|t' next']; simpl; [discriminate|].
  intros [= E1 E2 E3 E4]. exists t', next'. repeat split; trivial.
  unfold token_view. congruence.
Qed.

Lemma same_view_length (toks toks' : list Token) :
  same_view toks toks' -> List.length toks = List.length toks'.
Proof.
  unfold same_view. intros H.
  rewrite <- (length_map token_view toks), H. apply length_map.
Qed.

Lemma mismatch_view (op : ascii) (t t' : Token) :
  token_view t = token_view t' -> mismatch op t = mismatch op t'.
Proof. unfold token_view, mismatch. intros [= -> _ ->]. reflexivity. Qed.

Lemma consume_view (op : ascii) (token token' : cursor) :
  same_view token token' ->
  rel_result (fun x y => fst x = fst y /\ same_view (snd x) (snd y))
    (consume op token) (consume op token').
Proof.
  intros H. destruct token as [|t next].
  - destruct token'; [exact I | discriminate].
  - destruct (same_view_cons _ _ _ H) as (t' & next' & -> & Ht & Hn). simpl.
    rewrite <- (mismatch_view op t t' Ht).
    destruct (mismatch op t); simpl; now split.
Qed.

Lemma expect_view (op : ascii) (token token' : cursor) :
  same_view token token' ->
  rel_result same_view (expect op token) (expect op token').
Proof.
  intros H. destruct token as [|t next].
  - destruct token'; [exact I | discriminate].
  - destruct (same_view_cons _ _ _ H) as (t' & next' & -> & Ht & Hn). simpl.
    rewrite <- (mismatch_view op t t' Ht).
    now destruct (mismatch op t).
Qed.

Lemma expect_number_view (token token' : cursor) :
  same_view token token' ->
  rel_result (fun x y => fst x = fst y /\ same_view (snd x) (snd y))
    (expect_number token) (expect_number token').
Proof.
  intros H. destruct token as [|t next].
  - destruct token'; [exact I | discriminate].
  - destruct (same_view_cons _ _ _ H) as (t' & next' & -> & Ht & Hn). simpl.
    injection Ht as Hk Hv _. rewrite <- Hk, <- Hv.
    destruct (TokenKind_eqb (kind t) TK_NUM); simpl; now split.
Qed.

Lemma parser_view (fuel : nat) :
  (forall token token', same_view token token' ->
     rel_result same_parse (expr fuel token) (expr fuel token')) /\
  (forall node token token', same_view token token' ->
     rel_result same_parse (expr_loop fuel node token) (expr_loop fuel node token')) /\
  (forall token token', same_view token token' ->
     rel_result same_parse (mul fuel token) (mul fuel token')) /\
  (forall node token token', same_view token token' ->
     rel_result same_parse (mul_loop fuel node token) (mul_loop fuel node token')) /\
  (forall token token', same_view token token' ->
     rel_result same_parse (primary fuel token) (primary fuel token')).
Proof.
  induction fuel as [|f (IHe & IHel & IHm & IHml & IHp)].
  { repeat split; intros; exact I. }
  assert (Hrhs : forall k node (loop : Node -> cursor -> result (Node * cursor)),
            (forall node token token', same_view token token' ->
               rel_result same_parse (loop node token) (loop node token')) ->
            forall token token', same_view token token' ->
              rel_result same_parse
                ('(rhs, token) <- mul f token ;; loop (new_binary k node rhs) token)
                ('(rhs, token) <- mul f token' ;; loop (new_binary k node rhs) token)).
  { intros k node loop IHloop token token' H.
    apply (rel_bind same_parse); [now apply IHm|].
    intros [n r] [n' r'] [E Hr]. simpl in E, Hr. subst n'. now apply IHloop. }
  assert (Hloop : forall k1 k2 op1 op2 node
            (loop : Node -> cursor -> result (Node * cursor)),
            (forall node token token', same_view token token' ->
               rel_result same_parse (loop node token) (loop node token')) ->
            forall token token', same_view token token' ->
              rel_result same_parse
                ('(c1, token) <- consume op1 token ;;
                 if c1 : bool then
                   '(rhs, token) <- mul f token ;; loop (new_binary k1 node rhs) token
                 else
                   '(c2, token) <- consume op2 token ;;
                   if c2 : bool then
                     '(rhs, token) <- mul f token ;; loop (new_binary k2 node rhs) token
                   else Ok (node, token))
                ('(c1, token) <- consume op1 token' ;;
                 if c1 : bool then
                   '(rhs, token) <- mul f token ;; loop (new_binary k1 node rhs) token
                 else
                   '(c2, token) <- consume op2 token ;;
                   if c2 : bool then
                     '(rhs, token) <- mul f token ;; loop (new_binary k2 node rhs) token
                   else Ok (node, token))).
  { intros k1 k2 op1 op2 node loop IHloop token token' H.
    eapply rel_bind; [now apply consume_view|].
    intros [c1 r] [c1' r'] [E Hr]. simpl in E, Hr. subst c1'.
    destruct c1; [now apply Hrhs|].
    eapply rel_bind; [now apply consume_view|].
    intros [c2 r2] [c2' r2'] [E Hr2]. simpl in E, Hr2. subst c2'.
    destruct c2; [now apply Hrhs|]. now split. }
  split; [|split; [|split; [|split]]].
  - intros token token' H. rewrite !expr_eq.
    apply (rel_bind same_parse); [now apply IHm|].
    intros [n r] [n' r'] [E Hr]. simpl in E, Hr. subst n'. now apply IHel.
  - intros node token token' H. rewrite !expr_loop_eq. now apply Hloop.
  - intros token token' H. rewrite !mul_eq.
    apply (rel_bind same_parse); [now apply IHp|].
    intros [n r] [n' r'] [E Hr]. simpl in E, Hr. subst n'. now apply IHml.
  - intros node token token' H. rewrite !mul_loop_eq. now apply Hloop.
  - intros token token' H. rewrite !primary_eq.
    eapply rel_bind; [now apply consume_view|].
    intros [c1 r] [c1' r'] [E Hr]. simpl in E, Hr. subst c1'. destruct c1.
    + apply (rel_bind same_parse); [now apply IHe|].
      intros [n r2] [n' r2'] [E Hr2]. simpl in E, Hr2. subst n'.
      eapply rel_bind; [now apply expect_view|].
      intros x y Hxy. now split.
    + eapply rel_bind; [now apply expect_number_view|].
      intros [v r2] [v' r2'] [E Hr2]. simpl in E, Hr2. subst v'. now split.
Qed.

(** *** More fuel changes nothing *)

Lemma bind_mono {A B : Type} (r r' : result A) (k k' : A -> result B) :
  (r <> OutOfFuel -> r' = r) ->
  (forall a, k a <> OutOfFuel -> k' a = k a) ->
  bind r k <> OutOfFuel -> bind r' k' = bind r k.
Proof.
  intros Hr Hk H. destruct r; simpl in *;
    try (rewrite Hr by discriminate; simpl; auto; fail).
  now elim H.
Qed.

Lemma parser_fuel_mono (fuel : nat) :
  (forall token, expr fuel token <> OutOfFuel ->
     expr (S fuel) token = expr fuel token) /\
  (forall node token, expr_loop fuel node token <> OutOfFuel ->
     expr_loop (S fuel) node token = expr_loop fuel node token) /\
  (forall token, mul fuel token <> OutOfFuel ->
     mul (S fuel) token = mul fuel token) /\
  (forall node token, mul_loop fuel node token <> OutOfFuel ->
     mul_loop (S fuel) node token = mul_loop fuel node token) /\
  (forall token, primary fuel token <> OutOfFuel ->
     primary (S fuel) token = primary fuel token).
Proof.
  induction fuel as [|f (IHe & IHel & IHm & IHml & IHp)].
  { repeat split; intros; now elim H. }
  assert (Hrhs : forall k node (loop loop' : Node -> cursor -> result (Node * cursor)),
            (forall node token, loop node token <> OutOfFuel ->
               loop' node token = loop node token) ->
            forall token,
              ('(rhs, token) <- mul f token ;; loop (new_binary k node rhs) token)
                <> OutOfFuel ->
              ('(rhs, token) <- mul (S f) token ;; loop' (new_binary k node rhs) token)
              = ('(rhs, token) <- mul f token ;; loop (new_binary k node rhs) token)).
  { intros k node loop loop' Hl token. apply bind_mono; [apply IHm|].
    intros [n c]. apply Hl. }
  assert (Hloop : forall k1 k2 op1 op2 node
            (loop loop' : Node -> cursor -> result (Node * cursor)),
            (forall node token, loop node token <> OutOfFuel ->
               loop' node token = loop node token) ->
            forall token,
              ('(c1, token) <- consume op1 token ;;
               if c1 : bool then
                 '(rhs, token) <- mul f token ;; loop (new_binary k1 node rhs) token
               else
                 '(c2, token) <- consume op2 token ;;
                 if c2 : bool then
                   '(rhs, token) <- mul f token ;; loop (new_binary k2 node rhs) token
                 else Ok (node, token)) <> OutOfFuel ->
              ('(c1, token) <- consume op1 token ;;
               if c1 : bool then
                 '(rhs, token) <- mul (S f) token ;; loop' (new_binary k1 node rhs) token
               else
                 '(c2, token) <- consume op2 token ;;
                 if c2 : bool then
                   '(rhs, token) <- mul (S f) token ;; loop' (new_binary k2 node rhs) token
                 else Ok (node, token))
              = ('(c1, token) <- consume op1 token ;;
                 if c1 : bool then
                   '(rhs, token) <- mul f token ;; loop (new_binary k1 node rhs) token
                 else
                   '(c2, token) <- consume op2 token ;;
                   if c2 : bool then
                     '(rhs, token) <- mul f token ;; loop (new_binary k2 node rhs) token
                   else Ok (node, token))).
  { intros k1 k2 op1 op2 node loop loop' Hl token.
    apply bind_mono; [reflexivity|]. intros [c1 c]. destruct c1; [now apply Hrhs|].
    apply bind_mono; [reflexivity|]. intros [c2 c']. destruct c2; [now apply Hrhs|].
    reflexivity. }
  split; [|split; [|split; [|split]]].
  - intros token. rewrite (expr_eq (S f)), (expr_eq f).
    apply bind_mono; [apply IHm|]. intros [n c]. apply IHel.
  - intros node token. rewrite (expr_loop_eq (S f)), (expr_loop_eq f).
    now apply Hloop.
  - intros token. rewrite (mul_eq (S f)), (mul_eq f).
    apply bind_mono; [apply IHp|]. intros [n c]. apply IHml.
  - intros node token. rewrite (mul_loop_eq (S f)), (mul_loop_eq f).
    now apply Hloop.
  - intros token. rewrite (primary_eq (S f)), (primary_eq f).
    apply bind_mono; [reflexivity|]. intros [c1 c]. destruct c1; [|reflexivity].
    apply bind_mono; [apply IHe|]. intros [n c']. reflexivity.
Qed.

Lemma expr_fuel_le (fuel fuel' : nat) (token : cursor) :
  fuel <= fuel' -> expr fuel token <> OutOfFuel ->
  expr fuel' token = expr fuel token.
Proof.
  induction 1 as [|fuel' Hle IH]; intros H; [reflexivity|].
  rewrite <- (IH H). apply parser_fuel_mono. now rewrite (IH H).
Qed.

(* any fuel that is enough gives what [parse_fuel] gives *)
Lemma expr_any_fuel (fuel : nat) (token : cursor) (x : Node * cursor) :
  terminated token -> expr fuel token = Ok x ->
  expr (parse_fuel token) token = Ok x.
Proof.
  intros Ht E.
  assert (H1 : expr (parse_fuel token) token <> OutOfFuel).
  { destruct (expr_cases token Ht) as [(n & r & u & -> & _)|(l & m & -> & _)];
      discriminate. }
  assert (H2 : expr fuel token <> OutOfFuel) by (rewrite E; discriminate).
  rewrite <- (expr_fuel_le _ _ token (Nat.le_max_r fuel (parse_fuel token)) H1).
  rewrite (expr_fuel_le _ _ token (Nat.le_max_l fuel (parse_fuel token)) H2).
  exact E.
Qed.

(** *** The parser does not look past the token it stops at *)

Lemma parsed_shorter (st : bool) (b fuel : nat) (token : cursor)
  (x : result (Node * cursor)) :
  parsed st b fuel token x -> shorter token x.
Proof.
  destruct x as [[n rest]| | |]; simpl; trivial.
  intros (Ht & used & -> & _). split; [exact Ht|]. rewrite length_app. lia.
Qed.

Lemma shorter_bind (c : cursor) (x : result (Node * cursor))
  (k : Node * cursor -> result (Node * cursor)) :
  shorter c x ->
  (forall n c1, terminated c1 -> shorter c1 (k (n, c1))) ->
  shorter c (bind x k).
Proof.
  destruct x as [[n c1]| | |]; simpl; trivial.
  intros [Ht Hl] Hk. specialize (Hk n c1 Ht).
  destruct (k (n, c1)) as [[n' rest]| | |]; simpl in *; trivial.
  destruct Hk. split; [assumption | lia].
Qed.

Section Local.
Variables r r' : cursor.
Hypothesis Hr : terminated r.

Lemma upto_terminated (c c' : cursor) : upto r r' c c' -> terminated c.
Proof.
  intros (used & t & -> & _). destruct Hr as (body & e & -> & He).
  exists (used ++ t :: body), e. split; [|exact He].
  now rewrite <- app_assoc.
Qed.

Lemma upto_length (c c' : cursor) :
  upto r r' c c' -> List.length r < List.length c.
Proof. intros (used & t & -> & _). rewrite length_app. simpl. lia. Qed.

(* a call that has gone past [t] *)
Lemma local_past (c : cursor) (x x' : result (Node * cursor)) :
  shorter c x -> List.length c <= List.length r -> local r r' x x'.
Proof.
  destruct x as [[n rest]| | |]; simpl; trivial. intros [_ H1] H2 H3. lia.
Qed.

Lemma local_bind (c : cursor) (x x' : result (Node * cursor))
  (k k' : Node * cursor -> result (Node * cursor)) :
  local r r' x x' ->
  shorter c x ->
  (forall n c1, terminated c1 -> shorter c1 (k (n, c1))) ->
  (forall n c1 c1', upto r r' c1 c1' -> local r r' (k (n, c1)) (k' (n, c1'))) ->
  local r r' (bind x k) (bind x' k').
Proof.
  intros Hx Hs Hk Hl. destruct x as [[n c1]| | |]; simpl in *; trivial.
  destruct Hs as [Ht _]. specialize (Hk n c1 Ht).
  destruct (Nat.lt_ge_cases (List.length r) (List.length c1)) as [Hlt|Hge].
  - destruct (Hx Hlt) as (c1' & -> & Hu). simpl. now apply Hl.
  - now apply (local_past c1).
Qed.

(* the cursor is at the same token in both streams *)
Lemma upto_head (c c' : cursor) :
  upto r r' c c' ->
  exists t next next', c = t :: next /\ c' = t :: next' /\
    (upto r r' next next' \/ (next = r /\ next' = r')).
Proof.
  intros (used & t & -> & ->). destruct used as [|u used]; simpl.
  - exists t, r, r'. repeat split. now right.
  - exists u, (used ++ t :: r), (used ++ t :: r'). repeat split.
    left. now exists used, t.
Qed.

Lemma local_ret (node : Node) (c c' : cursor) :
  upto r r' c c' -> local r r' (Ok (node, c)) (Ok (node, c')).
Proof. intros H _. now exists c'. Qed.

Lemma parser_local (fuel : nat) :
  (forall c c', upto r r' c c' -> local r r' (expr fuel c) (expr fuel c')) /\
  (forall node c c', upto r r' c c' ->
     local r r' (expr_loop fuel node c) (expr_loop fuel node c')) /\
  (forall c c', upto r r' c c' -> local r r' (mul fuel c) (mul fuel c')) /\
  (forall node c c', upto r r' c c' ->
     local r r' (mul_loop fuel node c) (mul_loop fuel node c')) /\
  (forall c c', upto r r' c c' -> local r r' (primary fuel c) (primary fuel c')).
Proof.
  induction fuel as [|f (IHe & IHel & IHm & IHml & IHp)].
  { repeat split; intros; exact I. }
  destruct (parser_parsed f) as (Pe & Pel & Pm & Pml & Pp).
  assert (Hloop : forall k1 k2 op1 op2 node (b : nat)
            (loop : Node -> cursor -> result (Node * cursor)),
            (forall node c, terminated c -> parsed false b f c (loop node c)) ->
            (forall node c c', upto r r' c c' ->
               local r r' (loop node c) (loop node c')) ->
            forall c c', upto r r' c c' ->
              local r r'
                ('(c1, token) <- consume op1 c ;;
                 if c1 : bool then
                   '(rhs, token) <- mul f token ;; loop (new_binary k1 node rhs) token
                 else
                   '(c2, token) <- consume op2 token ;;
                   if c2 : bool then
                     '(rhs, token) <- mul f token ;; loop (new_binary k2 node rhs) token
                   else Ok (node, token))
                ('(c1, token) <- consume op1 c' ;;
                 if c1 : bool then
                   '(rhs, token) <- mul f token ;; loop (new_binary k1 node rhs) token
                 else
                   '(c2, token) <- consume op2 token ;;
                   if c2 : bool then
                     '(rhs, token) <- mul f token ;; loop (new_binary k2 node rhs) token
                   else Ok (node, token))).
  { intros k1 k2 op1 op2 node b loop Pl IHl c c' Hu.
    assert (Hs : forall k next, terminated next ->
              shorter next
                ('(rhs, token) <- mul f next ;; loop (new_binary k node rhs) token)).
    { intros k next Hn. apply shorter_bind.
      - apply (parsed_shorter true 2 f). now apply Pm.
      - intros n c1 Hc1. apply (parsed_shorter false b f). now apply Pl. }
    assert (Hrhs : forall k next next',
              upto r r' next next' \/ (next = r /\ next' = r') ->
              local r r'
                ('(rhs, token) <- mul f next ;; loop (new_binary k node rhs) token)
                ('(rhs, token) <- mul f next' ;; loop (new_binary k node rhs) token)).
    { intros k next next' [Hn|[-> ->]].
      - apply (local_bind next).
        + now apply IHm.
        + apply (parsed_shorter true 2 f). apply Pm. now apply (upto_terminated _ next').
        + intros n c1 Hc1. apply (parsed_shorter false b f). now apply Pl.
        + intros n c1 c1' Hc1. now apply IHl.
      - apply (local_past r); [now apply Hs | lia]. }
    destruct (upto_head c c' Hu) as (t & next & next' & -> & -> & Hn).
    simpl consume. destruct (mismatch op1 t); cbn [bind]; [|now apply Hrhs].
    simpl consume. destruct (mismatch op2 t); cbn [bind]; [|now apply Hrhs].
    now apply local_ret. }
  split; [|split; [|split; [|split]]].
  - intros c c' Hu. rewrite !expr_eq. apply (local_bind c).
    + now apply IHm.
    + apply (parsed_shorter true 2 f). apply Pm. now apply (upto_terminated _ c').
    + intros n c1 Hc1. apply (parsed_shorter false 2 f). now apply Pel.
    + intros n c1 c1' Hc1. now apply IHel.
  - intros node c c' Hu. rewrite !expr_loop_eq. now apply (Hloop _ _ _ _ _ 2).
  - intros c c' Hu. rewrite !mul_eq. apply (local_bind c).
    + now apply IHp.
    + apply (parsed_shorter true 1 f). apply Pp. now apply (upto_terminated _ c').
    + intros n c1 Hc1. apply (parsed_shorter false 1 f). now apply Pml.
    + intros n c1 c1' Hc1. now apply IHml.
  - intros node c c' Hu. rewrite !mul_loop_eq. now apply (Hloop _ _ _ _ _ 1).
  - intros c c' Hu. rewrite !primary_eq.
    assert (Hret : forall n next next',
              upto r r' next next' \/ (next = r /\ next' = r') ->
              local r r' (Ok (n, next)) (Ok (n, next'))).
    { intros n next next' [Hn|[-> ->]]; [now apply local_ret|].
      intros H. simpl in H. lia. }
    assert (Hclose : forall n (c1 : cursor), terminated c1 ->
              shorter c1 (token <- expect ")" c1 ;; Ok (n, token))).
    { intros n c1 Hc1.
      destruct (expect_cases ")" c1 Hc1)
        as (t1 & n1 & -> & [[_ ->]|(_ & -> & Hn1)]); simpl; trivial.
      split; [exact Hn1 | lia]. }
    destruct (upto_head c c' Hu) as (t & next & next' & -> & -> & Hn).
    simpl consume. destruct (mismatch "(" t); cbn [bind].
    + simpl expect_number.
      destruct (negb (TokenKind_eqb (kind t) TK_NUM)); cbn [bind]; [exact I|].
      now apply Hret.
    + destruct Hn as [Hn|[-> ->]].
      * apply (local_bind next).
        -- now apply IHe.
        -- apply (parsed_shorter true 3 f). apply Pe.
           now apply (upto_terminated _ next').
        -- intros n c1 Hc1. now apply Hclose.
        -- intros n c1 c1' Hc1.
           destruct (upto_head c1 c1' Hc1) as (t1 & n1 & n1' & -> & -> & Hn1).
           simpl. destruct (mismatch ")" t1); cbn [bind]; [exact I|].
           now apply Hret.
      * apply (local_past r); [|lia]. apply shorter_bind.
        -- apply (parsed_shorter true 3 f). now apply Pe.
        -- intros n c1 Hc1. now apply Hclose.
Qed.

(* [expr] stops at [t]: the tokens after [t] are not looked at *)
Lemma expr_ignores_rest (fuel : nat) (used : list Token) (t : Token) (node : Node) :
  expr fuel (used ++ t :: r) = Ok (node, t :: r) ->
  expr fuel (used ++ t :: r') = Ok (node, t :: r').
Proof.
  intros E.
  assert (Hu : upto r r' (used ++ t :: r) (used ++ t :: r')) by now exists used, t.
  pose proof (proj1 (parser_local fuel) _ _ Hu) as H. rewrite E in H. simpl in H.
  destruct H as (rest' & -> & used2 & t2 & E1 & ->); [lia|].
  assert (El : List.length used2 = 0).
  { apply (f_equal (@List.length Token)) in E1.
    rewrite length_app in E1. simpl in E1. lia. }
  destruct used2; [|discriminate]. simpl in E1. now injection E1 as <-.
Qed.
End Local.

(** ** The whole compilation *)

(* the two ways a compilation ends *)
Lemma main_cases (argv0 user_input : string) :
  (exists toks node rest,
      tokenize user_input = Ok toks /\
      expr (parse_fuel toks) toks = Ok (node, rest) /\
      main [argv0; user_input] =
        Some (mkProcess (prologue ++ map emit (program node)) "" 0)) \/
  (exists loc msg,
      main [argv0; user_input] = Some (error_at user_input loc msg) /\
      ((lex_fails user_input loc /\ msg = "invalid token") \/
       (exists toks, tokenize user_input = Ok toks /\ lexes user_input toks /\
          syntax_error toks loc msg))).
Proof.
  unfold main.
  destruct (tokenize_cases user_input) as [(toks & E & Hl)|(loc & E & Hl)];
    rewrite E; cbn [bind].
  - destruct (expr_cases toks (lexes_terminated _ _ Hl))
      as [(node & rest & used & E' & _)|(loc & msg & E' & Hs)]; rewrite E'.
    + left. now exists toks, node, rest.
    + right. exists loc, msg. split; [reflexivity|]. right. now exists toks.
  - right. exists loc, "invalid token". split; [reflexivity|]. now left.
Qed.

(* [main] never dereferences a NULL cursor and the fuel of the model is
   never exhausted *)
Lemma main_total (argv : list string) : main argv <> None.
Proof.
  destruct argv as [|a0 [|a1 [|a2 argv]]]; try discriminate.
  destruct (main_cases a0 a1) as [(? & ? & ? & _ & _ & ->)|(? & ? & -> & _)];
    discriminate.
Qed.

Lemma c_str_spaces (s : string) : string_forallb isspace s = true -> c_str s = s.
Proof.
  induction s as [|c q IH]; simpl; [reflexivity|].
  intros H. apply andb_prop in H as [Hc Hq].
  destruct (Ascii.eqb_spec c NUL) as [->|_]; [discriminate|].
  now rewrite IH.
Qed.

Lemma tokenize_loop_spaces (s : string) :
  string_forallb isspace s = true ->
  forall fuel, String.length s < fuel ->
    tokenize_loop fuel s = Ok [new_token TK_EOF ""].
Proof.
  induction s as [|c q IH]; simpl; intros H fuel Hf.
  - destruct fuel; [lia|reflexivity].
  - apply andb_prop in H as [Hc Hq].
    destruct fuel; [lia|]. rewrite tokenize_loop_eq. cbv zeta. simpl deref.
    destruct (Ascii.eqb_spec c NUL) as [->|_]; [discriminate|].
    rewrite Hc. apply IH; [exact Hq | lia].
Qed.

(** ** Worked examples *)

Example ex_tokens : tokenize " 12+3" =
  Ok [mkToken TK_NUM 12 "12+3"; mkToken TK_RESERVED 0 "+3"; mkToken TK_NUM 3 "3";
      mkToken TK_EOF 0 ""].
Proof. reflexivity. Qed.

Example ex_run_1 : compile_and_run "1+2*3" m0 = Some 7%Z.
Proof. vm_compute. reflexivity. Qed.

Example ex_run_2 : compile_and_run "(1+2)*3" m0 = Some 9%Z.
Proof. vm_compute. reflexivity. Qed.

Example ex_lexical_error : main ["9cc"; "1+a"] =
  Some (mkProcess [] ("1+a" ++ newline ++ "  ^ invalid token" ++ newline) 1).
Proof. vm_compute. reflexivity. Qed.

Example ex_missing_paren : main ["9cc"; "(1+2"] =
  Some (mkProcess [] ("(1+2" ++ newline ++ "    ^ expected: ')'" ++ newline) 1).
Proof. vm_compute. reflexivity. Qed.

Example ex_trailing_operator : main ["9cc"; "1+"] =
  Some (mkProcess [] ("1+" ++ newline ++ "  ^ expected a number" ++ newline) 1).
Proof. vm_compute. reflexivity. Qed.

Example ex_usage : main ["9cc"] =
  Some (mkProcess [] ("9cc : invalid of number of arguments" ++ newline) 1).
Proof. vm_compute. reflexivity. Qed.

Example ex_main_42 : main ["9cc"; "42"] =
  Some (mkProcess [".intel_syntax noprefix"; ".global main"; "main:";
                   "  push 42"; "  pop rax"; "  ret"] "" 0).
Proof. vm_compute. reflexivity. Qed.

(** ** The code generator *)

Lemma net_effect_app (a b : list instr) :
  net_effect (a ++ b) = (net_effect a + net_effect b)%Z.
Proof. unfold net_effect. induction a; simpl; lia. Qed.

Lemma gen_net_effect (node : Node) : net_effect (gen node) = 1%Z.
Proof.
  induction node as [v | k l IHl r IHr]; [reflexivity|].
  simpl gen. rewrite !net_effect_app, IHl, IHr. now destruct k.
Qed.

Lemma exec_app (a b : list instr) :
  forall m, exec (a ++ b) m =
    match exec a m with Some m' => exec b m' | None => None end.
Proof.
  induction a as [|i a IH]; intros m; simpl; [reflexivity|].
  destruct (step i m); [apply IH | reflexivity].
Qed.

Lemma run_cons (i : instr) (prog : list instr) (m : machine) :
  i <> ret ->
  run (i :: prog) m =
    match step i m with Some m' => run prog m' | None => None end.
Proof. destruct i; intros H; try reflexivity. now elim H. Qed.

Lemma run_app (a b : list instr) :
  Forall (fun i => i <> ret) a ->
  forall m, run (a ++ b) m =
    match exec a m with Some m' => run b m' | None => None end.
Proof.
  induction 1 as [|i a Hi _ IH]; intros m; [reflexivity|].
  rewrite <- app_comm_cons, run_cons by exact Hi. simpl exec.
  destruct (step i m); [apply IH | reflexivity].
Qed.

Lemma gen_no_ret (node : Node) : Forall (fun i => i <> ret) (gen node).
Proof.
  induction node as [v | k l IHl r IHr]; simpl.
  - constructor; [discriminate | constructor].
  - repeat (apply Forall_app; split); trivial;
      destruct k; repeat constructor; discriminate.
Qed.

Lemma in_long_iff (z : Z) : in_long z = true <-> (- 2 ^ 63 <= z < 2 ^ 63)%Z.
Proof. unfold in_long. rewrite andb_true_iff, Z.leb_le, Z.ltb_lt. tauto. Qed.

Lemma to_long_range (z : Z) : in_long (to_long z) = true.
Proof.
  apply in_long_iff. unfold to_long, wrap.
  pose proof (Z.mod_pos_bound (z + 2 ^ (64 - 1)) (2 ^ 64) ltac:(lia)).
  change (2 ^ (64 - 1))%Z with (2 ^ 63)%Z in *.
  change (2 ^ 64)%Z with (2 * 2 ^ 63)%Z in *. lia.
Qed.

Lemma eval_range (node : Node) (v : Z) : eval node = Some v -> in_long v = true.
Proof.
  destruct node as [n | k l r]; simpl.
  - intros [= <-]. apply to_long_range.
  - destruct (eval l) as [a|]; [|discriminate].
    destruct (eval r) as [b|]; [|discriminate].
    destruct k; simpl; try (intros [= <-]; apply to_long_range).
    destruct (b =? 0)%Z; [discriminate|].
    destruct (in_long (Z.quot a b)) eqn:E; [|discriminate]. now intros [= <-].
Qed.

(* [cqo] makes RDX:RAX the 128-bit value of RAX *)
Lemma cqo_dividend (a : Z) :
  in_long a = true ->
  ((if a <? 0 then -1 else 0) * 2 ^ 64 + a mod 2 ^ 64 = a)%Z.
Proof.
  intros H. apply in_long_iff in H.
  change (2 ^ 64)%Z with (2 * 2 ^ 63)%Z.
  destruct (Z.ltb_spec a 0).
  - rewrite <- (Z.mod_unique_pos a (2 * 2 ^ 63) (-1) (a + 2 * 2 ^ 63)); lia.
  - rewrite Z.mod_small; lia.
Qed.

(* the instructions after the two operands are on the stack *)
Lemma exec_binary (k : NodeKind) (a b : Z) (m : machine) (st : list Z) :
  in_long a = true ->
  stack m = b :: a :: st ->
  match eval_op k a b, exec ([pop rdi; pop rax] ++ gen_op k ++ [push_reg rax]) m with
  | Some v, Some m' => stack m' = v :: st
  | None, None => True
  | _, _ => False
  end.
Proof.
  intros Ha Hst. destruct m as [ra rd rx s]. simpl in Hst. subst s.
  destruct k; cbn [exec step app gen_op set get RAX RDI RDX stack eval_op];
    try reflexivity.
  rewrite (cqo_dividend a Ha).
  destruct (b =? 0)%Z; [exact I|].
  destruct (in_long (Z.quot a b)); [reflexivity | exact I].
Qed.

(* running the code of a tree pushes its value, or faults where the
   division does *)
Lemma exec_gen (node : Node) :
  forall m,
    match eval node, exec (gen node) m with
    | Some v, Some m' => stack m' = v :: stack m
    | None, None => True
    | _, _ => False
    end.
Proof.
  induction node as [n | k l IHl r IHr]; intros m.
  - reflexivity.
  - simpl gen. simpl eval. rewrite exec_app. specialize (IHl m).
    pose proof (eval_range l) as Hrl.
    destruct (eval l) as [a|], (exec (gen l) m) as [m1|]; try contradiction;
      [|exact I].
    rewrite exec_app. specialize (IHr m1).
    destruct (eval r) as [b|], (exec (gen r) m1) as [m2|]; try contradiction;
      [|exact I].
    apply exec_binary; [now apply Hrl | congruence].
Qed.

(* the emitted program returns the value of the tree *)
Lemma run_program (node : Node) (m : machine) : run (program node) m = eval node.
Proof.
  unfold program. rewrite run_app by apply gen_no_ret.
  pose proof (exec_gen node m) as H.
  destruct (eval node) as [v|], (exec (gen node) m) as [m'|]; try contradiction;
    [|reflexivity].
  destruct m' as [ra rd rx s]. simpl in H. subst s. reflexivity.
Qed.

Lemma compile_and_run_eval (user_input : string) (m : machine) :
  compile_and_run user_input m =
    match parse user_input with
    | Ok node => eval node
    | _ => None
    end.
Proof.
  unfold compile_and_run, parse.
  destruct (tokenize user_input) as [toks| | |]; cbn [bind]; try reflexivity.
  destruct (expr (parse_fuel toks) toks) as [[node rest]| | |]; cbn [bind];
    try reflexivity.
  apply run_program.
Qed.

(** ** White space and the whole compilation *)

Lemma views_rel (r r' : result (list Token)) :
  rel_result same_view r r' -> views r = views r'.
Proof.
  destruct r, r'; simpl; try contradiction; try reflexivity.
  unfold same_view. now intros ->.
Qed.

Lemma main_stdout_rel (argv0 s1 s2 : string) :
  rel_result same_view (tokenize s1) (tokenize s2) ->
  option_map stdout (main [argv0; s1]) = option_map stdout (main [argv0; s2]).
Proof.
  intros H. unfold main.
  assert (Hp : rel_result same_parse
                 (token <- tokenize s1 ;; expr (parse_fuel token) token)
                 (token <- tokenize s2 ;; expr (parse_fuel token) token)).
  { eapply rel_bind; [exact H|]. intros toks toks' Hv.
    unfold parse_fuel. rewrite <- (same_view_length _ _ Hv).
    now apply parser_view. }
  destruct (token <- tokenize s1 ;; expr (parse_fuel token) token)
    as [[n r]| | |],
    (token <- tokenize s2 ;; expr (parse_fuel token) token)
    as [[n' r']| | |]; simpl in Hp; try contradiction; try reflexivity.
  destruct Hp as [E _]. simpl in E. now subst n'.
Qed.

Lemma ws_equiv_tokens_and_output (argv0 s1 s2 : string) :
  ws_equiv s1 s2 ->
  views (tokenize s1) = views (tokenize s2) /\
  option_map stdout (main [argv0; s1]) = option_map stdout (main [argv0; s2]).
Proof.
  induction 1 as [s1 s2 H | s | s1 s2 _ [IH1 IH2] | s1 s2 s3 _ [IH1 IH2] _ [IH3 IH4]].
  - apply tokenize_ws_insert in H. split.
    + now apply views_rel.
    + now apply main_stdout_rel.
  - now split.
  - now split.
  - split; congruence.
Qed.

(** ** The statements of the specification *)

(** C7: [consume] never fails; on a punctuator whose character is [op] it
    returns true with the cursor one token further, on any other token it
    returns false with the cursor where it was. *)
Theorem C7_consume (op : ascii) (t : Token) (next : cursor) :
  (kind t = TK_RESERVED /\ deref (str t) = op ->
   consume op (t :: next) = Ok (true, next)) /\
  (~ (kind t = TK_RESERVED /\ deref (str t) = op) ->
   consume op (t :: next) = Ok (false, t :: next)).
Proof.
  simpl. destruct (mismatch op t) eqn:Hm.
  - split; [|reflexivity]. intros [Hk Hc]. unfold mismatch in Hm.
    rewrite Hk, Hc, Ascii.eqb_refl in Hm. discriminate.
  - split; [reflexivity|]. intros H. elim H. now apply mismatch_false.
Qed.

Lemma C7_consume_witness :
  consume "+" [mkToken TK_RESERVED 0 "+2"; mkToken TK_NUM 2 "2"; mkToken TK_EOF 0 ""]
  = Ok (true, [mkToken TK_NUM 2 "2"; mkToken TK_EOF 0 ""]) /\
  consume "+" [mkToken TK_NUM 2 "2"; mkToken TK_EOF 0 ""]
  = Ok (false, [mkToken TK_NUM 2 "2"; mkToken TK_EOF 0 ""]).
Proof.
  split.
  - apply (proj1 (C7_consume "+" (mkToken TK_RESERVED 0 "+2") _)).
    split; reflexivity.
  - apply (proj2 (C7_consume "+" (mkToken TK_NUM 2 "2") _)).
    intros [H _]. discriminate H.
Defined.

(** C10: a source made of white space only (or empty) is tokenized to the
    end-of-file marker alone, and the compilation ends with status 1, no
    assembly, and the diagnostic "expected a number" with the caret at the
    end of the input. *)
Theorem C10_blank_source (argv0 user_input : string) :
  string_forallb isspace user_input = true ->
  tokenize user_input = Ok [new_token TK_EOF ""] /\
  main [argv0; user_input] =
    Some (mkProcess []
            (user_input ++ newline ++ spaces (String.length user_input)
             ++ "^ expected a number" ++ newline) 1).
Proof.
  intros H.
  assert (E : tokenize user_input = Ok [new_token TK_EOF ""]).
  { apply tokenize_loop_spaces; [exact H | lia]. }
  split; [exact E|]. unfold main. rewrite E. cbn.
  unfold error_at, offset. rewrite (c_str_spaces _ H). simpl String.length.
  now rewrite Nat.sub_0_r.
Qed.

Lemma C10_blank_source_witness :
  tokenize "  " = Ok [new_token TK_EOF ""] /\
  main ["9cc"; "  "] =
    Some (mkProcess [] ("  " ++ newline ++ "  " ++ "^ expected a number" ++ newline) 1).
Proof. apply (C10_blank_source "9cc" "  "). reflexivity. Defined.

(** C9: the code of a literal is one push; the code of a binary node is the
    code of its left operand, the code of its right operand, two pops, the
    instruction of the operator ([cqo] before [idiv] for a division) and one
    push.  The code of any tree adds one slot to the operand stack, counted
    on the instructions and when it is run: from any machine state it ends
    with the value of the tree on top of the stack it started with (or
    faults in a division), and the epilogue pops that slot into RAX. *)
Theorem C9_net_stack_effect (node : Node) (m : machine) :
  (forall val, gen (ND_NUM val) = [push_imm val]) /\
  (forall kind lhs rhs,
      gen (ND_BIN kind lhs rhs) =
        gen lhs ++ gen rhs ++ [pop rdi; pop rax] ++ gen_op kind ++ [push_reg rax]) /\
  gen_op ND_ADD = [add_rax_rdi] /\ gen_op ND_SUB = [sub_rax_rdi] /\
  gen_op ND_MUL = [imul_rax_rdi] /\ gen_op ND_DIV = [cqo; idiv_rdi] /\
  net_effect (gen node) = 1%Z /\
  match eval node, exec (gen node) m with
  | Some v, Some m' => stack m' = v :: stack m
  | None, None => True
  | _, _ => False
  end /\
  program node = gen node ++ [pop rax; ret] /\
  net_effect (program node) = 0%Z /\
  run (program node) m = eval node.
Proof.
  repeat split; try reflexivity.
  - apply gen_net_effect.
  - apply exec_gen.
  - unfold program. rewrite net_effect_app, gen_net_effect. reflexivity.
  - apply run_program.
Qed.

(** C1, at the input "8/4/2": read left to right the chain is (8/4)/2 = 1,
    but [mul] parses its right operand with [mul] itself, not with
    [primary] as its grammar comment says, so the tree is 8/(4/2) and the
    emitted program returns 4.  The two examples of the claim, which have no
    chain of * and /, are computed as the claim says. *)
Theorem C1_mul_chain_right_to_left (m : machine) :
  chain_text (8, [(Divide, 4); (Divide, 2)])%Z = "8/4/2" /\
  standard_value (8, [(Divide, 4); (Divide, 2)])%Z = 1%Z /\
  parse "8/4/2" = Ok (ND_BIN ND_DIV (ND_NUM 8) (ND_BIN ND_DIV (ND_NUM 4) (ND_NUM 2))) /\
  compile_and_run "8/4/2" m = Some 4%Z /\
  compile_and_run "1+2*3" m = Some 7%Z /\
  compile_and_run "(1+2)*3" m = Some 9%Z.
Proof.
  rewrite !compile_and_run_eval. repeat split; vm_compute; reflexivity.
Qed.

(** C2, at the input "20/4/5": the chain of divisions is folded to the
    right, 20/(4/5), and the emitted program divides by zero; folded to the
    left it would give 1.  The chain "10-2-3" of [expr] is folded to the
    left and gives 5. *)
Theorem C2_div_chain_folds_right (m : machine) :
  parse "20/4/5" =
    Ok (ND_BIN ND_DIV (ND_NUM 20) (ND_BIN ND_DIV (ND_NUM 4) (ND_NUM 5))) /\
  compile_and_run "20/4/5" m = None /\
  eval (ND_BIN ND_DIV (ND_BIN ND_DIV (ND_NUM 20) (ND_NUM 4)) (ND_NUM 5)) = Some 1%Z /\
  parse "10-2-3" =
    Ok (ND_BIN ND_SUB (ND_BIN ND_SUB (ND_NUM 10) (ND_NUM 2)) (ND_NUM 3)) /\
  compile_and_run "10-2-3" m = Some 5%Z.
Proof.
  rewrite !compile_and_run_eval. repeat split; vm_compute; reflexivity.
Qed.

(** C3, at the input "2147483648": the token holds 2147483648, but
    [new_num] takes an [int], and the node holds -2147483648, which is what
    the emitted program pushes. *)
Theorem C3_literal_truncated_to_int :
  tokenize "2147483648" =
    Ok [mkToken TK_NUM 2147483648 "2147483648"; mkToken TK_EOF 0 ""] /\
  parse "2147483648" = Ok (ND_NUM (-2147483648)) /\
  main ["9cc"; "2147483648"] =
    Some (mkProcess [".intel_syntax noprefix"; ".global main"; "main:";
                     "  push -2147483648"; "  pop rax"; "  ret"] "" 0).
Proof. repeat split; vm_compute; reflexivity. Qed.

(** C4, counterexample: in "1+2)" the tokens ")" and end-of-file remain
    after the parsed expression, and the compilation succeeds with the
    assembly of "1+2". *)
Lemma C4_trailing_paren_accepted :
  tokenize "1+2)" =
    Ok [mkToken TK_NUM 1 "1+2)"; mkToken TK_RESERVED 0 "+2)"; mkToken TK_NUM 2 "2)";
        mkToken TK_RESERVED 0 ")"; mkToken TK_EOF 0 ""] /\
  expr 18 [mkToken TK_NUM 1 "1+2)"; mkToken TK_RESERVED 0 "+2)"; mkToken TK_NUM 2 "2)";
           mkToken TK_RESERVED 0 ")"; mkToken TK_EOF 0 ""] =
    Ok (ND_BIN ND_ADD (ND_NUM 1) (ND_NUM 2),
        [mkToken TK_RESERVED 0 ")"; mkToken TK_EOF 0 ""]) /\
  main ["9cc"; "1+2)"] =
    Some (mkProcess [".intel_syntax noprefix"; ".global main"; "main:";
                     "  push 1"; "  push 2"; "  pop rdi"; "  pop rax";
                     "  add rax, rdi"; "  push rax"; "  pop rax"; "  ret"] "" 0) /\
  main ["9cc"; "1+2)"] = main ["9cc"; "1+2"].
Proof. repeat split; vm_compute; reflexivity. Qed.

(** C5: [tokenize] returns for every input: a token list, or the error
    "invalid token" at the first character that starts no token.  A token
    list ends with its only end-of-file marker; it holds one punctuator
    token for each punctuation character, one number token for each maximal
    run of digits and nothing else, so white space gives no token; each
    token starts at a character of its kind, and the texts of the tokens in
    order are the source without its white space. *)
Theorem C5_tokenize_stream (user_input : string) :
  match tokenize user_input with
  | Ok toks =>
      (exists body e, toks = body ++ [e] /\ kind e = TK_EOF /\
         Forall (fun t => kind t <> TK_EOF) body) /\
      count_kind TK_EOF toks = 1 /\
      count_kind TK_RESERVED toks = count_chars ispunct (c_str user_input) /\
      count_kind TK_NUM toks = digit_runs (c_str user_input) /\
      List.length toks =
        count_chars ispunct (c_str user_input) + digit_runs (c_str user_input) + 1 /\
      forallb starts_right toks = true /\
      source_text toks =
        string_filter (fun c => negb (isspace c)) (c_str user_input)
  | ErrorAt loc msg => msg = "invalid token" /\ lex_fails user_input loc
  | NullDeref | OutOfFuel => False
  end.
Proof.
  destruct (tokenize_cases user_input) as [(toks & -> & Hl)|(loc & -> & Hl)];
    [|now split].
  destruct (lexes_source _ _ Hl) as (H1 & H2 & H3 & H4).
  destruct (lexes_shape _ _ Hl) as (_ & body & e & E & He & _ & _ & Hb).
  assert (Heof : count_kind TK_EOF toks = 1).
  { rewrite E, count_kind_app, (count_kind_none _ _ Hb).
    unfold count_kind. simpl. now rewrite He. }
  split; [now exists body, e|]. split; [exact Heof|].
  split; [exact H1|]. split; [exact H2|]. split; [|now split].
  rewrite (count_kind_total toks). congruence.
Qed.

(** C8: two sources that differ only by white-space characters between
    tokens (any number of insertions and removals, none inside a run of
    digits) give token lists with the same kinds, values and characters in
    the same order, or are both rejected by the tokenizer, and the
    compilations print the same assembly. *)
Theorem C8_white_space_insignificant (argv0 s1 s2 : string) :
  ws_equiv s1 s2 ->
  views (tokenize s1) = views (tokenize s2) /\
  option_map stdout (main [argv0; s1]) = option_map stdout (main [argv0; s2]).
Proof. apply ws_equiv_tokens_and_output. Qed.

Lemma C8_white_space_insignificant_witness :
  views (tokenize "1+2") = views (tokenize " 1 +  2 ") /\
  option_map stdout (main ["9cc"; "1+2"]) =
    option_map stdout (main ["9cc"; " 1 +  2 "]).
Proof.
  apply (C8_white_space_insignificant "9cc" "1+2" " 1 +  2 ").
  apply rst_trans with " 1+2".
  { apply rst_step. apply (ws_insert_at "" " " "1+2"); reflexivity. }
  apply rst_trans with " 1 +2".
  { apply rst_step. apply (ws_insert_at " 1" " " "+2"); reflexivity. }
  apply rst_trans with " 1 + 2".
  { apply rst_step. apply (ws_insert_at " 1 +" " " "2"); reflexivity. }
  apply rst_trans with " 1 +  2".
  { apply rst_step. apply (ws_insert_at " 1 +" " " " 2"); reflexivity. }
  apply rst_step. apply (ws_insert_at " 1 +  2" " " ""); reflexivity.
Defined.

(** C4, amended: [expr] reads a non-empty prefix of the token stream and
    leaves the cursor on the first token it has no use for, which need not
    be the end-of-file marker; [main] does not look at it and prints the
    assembly of the prefix.  When that token is not the end-of-file marker,
    what follows it has no effect on the tree.  The only errors are those of
    [expect] and [expect_number], at a token of the stream. *)
Theorem C4_parse_reads_a_prefix (argv0 user_input : string) (toks : list Token) :
  tokenize user_input = Ok toks ->
  match expr (parse_fuel toks) toks with
  | Ok (node, rest) =>
      terminated rest /\
      (exists used, toks = used ++ rest /\ used <> [] /\
         forall t r r', rest = t :: r -> kind t <> TK_EOF -> terminated r' ->
           expr (parse_fuel (used ++ t :: r')) (used ++ t :: r') =
             Ok (node, t :: r')) /\
      main [argv0; user_input] =
        Some (mkProcess (prologue ++ map emit (program node)) "" 0)
  | ErrorAt loc msg =>
      syntax_error toks loc msg /\
      main [argv0; user_input] = Some (error_at user_input loc msg)
  | NullDeref | OutOfFuel => False
  end.
Proof.
  intros E. unfold main. rewrite E. cbn [bind].
  destruct (expr_cases toks (lexes_terminated _ _ (tokenize_Ok _ _ E)))
    as [(node & rest & used & E' & Hr & Hu & Hne)|(loc & msg & -> & Hs)].
  - rewrite E'. split; [exact Hr|]. split; [|reflexivity].
    exists used. split; [exact Hu|]. split; [exact Hne|].
    intros t r r' -> Ht Hr'. subst toks.
    assert (Htr : terminated r) by now apply (terminated_cons t).
    apply (expr_any_fuel (parse_fuel (used ++ t :: r))).
    + destruct Hr' as (body & e & -> & He). exists (used ++ t :: body), e.
      split; [now rewrite <- app_assoc | exact He].
    + now apply (expr_ignores_rest r r' Htr).
  - now split.
Qed.

Lemma C4_parse_reads_a_prefix_witness :
  main ["9cc"; "1+2)"] =
    Some (mkProcess
            (prologue ++ map emit (program (ND_BIN ND_ADD (ND_NUM 1) (ND_NUM 2))))
            "" 0).
Proof.
  destruct (C4_parse_reads_a_prefix "9cc" "1+2)"
              [mkToken TK_NUM 1 "1+2)"; mkToken TK_RESERVED 0 "+2)";
               mkToken TK_NUM 2 "2)"; mkToken TK_RESERVED 0 ")"; mkToken TK_EOF 0 ""]
              eq_refl) as (_ & _ & H).
  exact H.
Defined.

(** * Further properties of the code *)

(** ** What [tokenize] accepts *)

Lemma isdigit_lexable (ds : string) :
  string_forallb isdigit ds = true -> string_forallb lexable ds = true.
Proof.
  induction ds as [|c q IH]; simpl; [reflexivity|].
  intros H. apply andb_prop in H as [Hc Hq]. unfold lexable at 1.
  rewrite Hc, (IH Hq), !orb_true_r. reflexivity.
Qed.

Lemma lexes_lexable (p : string) (toks : list Token) :
  lexes p toks -> string_forallb lexable (c_str p) = true.
Proof.
  induction 1 as [p Hp | c q toks Hc Hs _ IH | c q toks Hc Hs Hp _ IH
                 | c q v p2 toks Hc Hs Hp Hd Hst _ IH].
  - now rewrite (c_str_deref_NUL p Hp).
  - rewrite (c_str_cons c q Hc). simpl. unfold lexable at 1. now rewrite Hs, IH.
  - rewrite (c_str_cons c q Hc). simpl. unfold lexable at 1.
    now rewrite Hp, IH, orb_true_r.
  - destruct (strtol_span c q v p2 Hd Hst) as (ds & -> & Hds & _).
    rewrite (c_str_cons c _ Hc), (c_str_digits ds p2 Hds). simpl.
    unfold lexable at 1. rewrite Hd, string_forallb_app, (isdigit_lexable ds Hds), IH.
    now rewrite !orb_true_r.
Qed.

Lemma lex_fails_first (p loc : string) :
  lex_fails p loc ->
  exists pre, p = (pre ++ loc)%string /\ string_forallb lexable pre = true /\
    lexable (deref loc) = false /\ deref loc <> NUL.
Proof.
  induction 1 as [c q Hc Hs Hp Hd | c q loc Hc Hs _ (pre & -> & H1 & H2)
                 | c q loc Hc Hs Hp _ (pre & -> & H1 & H2)
                 | c q v p2 loc Hc Hs Hp Hd Hst _ (pre & -> & H1 & H2)].
  - exists "". split; [reflexivity|]. split; [reflexivity|]. split; [|exact Hc].
    unfold lexable. simpl. now rewrite Hs, Hp, Hd.
  - exists (String c pre). split; [reflexivity|]. split; [|exact H2].
    simpl. unfold lexable at 1. now rewrite Hs, H1.
  - exists (String c pre). split; [reflexivity|]. split; [|exact H2].
    simpl. unfold lexable at 1. now rewrite Hp, H1, orb_true_r.
  - destruct (strtol_span c q v _ Hd Hst) as (ds & -> & Hds & _).
    exists (String c (ds ++ pre)). split; [simpl; now rewrite append_assoc|].
    split; [|exact H2]. simpl. unfold lexable at 1.
    rewrite Hd, string_forallb_app, (isdigit_lexable ds Hds), H1.
    now rewrite !orb_true_r.
Qed.

(** X1: [tokenize] accepts exactly the sources made of white space,
    punctuation and digits; it rejects any other source at its first
    character of another kind, everything before it being of these kinds. *)
Theorem X1_tokenize_accepts (user_input : string) :
  match tokenize user_input with
  | Ok _ => string_forallb lexable (c_str user_input) = true
  | ErrorAt loc msg =>
      msg = "invalid token" /\
      exists pre, user_input = (pre ++ loc)%string /\
        string_forallb lexable pre = true /\
        lexable (deref loc) = false /\ deref loc <> NUL
  | NullDeref | OutOfFuel => False
  end.
Proof.
  destruct (tokenize_cases user_input) as [(toks & -> & Hl)|(loc & -> & Hl)].
  - now apply (lexes_lexable _ toks).
  - split; [reflexivity|]. now apply lex_fails_first.
Qed.

(** ** The value of a number token *)

Lemma digit_value_range (c : ascii) :
  isdigit c = true -> (0 <= digit_value c <= 9)%Z.
Proof.
  unfold isdigit, between, digit_value. intros H.
  apply andb_prop in H as [H1 H2].
  apply Nat.leb_le in H1, H2. lia.
Qed.

Lemma strtol_digits_value (ds : string) :
  string_forallb isdigit ds = true ->
  forall acc,
    fst (strtol_digits acc ds) =
      (acc * 10 ^ Z.of_nat (String.length ds) + decimal_value ds)%Z.
Proof.
  induction ds as [|c q IH]; intros H acc;
    cbn [string_forallb strtol_digits decimal_value String.length] in *.
  - simpl. lia.
  - apply andb_prop in H as [Hc Hq]. rewrite Hc, (IH Hq).
    rewrite Nat2Z.inj_succ, Z.pow_succ_r by lia. ring.
Qed.

Lemma decimal_value_nonneg (ds : string) :
  string_forallb isdigit ds = true -> (0 <= decimal_value ds)%Z.
Proof.
  induction ds as [|c q IH]; cbn [string_forallb decimal_value]; intros H; [lia|].
  apply andb_prop in H as [Hc Hq].
  pose proof (digit_value_range c Hc). specialize (IH Hq).
  assert (0 <= 10 ^ Z.of_nat (String.length q))%Z by (apply Z.pow_nonneg; lia).
  nia.
Qed.

Lemma lexes_values (p : string) (toks : list Token) :
  lexes p toks -> Forall value_ok toks.
Proof.
  induction 1 as [p Hp | c q toks Hc Hs _ IH | c q toks Hc Hs Hp _ IH
                 | c q v p2 toks Hc Hs Hp Hd Hst _ IH].
  - constructor; [reflexivity | constructor].
  - exact IH.
  - constructor; [reflexivity | exact IH].
  - constructor; [|exact IH].
    destruct (strtol_span c q v p2 Hd Hst) as (ds & -> & Hds & Hn).
    assert (Hall : string_forallb isdigit (String c ds) = true)
      by (simpl; now rewrite Hd, Hds).
    rewrite (strtol_run c ds p2 Hd Hds Hn), (strtol_digits_value _ Hall 0) in Hst.
    rewrite Z.mul_0_l, Z.add_0_l in Hst. injection Hst as <-.
    unfold value_ok, lexeme. cbn [kind val str].
    change (take_digits (String c (ds ++ p2)))
      with (take_digits (String c ds ++ p2)).
    rewrite (take_digits_run (String c ds) Hall p2 Hn).
    pose proof (decimal_value_nonneg _ Hall).
    cbn [decimal_value] in *.
    assert (0 < LONG_MAX)%Z by reflexivity. split; [reflexivity|lia].
Qed.

(** X2: in a token list, [val] is zero but in a number token, where it is
    the value of the digits of the token in base 10, or LONG_MAX when that
    value is above LONG_MAX; it is never negative. *)
Theorem X2_token_values (user_input : string) :
  match tokenize user_input with
  | Ok toks => Forall value_ok toks
  | _ => True
  end.
Proof.
  destruct (tokenize_cases user_input) as [(toks & -> & Hl)|(loc & -> & Hl)];
    [|exact I].
  now apply (lexes_values user_input).
Qed.

(** ** Where the tokens are *)

Lemma lexes_sorted (p : string) (toks : list Token) :
  lexes p toks ->
  Forall (fun t => String.length (str t) <= String.length p) toks /\
  StronglySorted (fun t u => String.length (str u) < String.length (str t)) toks.
Proof.
  assert (Hw : forall (n m : nat) (l : list Token), n < m ->
            Forall (fun t => String.length (str t) <= n) l ->
            Forall (fun t => String.length (str t) <= m) l /\
            Forall (fun t => String.length (str t) < m) l).
  { intros n m l Hnm Hl. split; (eapply Forall_impl; [|exact Hl]); simpl; intros; lia. }
  induction 1 as [p Hp | c q toks Hc Hs _ [IH1 IH2] | c q toks Hc Hs Hp _ [IH1 IH2]
                 | c q v p2 toks Hc Hs Hp Hd Hst _ [IH1 IH2]].
  - split; repeat constructor.
  - split; [|exact IH2].
    apply (Hw (String.length q)); [simpl; lia | exact IH1].
  - destruct (Hw (String.length q) (String.length (String c q)) toks) as [H1 H2];
      [simpl; lia | exact IH1 |].
    split; constructor; trivial.
  - pose proof (suffix_length _ _ (strtol_endptr _ _ _ _ Hd Hst)) as Hl.
    destruct (Hw (String.length p2) (String.length (String c q)) toks) as [H1 H2];
      [simpl; lia | exact IH1 |].
    split; constructor; trivial.
Qed.

Lemma offsets_sorted (user_input : string) (toks : list Token) :
  Forall (fun t => String.length (str t) <= String.length user_input) toks ->
  StronglySorted (fun t u => String.length (str u) < String.length (str t)) toks ->
  StronglySorted lt (offsets user_input toks).
Proof.
  intros Hl Hs. induction Hs as [|t l Hs IH Ht]; simpl; constructor.
  - apply IH. now inversion Hl.
  - inversion Hl as [|? ? Hlt Hll]; subst. unfold offsets.
    rewrite Forall_map. rewrite Forall_forall in *.
    intros u Hu. specialize (Ht u Hu). specialize (Hll u Hu).
    unfold offset. lia.
Qed.

(** X3: the tokens are in source order: each token starts at a greater
    offset than the token before it, and the end-of-file marker, the last
    token, is at offset [strlen(user_input)]. *)
Theorem X3_tokens_in_source_order (user_input : string) :
  match tokenize user_input with
  | Ok toks =>
      StronglySorted lt (offsets user_input toks) /\
      exists body e, toks = body ++ [e] /\
        offset user_input (str e) = String.length (c_str user_input)
  | _ => True
  end.
Proof.
  destruct (tokenize_cases user_input) as [(toks & -> & Hl)|(loc & -> & Hl)];
    [|exact I].
  destruct (lexes_sorted _ _ Hl) as [H1 H2]. split; [now apply offsets_sorted|].
  destruct (lexes_shape _ _ Hl) as (Hp & body & e & -> & _ & _ & He & _).
  exists body, e. split; [reflexivity|].
  rewrite Forall_forall in Hp.
  destruct (Hp e) as (pre & E1 & E2); [apply in_or_app; right; now left|].
  rewrite E2, (c_str_deref_NUL _ He), append_nil_r.
  rewrite E1 at 1. apply offset_suffix.
Qed.

(** X4: on the cursors of a token list, [at_eof] is true at the last token
    and false at every token before it. *)
Theorem X4_at_eof_at_the_end_only (user_input : string) :
  match tokenize user_input with
  | Ok toks =>
      forall pre t cur, toks = pre ++ t :: cur ->
        at_eof (t :: cur) = Ok (match cur with [] => true | _ :: _ => false end)
  | _ => True
  end.
Proof.
  destruct (tokenize_cases user_input) as [(toks & -> & Hl)|(loc & -> & Hl)];
    [|exact I].
  destruct (lexes_shape _ _ Hl) as (_ & body & e & -> & He & _ & _ & Hb).
  intros pre t cur E. simpl. f_equal.
  destruct cur as [|u cur].
  - apply app_inj_tail in E as [_ <-]. now rewrite He.
  - destruct (exists_last (l := u :: cur) ltac:(discriminate)) as (cur' & l & Ec).
    rewrite Ec in E.
    change (pre ++ t :: cur' ++ [l]) with (pre ++ (t :: cur') ++ [l]) in E.
    rewrite app_assoc in E. apply app_inj_tail in E as [-> _].
    rewrite Forall_forall in Hb.
    assert (Hk : kind t <> TK_EOF) by (apply Hb, in_or_app; right; now left).
    now destruct (kind t).
Qed.

(** ** The tree and the tokens it was read from *)

Lemma items_app (a b : list Token) : items (a ++ b) = items a ++ items b.
Proof. apply flat_map_app. Qed.

Lemma items_single (t : Token) : items [t] = token_items t.
Proof. unfold items. simpl. apply app_nil_r. Qed.

Lemma reads_lift (pre : list item) (token used c1 : cursor)
  (x : result (Node * cursor)) :
  token = used ++ c1 ->
  reads (pre ++ items used) c1 x -> reads pre token x.
Proof.
  intros -> H. destruct x as [[node rest]| | |]; simpl in *; trivial.
  destruct H as (used' & -> & E). exists (used ++ used').
  split; [now rewrite app_assoc|]. now rewrite E, items_app, app_assoc.
Qed.

Lemma reads_bind (pre : list item) (token : cursor) (x : result (Node * cursor))
  (k : Node * cursor -> result (Node * cursor)) :
  reads pre token x ->
  (forall n c1, reads (infix n) c1 (k (n, c1))) ->
  reads pre token (bind x k).
Proof.
  intros Hx Hk. destruct x as [[n c1]| | |]; simpl in *; trivial.
  destruct Hx as (used & -> & E). apply (reads_lift pre _ used c1); [reflexivity|].
  rewrite <- E. apply Hk.
Qed.

Lemma token_items_op (op : ascii) (t : Token) :
  mismatch op t = false ->
  token_items t =
    (if (op =? "+")%char then [Op ND_ADD]
     else if (op =? "-")%char then [Op ND_SUB]
     else if (op =? "*")%char then [Op ND_MUL]
     else if (op =? "/")%char then [Op ND_DIV]
     else []).
Proof.
  intros H. apply mismatch_false in H as [Hk Hc].
  unfold token_items. now rewrite Hk, Hc.
Qed.

Lemma parser_reads (fuel : nat) :
  (forall token, reads [] token (expr fuel token)) /\
  (forall node token, reads (infix node) token (expr_loop fuel node token)) /\
  (forall token, reads [] token (mul fuel token)) /\
  (forall node token, reads (infix node) token (mul_loop fuel node token)) /\
  (forall token, reads [] token (primary fuel token)).
Proof.
  induction fuel as [|f (IHe & IHel & IHm & IHml & IHp)].
  { repeat split; intros; exact I. }
  assert (Hrhs : forall op k node t next
            (loop : Node -> cursor -> result (Node * cursor)),
            (forall node token, reads (infix node) token (loop node token)) ->
            mismatch op t = false ->
            token_items t = [Op k] ->
            reads (infix node) (t :: next)
              ('(rhs, token) <- mul f next ;; loop (new_binary k node rhs) token)).
  { intros op k node t next loop IHl Hm Ht.
    apply (reads_lift _ _ [t] next); [reflexivity|].
    pose proof (IHm next) as Hx.
    destruct (mul f next) as [[rhs c1]| | |]; cbn [bind]; try exact I.
    destruct Hx as (used & -> & E). simpl in E.
    apply (reads_lift _ _ used c1); [reflexivity|].
    assert (Ei : (infix node ++ items [t]) ++ items used
                 = infix (new_binary k node rhs)).
    { unfold items at 1. simpl flat_map. rewrite Ht, app_nil_r. simpl infix.
      now rewrite E, <- app_assoc. }
    rewrite Ei. apply IHl. }
  assert (Hstay : forall node token, reads (infix node) token (Ok (node, token))).
  { intros node token. exists []. split; [reflexivity|]. now rewrite app_nil_r. }
  split; [|split; [|split; [|split]]].
  - intros token. rewrite expr_eq. apply reads_bind; [apply IHm|].
    intros n c1. apply IHel.
  - intros node [|t next]; rewrite expr_loop_eq; [exact I|]. simpl consume.
    destruct (mismatch "+" t) eqn:H1; cbn [bind].
    + simpl consume. destruct (mismatch "-" t) eqn:H2; cbn [bind]; [apply Hstay|].
      apply (Hrhs "-"%char); trivial. now rewrite (token_items_op "-").
    + apply (Hrhs "+"%char); trivial. now rewrite (token_items_op "+").
  - intros token. rewrite mul_eq. apply reads_bind; [apply IHp|].
    intros n c1. apply IHml.
  - intros node [|t next]; rewrite mul_loop_eq; [exact I|]. simpl consume.
    destruct (mismatch "*" t) eqn:H1; cbn [bind].
    + simpl consume. destruct (mismatch "/" t) eqn:H2; cbn [bind]; [apply Hstay|].
      apply (Hrhs "/"%char); trivial. now rewrite (token_items_op "/").
    + apply (Hrhs "*"%char); trivial. now rewrite (token_items_op "*").
  - intros [|t next]; rewrite primary_eq; [exact I|]. simpl consume.
    destruct (mismatch "(" t) eqn:H1; cbn [bind].
    + simpl expect_number. destruct (kind t) eqn:Hk; simpl; trivial.
      exists [t]. split; [reflexivity|].
      unfold items. simpl. unfold token_items. now rewrite Hk.
    + pose proof (IHe next) as Hx.
      destruct (expr f next) as [[n c1]| | |]; simpl in *; trivial.
      destruct Hx as (used & -> & E).
      destruct c1 as [|t' c2]; simpl; trivial.
      destruct (mismatch ")" t') eqn:H2; simpl; trivial.
      exists (t :: used ++ [t']). split; [simpl; now rewrite <- app_assoc|].
      rewrite E. change (t :: used ++ [t']) with ([t] ++ used ++ [t']).
      rewrite !items_app, !items_single.
      rewrite (token_items_op "(" t H1), (token_items_op ")" t' H2).
      simpl. now rewrite app_nil_r.
Qed.

Lemma to_int_range (z : Z) : in_int (to_int z).
Proof.
  unfold in_int, to_int, wrap.
  pose proof (Z.mod_pos_bound (z + 2 ^ (32 - 1)) (2 ^ 32) ltac:(lia)).
  change (2 ^ (32 - 1))%Z with (2 ^ 31)%Z in *.
  change (2 ^ 32)%Z with (2 * 2 ^ 31)%Z in *. lia.
Qed.

Lemma items_literals_in_int (toks : list Token) :
  Forall in_int (literals (items toks)).
Proof.
  induction toks as [|t l IH]; [constructor|].
  unfold items, literals in *. simpl. rewrite flat_map_app.
  apply Forall_app. split; [|exact IH].
  unfold token_items. destruct (kind t); simpl; [|repeat constructor; apply to_int_range|constructor].
  repeat match goal with |- context [if ?b then _ else _] => destruct b end;
    simpl; constructor.
Qed.

Lemma pushed_gen (node : Node) : pushed (gen node) = literals (infix node).
Proof.
  unfold pushed, literals.
  induction node as [v | k l IHl r IHr]; [reflexivity|].
  simpl gen. simpl infix. rewrite !flat_map_app, IHl, IHr.
  destruct k; simpl; now rewrite app_nil_r.
Qed.

(** X5: the tree [expr] returns holds, from left to right, the numbers (as
    [new_num] stores them) and the operators of the tokens it has read, in
    the order of the tokens: nothing is dropped, added or moved, and the
    parentheses leave no node. *)
Theorem X5_tree_in_token_order (fuel : nat) (token : cursor) :
  match expr fuel token with
  | Ok (node, rest) => exists used, token = used ++ rest /\ infix node = items used
  | _ => True
  end.
Proof.
  pose proof (proj1 (parser_reads fuel) token) as H.
  destruct (expr fuel token) as [[node rest]| | |]; trivial.
Qed.

(** X6: when a compilation succeeds, the immediate operands of the [push]
    instructions it prints are the values of the number tokens read by the
    parser, in source order, each converted to [int]; every one of them
    fits in 32 bits. *)
Theorem X6_pushes_in_source_order (argv0 user_input : string) :
  match tokenize user_input with
  | Ok toks =>
      match expr (parse_fuel toks) toks with
      | Ok (node, rest) =>
          main [argv0; user_input] =
            Some (mkProcess (prologue ++ map emit (program node)) "" 0) /\
          exists used, toks = used ++ rest /\
            pushed (program node) = literals (items used) /\
            Forall in_int (pushed (program node))
      | _ => True
      end
  | _ => True
  end.
Proof.
  unfold main. destruct (tokenize user_input) as [toks| | |]; trivial. cbn [bind].
  pose proof (proj1 (parser_reads (parse_fuel toks)) toks) as H.
  destruct (expr (parse_fuel toks) toks) as [[node rest]| | |]; trivial.
  split; [reflexivity|]. destruct H as (used & E1 & E2). simpl in E2. exists used.
  split; [exact E1|].
  assert (Hp : pushed (program node) = literals (items used)).
  { unfold program, pushed. rewrite flat_map_app. simpl. rewrite app_nil_r.
    fold (pushed (gen node)). now rewrite pushed_gen, E2. }
  split; [exact Hp|]. rewrite Hp. apply items_literals_in_int.
Qed.

(** ** What the emitted program computes *)

Lemma to_long_small (z : Z) : in_long z = true -> to_long z = z.
Proof.
  intros H. apply in_long_iff in H. unfold to_long, wrap.
  change (2 ^ (64 - 1))%Z with (2 ^ 63)%Z.
  change (2 ^ 64)%Z with (2 * 2 ^ 63)%Z.
  rewrite Z.mod_small; lia.
Qed.

Lemma eval_no_div (node : Node) :
  has_div node = false -> exists v, eval node = Some v.
Proof.
  induction node as [n | k l IHl r IHr]; simpl; intros H.
  - now eexists.
  - destruct k; try discriminate; apply orb_false_elim in H as [Hl Hr];
      destruct (IHl Hl) as (a & ->), (IHr Hr) as (b & ->); simpl; now eexists.
Qed.

(** X7: a program emitted for a tree without division never faults: run
    from any machine state it reaches [ret] with a value in RAX. *)
Theorem X7_no_division_no_fault (node : Node) (m : machine) :
  has_div node = false -> exists v, run (program node) m = Some v.
Proof. intros H. rewrite run_program. now apply eval_no_div. Qed.

Lemma X7_no_division_no_fault_witness :
  exists v, run (program (ND_BIN ND_MUL (ND_NUM 3) (ND_BIN ND_SUB (ND_NUM 1) (ND_NUM 2))))
              m0 = Some v.
Proof. apply X7_no_division_no_fault. reflexivity. Defined.

Lemma eval_exact (node : Node) : fits node = true -> eval node = exact node.
Proof.
  induction node as [n | k l IHl r IHr]; cbn [fits eval]; intros H.
  - simpl. now rewrite to_long_small.
  - apply andb_prop in H as [H Hv]. apply andb_prop in H as [Hl Hr].
    rewrite (IHl Hl), (IHr Hr). cbn [exact] in *.
    destruct (exact l) as [a|]; [|discriminate].
    destruct (exact r) as [b|]; [|discriminate].
    destruct k; simpl in *; try now rewrite to_long_small.
    destruct (b =? 0)%Z; [discriminate|]. now rewrite Hv.
Qed.

(** X8: when the value of a tree and of each of its subtrees, computed in
    unbounded integer arithmetic with truncating division, is defined and
    fits in a [long], the emitted program returns exactly that value. *)
Theorem X8_exact_when_no_overflow (node : Node) (m : machine) :
  fits node = true -> run (program node) m = exact node.
Proof. intros H. rewrite run_program. now apply eval_exact. Qed.

Lemma X8_exact_when_no_overflow_witness :
  run (program (ND_BIN ND_DIV (ND_BIN ND_SUB (ND_NUM 1) (ND_NUM 8)) (ND_NUM 2))) m0
  = Some (-3)%Z.
Proof.
  exact (X8_exact_when_no_overflow
           (ND_BIN ND_DIV (ND_BIN ND_SUB (ND_NUM 1) (ND_NUM 8)) (ND_NUM 2)) m0 eq_refl).
Defined.

(** ** A tree written back as a source *)

Lemma strtol_digits_cons (c : ascii) (q : string) (acc : Z) :
  isdigit c = true ->
  strtol_digits acc (String c q) = strtol_digits (acc * 10 + digit_value c) q.
Proof. intros H. simpl. now rewrite H. Qed.

Ltac compute_digit :=
  match goal with
  | |- context [digit_value ?c] =>
      let x := eval vm_compute in (digit_value c) in
      change (digit_value c) with x
  end.

Lemma uint_digits (d : Decimal.uint) :
  string_forallb isdigit (NilEmpty.string_of_uint d) = true.
Proof.
  induction d; cbn [NilEmpty.string_of_uint string_forallb];
    [reflexivity | rewrite IHd; reflexivity ..].
Qed.

Lemma strtol_uint_acc (d : Decimal.uint) :
  forall acc : positive,
    fst (strtol_digits (Z.pos acc) (NilEmpty.string_of_uint d)) =
      Z.pos (Pos.of_uint_acc d acc).
Proof.
  induction d; intros acc; cbn [NilEmpty.string_of_uint Pos.of_uint_acc];
    [reflexivity | ..];
    rewrite strtol_digits_cons by reflexivity; rewrite <- IHd;
    do 2 f_equal; compute_digit; lia.
Qed.

Lemma strtol_uint (d : Decimal.uint) :
  fst (strtol_digits 0 (NilEmpty.string_of_uint d)) = Z.of_uint d.
Proof.
  unfold Z.of_uint.
  induction d; cbn [NilEmpty.string_of_uint Pos.of_uint]; [reflexivity | ..];
    rewrite strtol_digits_cons by reflexivity; compute_digit;
    [exact IHd | apply strtol_uint_acc ..].
Qed.

(* [%ld] of a number that is not negative: digits, and at least one *)
Lemma fmt_ld_nonneg (n : Z) :
  (0 <= n)%Z ->
  exists c ds, fmt_ld n = String c ds /\ isdigit c = true /\
    string_forallb isdigit ds = true /\
    fst (strtol_digits 0 (String c ds)) = n.
Proof.
  intros Hn.
  assert (H : exists d, d <> Decimal.Nil /\
            fmt_ld n = NilEmpty.string_of_uint d /\ Z.of_uint d = n).
  { destruct n as [|p|p]; [| |lia].
    - exists (Decimal.D0 Decimal.Nil). repeat split. discriminate.
    - exists (Pos.to_uint p). split; [apply Unsigned.to_uint_nonnil|].
      split.
      + unfold fmt_ld. simpl. pose proof (Unsigned.to_uint_nonnil p).
        now destruct (Pos.to_uint p).
      + unfold Z.of_uint. now rewrite Unsigned.of_to. }
  destruct H as (d & Hd & E & Ev).
  pose proof (uint_digits d) as Hds. pose proof (strtol_uint d) as Hv.
  rewrite E. destruct (NilEmpty.string_of_uint d) as [|c ds] eqn:Es.
  - now destruct d.
  - simpl in Hds. apply andb_prop in Hds as [Hc Hds].
    exists c, ds. repeat split; trivial. congruence.
Qed.

Lemma lexes_number (n : Z) (r : string) (toks : list Token) :
  (0 <= n)%Z -> lexes r toks -> isdigit (deref r) = false ->
  lexes (fmt_ld n ++ r) (mkToken TK_NUM (Z.min n LONG_MAX) (fmt_ld n ++ r) :: toks).
Proof.
  intros Hn Hl Hr. destruct (fmt_ld_nonneg n Hn) as (c & ds & -> & Hc & Hds & Hv).
  simpl append. apply (lexes_num c (ds ++ r) _ r); trivial.
  - now apply isdigit_not_NUL.
  - now apply isdigit_not_isspace.
  - now apply isdigit_not_ispunct.
  - now rewrite (strtol_run c ds r Hc Hds Hr), Hv.
Qed.

Lemma to_int_small (v : Z) : (0 <= v < 2 ^ 31)%Z -> to_int v = v.
Proof.
  intros H. unfold to_int, wrap.
  change (2 ^ (32 - 1))%Z with (2 ^ 31)%Z.
  change (2 ^ 32)%Z with (2 * 2 ^ 31)%Z.
  rewrite Z.mod_small; lia.
Qed.

Lemma op_char_punct (k : NodeKind) :
  op_char k <> NUL /\ isspace (op_char k) = false /\ ispunct (op_char k) = true /\
  isdigit (op_char k) = false.
Proof. destruct k; repeat split; discriminate. Qed.

(* the tokens of [show node ++ r] are tokens for [node], then those of [r] *)
Lemma lexes_show (node : Node) :
  small node = true ->
  forall r toks, lexes r toks -> isdigit (deref r) = false ->
    exists ts, lexes (show node ++ r) (ts ++ toks) /\ shows node ts.
Proof.
  induction node as [v | k l IHl rr IHr]; cbn [small show]; intros Hs r toks Hl Hr.
  - apply andb_prop in Hs as [H1 H2]. apply Z.leb_le in H1. apply Z.ltb_lt in H2.
    exists [mkToken TK_NUM (Z.min v LONG_MAX) (fmt_ld v ++ r)]. split.
    + now apply lexes_number.
    + constructor; [reflexivity|]. cbn [val].
      rewrite Z.min_l by (unfold LONG_MAX; lia). now apply to_int_small.
  - apply andb_prop in Hs as [Hsl Hsr].
    destruct (op_char_punct k) as (K1 & K2 & K3 & K4).
    assert (Hclose : lexes (String ")" r) (new_token TK_RESERVED (String ")" r) :: toks)).
    { apply lexes_punct; trivial; discriminate. }
    destruct (IHr Hsr _ _ Hclose eq_refl) as (tsr & Hlr & Hshr).
    assert (Hop : lexes (String (op_char k) (show rr ++ String ")" r))
                    (new_token TK_RESERVED (String (op_char k) (show rr ++ String ")" r))
                     :: tsr ++ new_token TK_RESERVED (String ")" r) :: toks)).
    { now apply lexes_punct. }
    destruct (IHl Hsl _ _ Hop K4) as (tsl & Hll & Hshl).
    exists (new_token TK_RESERVED
              (String "(" (show l ++ String (op_char k) (show rr ++ String ")" r)))
            :: tsl ++ new_token TK_RESERVED (String (op_char k) (show rr ++ String ")" r))
            :: tsr ++ [new_token TK_RESERVED (String ")" r)]).
    split.
    + assert (E : (String "(" (show l ++ String (op_char k) (show rr ++ ")")) ++ r)%string
                  = String "(" (show l ++ String (op_char k) (show rr ++ String ")" r))).
      { change (String "(" (show l ++ String (op_char k) (show rr ++ ")")) ++ r)%string
          with (String "(" ((show l ++ String (op_char k) (show rr ++ ")")) ++ r)).
        rewrite (append_assoc (show l)).
        change (String (op_char k) (show rr ++ ")") ++ r)%string
          with (String (op_char k) ((show rr ++ ")") ++ r)).
        now rewrite (append_assoc (show rr)). }
      rewrite E. clear E.
      change ((?a :: ?b) ++ toks) with (a :: (b ++ toks)).
      apply lexes_punct; trivial; try discriminate.
      rewrite <- app_assoc. simpl app. rewrite <- app_assoc. exact Hll.
    + apply shows_bin; trivial.
      unfold mismatch. simpl. destruct k; reflexivity.
Qed.

Lemma consume_yes (op : ascii) (t : Token) (rest : cursor) :
  mismatch op t = false -> consume op (t :: rest) = Ok (true, rest).
Proof. intros H. simpl. now rewrite H. Qed.

Lemma consume_no (op : ascii) (t : Token) (rest : cursor) :
  mismatch op t = true -> consume op (t :: rest) = Ok (false, t :: rest).
Proof. intros H. simpl. now rewrite H. Qed.

Lemma mismatch_other (a b : ascii) (t : Token) :
  mismatch a t = false -> a <> b -> mismatch b t = true.
Proof.
  intros H Hab. apply mismatch_false in H as [Hk Hc]. unfold mismatch.
  rewrite Hk, Hc. simpl. now destruct (Ascii.eqb_spec a b).
Qed.

Lemma mismatch_num (op : ascii) (t : Token) :
  kind t = TK_NUM -> mismatch op t = true.
Proof. intros H. unfold mismatch. now rewrite H. Qed.

Lemma mul_loop_stop (f : nat) (node : Node) (t : Token) (rest : cursor) :
  mismatch "*" t = true -> mismatch "/" t = true ->
  mul_loop (S f) node (t :: rest) = Ok (node, t :: rest).
Proof.
  intros H1 H2. rewrite mul_loop_eq, (consume_no _ _ _ H1). cbn [bind].
  now rewrite (consume_no _ _ _ H2).
Qed.

Lemma expr_loop_stop (f : nat) (node : Node) (t : Token) (rest : cursor) :
  mismatch "+" t = true -> mismatch "-" t = true ->
  expr_loop (S f) node (t :: rest) = Ok (node, t :: rest).
Proof.
  intros H1 H2. rewrite expr_loop_eq, (consume_no _ _ _ H1). cbn [bind].
  now rewrite (consume_no _ _ _ H2).
Qed.

Ltac need_fuel f := destruct f as [|f]; [lia|].

(* a primary followed by a token that is neither * nor / *)
Lemma mul_atom (N : nat) (node : Node) (ts : list Token) (t : Token) (rest : cursor) :
  (forall fuel rest, N <= fuel -> primary fuel (ts ++ rest) = Ok (node, rest)) ->
  mismatch "*" t = true -> mismatch "/" t = true ->
  forall fuel, N + 2 <= fuel -> mul fuel (ts ++ t :: rest) = Ok (node, t :: rest).
Proof.
  intros Hp H1 H2 fuel Hf. need_fuel fuel. rewrite mul_eq, Hp by lia. cbn [bind].
  need_fuel fuel. now apply mul_loop_stop.
Qed.

(* [primary] reads back the tokens of a tree *)
Lemma primary_shows (node : Node) (ts : list Token) :
  shows node ts ->
  exists N, forall fuel rest, N <= fuel -> primary fuel (ts ++ rest) = Ok (node, rest).
Proof.
  induction 1 as [v t Hk Hv | k l r tl to tr tsl tsr Hl _ (Nl & IHl) Ho _ (Nr & IHr) Hr
                 | node tl tr ts Hl _ (N & IH) Hr].
  - exists 1. intros fuel rest Hf. need_fuel fuel. rewrite primary_eq. simpl app.
    rewrite (consume_no _ _ _ (mismatch_num "(" t Hk)). cbn [bind].
    simpl. rewrite Hk. simpl. unfold new_num. now rewrite Hv.
  - exists (Nl + Nr + 8). intros fuel rest Hf.
    assert (S1 : mismatch "+" tr = true) by (now apply (mismatch_other ")")).
    assert (S2 : mismatch "-" tr = true) by (now apply (mismatch_other ")")).
    assert (S3 : mismatch "*" tr = true) by (now apply (mismatch_other ")")).
    assert (S4 : mismatch "/" tr = true) by (now apply (mismatch_other ")")).
    assert (Hrhs : forall fuel, Nr + 2 <= fuel ->
              mul fuel (tsr ++ tr :: rest) = Ok (r, tr :: rest))
      by now apply mul_atom.
    assert (He : forall fuel, Nl + Nr + 6 <= fuel ->
              expr fuel (tsl ++ to :: tsr ++ tr :: rest)
              = Ok (ND_BIN k l r, tr :: rest)).
    { intros f Hf'. need_fuel f. rewrite expr_eq.
      destruct k; cbn [op_char] in Ho.
      - (* + *)
        rewrite (mul_atom Nl l tsl to _ IHl) by
          (trivial; try lia; now apply (mismatch_other "+")).
        cbn [bind]. need_fuel f. rewrite expr_loop_eq, (consume_yes _ _ _ Ho).
        cbn [bind]. rewrite Hrhs by lia. cbn [bind]. need_fuel f.
        now apply expr_loop_stop.
      - (* - *)
        rewrite (mul_atom Nl l tsl to _ IHl) by
          (trivial; try lia; now apply (mismatch_other "-")).
        cbn [bind]. need_fuel f.
        rewrite expr_loop_eq, (consume_no _ _ _ (mismatch_other "-" "+" to Ho ltac:(discriminate))).
        cbn [bind]. rewrite (consume_yes _ _ _ Ho).
        cbn [bind]. rewrite Hrhs by lia. cbn [bind]. need_fuel f.
        now apply expr_loop_stop.
      - (* * *)
        need_fuel f. rewrite mul_eq, IHl by lia. cbn [bind]. need_fuel f.
        rewrite mul_loop_eq, (consume_yes _ _ _ Ho). cbn [bind].
        rewrite Hrhs by lia. cbn [bind]. need_fuel f.
        rewrite mul_loop_stop by trivial. cbn [bind].
        now apply expr_loop_stop.
      - (* / *)
        need_fuel f. rewrite mul_eq, IHl by lia. cbn [bind]. need_fuel f.
        rewrite mul_loop_eq, (consume_no _ _ _ (mismatch_other "/" "*" to Ho ltac:(discriminate))).
        cbn [bind]. rewrite (consume_yes _ _ _ Ho). cbn [bind].
        rewrite Hrhs by lia. cbn [bind]. need_fuel f.
        rewrite mul_loop_stop by trivial. cbn [bind].
        now apply expr_loop_stop. }
    need_fuel fuel. rewrite primary_eq.
    replace ((tl :: tsl ++ to :: tsr ++ [tr]) ++ rest)
      with (tl :: tsl ++ to :: tsr ++ tr :: rest)
      by (simpl; rewrite <- app_assoc; simpl; now rewrite <- app_assoc).
    rewrite (consume_yes _ _ _ Hl). cbn [bind]. rewrite He by lia. cbn [bind].
    simpl. now rewrite Hr.
  - exists (N + 5). intros fuel rest Hf. need_fuel fuel. rewrite primary_eq.
    replace ((tl :: ts ++ [tr]) ++ rest) with (tl :: ts ++ tr :: rest)
      by (simpl; now rewrite <- app_assoc).
    rewrite (consume_yes _ _ _ Hl). cbn [bind]. need_fuel fuel. rewrite expr_eq.
    rewrite (mul_atom N node ts tr rest IH) by
      (try lia; now apply (mismatch_other ")")).
    cbn [bind]. need_fuel fuel.
    rewrite expr_loop_stop by now apply (mismatch_other ")").
    cbn [bind]. simpl. now rewrite Hr.
Qed.

(* the whole source [show node] *)
Lemma expr_shows (node : Node) (ts : list Token) (e : Token) :
  shows node ts -> kind e = TK_EOF ->
  expr (parse_fuel (ts ++ [e])) (ts ++ [e]) = Ok (node, [e]).
Proof.
  intros Hs He. destruct (primary_shows node ts Hs) as (N & Hp).
  assert (Hm : forall op, mismatch op e = true)
    by (intros op; unfold mismatch; now rewrite He).
  apply (expr_any_fuel (S (S (N + 2)))); [now exists ts, e|].
  rewrite expr_eq, (mul_atom N node ts e [] Hp) by (trivial; lia).
  cbn [bind]. now apply expr_loop_stop.
Qed.

Lemma parse_show (node : Node) : small node = true -> parse (show node) = Ok node.
Proof.
  intros Hs.
  destruct (lexes_show node Hs "" [new_token TK_EOF ""]) as (ts & Hl & Hsh);
    [now apply lexes_eof | reflexivity |].
  rewrite append_nil_r in Hl. unfold parse.
  rewrite (lexes_tokenize _ _ Hl). cbn [bind].
  now rewrite (expr_shows node ts (new_token TK_EOF "") Hsh eq_refl).
Qed.

(** X9: a tree whose literals are non-negative [int]s, written as a source
    with every binary node in parentheses, is parsed back to the same tree,
    whatever its operators; the compilation of that source prints the code
    of the tree, and the program returns the value of the tree. *)
Theorem X9_parse_show (argv0 : string) (node : Node) (m : machine) :
  small node = true ->
  parse (show node) = Ok node /\
  main [argv0; show node] =
    Some (mkProcess (prologue ++ map emit (program node)) "" 0) /\
  compile_and_run (show node) m = eval node.
Proof.
  intros Hs. pose proof (parse_show node Hs) as Hp. split; [exact Hp|].
  rewrite compile_and_run_eval, Hp. split; [|reflexivity].
  unfold parse in Hp. unfold main.
  destruct (tokenize (show node)) as [toks| | |]; cbn [bind] in *; try discriminate.
  destruct (expr (parse_fuel toks) toks) as [[n rest]| | |]; cbn [bind] in *;
    try discriminate.
  now injection Hp as ->.
Qed.

Lemma X9_parse_show_witness :
  parse "((8/4)/(2*3))" =
    Ok (ND_BIN ND_DIV (ND_BIN ND_DIV (ND_NUM 8) (ND_NUM 4))
                      (ND_BIN ND_MUL (ND_NUM 2) (ND_NUM 3))).
Proof.
  exact (proj1 (X9_parse_show "9cc"
                  (ND_BIN ND_DIV (ND_BIN ND_DIV (ND_NUM 8) (ND_NUM 4))
                                 (ND_BIN ND_MUL (ND_NUM 2) (ND_NUM 3)))
                  m0 eq_refl)).
Defined.

Lemma lexes_parens (depth : nat) (node : Node) :
  small node = true ->
  forall r toks, lexes r toks -> isdigit (deref r) = false ->
    exists ts, lexes (parens depth (show node) ++ r) (ts ++ toks) /\ shows node ts.
Proof.
  intros Hs. induction depth as [|d IH]; intros r toks Hl Hr.
  - now apply lexes_show.
  - assert (Hclose : lexes (String ")" r) (new_token TK_RESERVED (String ")" r) :: toks)).
    { apply lexes_punct; trivial; discriminate. }
    destruct (IH _ _ Hclose eq_refl) as (ts & Hlt & Hsh).
    exists (new_token TK_RESERVED (String "(" (parens d (show node) ++ String ")" r))
            :: ts ++ [new_token TK_RESERVED (String ")" r)]).
    split.
    + assert (E : (parens (S d) (show node) ++ r)%string
                  = String "(" (parens d (show node) ++ String ")" r)).
      { cbn [parens].
        change (String "(" (parens d (show node) ++ ")") ++ r)%string
          with (String "(" ((parens d (show node) ++ ")") ++ r)).
        now rewrite append_assoc. }
      rewrite E. change ((?a :: ?b) ++ toks) with (a :: (b ++ toks)).
      apply lexes_punct; trivial; try discriminate.
      now rewrite <- app_assoc.
    + now apply shows_parens.
Qed.

(** X10: any number of pairs of parentheses around the source of a tree
    leave the tree as it is: the source is parsed to the same tree, at every
    depth of nesting. *)
Theorem X10_redundant_parentheses (depth : nat) (node : Node) :
  small node = true -> parse (parens depth (show node)) = Ok node.
Proof.
  intros Hs.
  destruct (lexes_parens depth node Hs "" [new_token TK_EOF ""]) as (ts & Hl & Hsh);
    [now apply lexes_eof | reflexivity |].
  rewrite append_nil_r in Hl. unfold parse.
  rewrite (lexes_tokenize _ _ Hl). cbn [bind].
  now rewrite (expr_shows node ts (new_token TK_EOF "") Hsh eq_refl).
Qed.

Lemma X10_redundant_parentheses_witness :
  parse "((((1+2)*3)))" =
    Ok (ND_BIN ND_MUL (ND_BIN ND_ADD (ND_NUM 1) (ND_NUM 2)) (ND_NUM 3)).
Proof.
  exact (X10_redundant_parentheses 2
           (ND_BIN ND_MUL (ND_BIN ND_ADD (ND_NUM 1) (ND_NUM 2)) (ND_NUM 3)) eq_refl).
Defined.

(** ** What the parser never does *)

(** X11: on the tokens of any source the parser never dereferences a NULL
    cursor, with any bound on its recursion; three calls per token and
    three more are enough for it to return, and a larger bound gives the
    same result. *)
Theorem X11_parser_safe_and_bounded (user_input : string) :
  match tokenize user_input with
  | Ok toks =>
      forall fuel,
        expr fuel toks <> NullDeref /\
        (3 * List.length toks + 3 <= fuel ->
         expr fuel toks <> OutOfFuel /\
         expr fuel toks = expr (3 * List.length toks + 3) toks)
  | _ => True
  end.
Proof.
  destruct (tokenize_cases user_input) as [(toks & -> & Hl)|(loc & -> & Hl)];
    [|exact I].
  pose proof (lexes_terminated _ _ Hl) as Ht. intros fuel.
  pose proof (proj1 (parser_parsed fuel) toks Ht) as H. split.
  - intros E. rewrite E in H. exact H.
  - intros Hf.
    assert (H0 : expr (3 * List.length toks + 3) toks <> OutOfFuel).
    { pose proof (proj1 (parser_parsed (3 * List.length toks + 3)) toks Ht) as H0.
      intros E. rewrite E in H0. simpl in H0. lia. }
    split.
    + intros E. rewrite E in H. simpl in H. lia.
    + now apply expr_fuel_le.
Qed.

(** ** What the process writes *)

Lemma to_int_not_nil (v : Z) :
  Z.to_int v <> Decimal.Pos Decimal.Nil /\ Z.to_int v <> Decimal.Neg Decimal.Nil.
Proof.
  destruct v as [|q|q]; simpl; split; try discriminate;
    intros [= E]; now apply (Unsigned.to_uint_nonnil q).
Qed.

Lemma fmt_ld_read (v : Z) :
  NilZero.int_of_string (fmt_ld v) = Some (Z.to_int v).
Proof. destruct (to_int_not_nil v). now apply NilZero.isi. Qed.

Lemma fmt_ld_inj (v w : Z) : fmt_ld v = fmt_ld w -> v = w.
Proof.
  intros H. apply to_int_inj.
  apply (f_equal NilZero.int_of_string) in H. rewrite !fmt_ld_read in H.
  now injection H.
Qed.

Lemma fmt_ld_not_reg (v : Z) (r : reg) : fmt_ld v <> reg_name r.
Proof.
  intros H. apply (f_equal NilZero.int_of_string) in H. rewrite fmt_ld_read in H.
  destruct r; discriminate.
Qed.

(** X13: two different instructions are printed as two different lines, so
    the lines [gen] and [main] print determine the instructions: programs
    with the same text are the same program. *)
Theorem X13_emit_injective (prog prog' : list instr) :
  map emit prog = map emit prog' -> prog = prog'.
Proof.
  assert (Hi : forall i j, emit i = emit j -> i = j).
  { intros i j H.
    destruct i as [v|r|r| | | | | |], j as [w|q|q| | | | | |]; simpl in H;
      try reflexivity; try discriminate.
    - injection H as H. now rewrite (fmt_ld_inj v w).
    - injection H as H. now elim (fmt_ld_not_reg v q).
    - injection H as H. symmetry in H. now elim (fmt_ld_not_reg w r).
    - destruct r, q; try reflexivity; discriminate.
    - destruct r, q; try reflexivity; discriminate. }
  revert prog'. induction prog as [|i l IH]; intros [|j l']; simpl; intros H;
    try reflexivity; try discriminate.
  injection H as H1 H2. now rewrite (Hi i j H1), (IH l' H2).
Qed.

Lemma X13_emit_injective_witness :
  [pop rdi; push_imm 7] = [pop rdi; push_imm 7].
Proof. apply X13_emit_injective. reflexivity. Defined.

(** ** Sources without a division *)

Lemma count_chars_app (f : ascii -> bool) (a b : string) :
  count_chars f (a ++ b) = count_chars f a + count_chars f b.
Proof. induction a as [|c a IH]; simpl; [reflexivity|]. rewrite IH. lia. Qed.

Lemma lexes_no_slash (p : string) (toks : list Token) :
  lexes p toks ->
  count_chars (Ascii.eqb "/") (c_str p) = 0 ->
  Forall (fun t => mismatch "/" t = true) toks.
Proof.
  induction 1 as [p Hp | c q toks Hc Hs _ IH | c q toks Hc Hs Hp _ IH
                 | c q v p2 toks Hc Hs Hp Hd Hst _ IH]; intros H0.
  - constructor; [reflexivity | constructor].
  - rewrite (c_str_cons c q Hc) in H0. cbn [count_chars] in H0. apply IH. lia.
  - rewrite (c_str_cons c q Hc) in H0. cbn [count_chars] in H0.
    destruct (Ascii.eqb_spec "/" c) as [E|E]; [lia|].
    constructor; [|apply IH; lia].
    unfold mismatch. simpl. now destruct (Ascii.eqb_spec c "/") as [->|].
  - constructor; [reflexivity|]. apply IH.
    destruct (strtol_span c q v p2 Hd Hst) as (ds & -> & Hds & _).
    rewrite (c_str_cons c _ Hc), (c_str_digits ds p2 Hds) in H0.
    cbn [count_chars] in H0. rewrite count_chars_app in H0. lia.
Qed.

Lemma has_div_infix (node : Node) :
  has_div node = true -> In (Op ND_DIV) (infix node).
Proof.
  induction node as [v | k l IHl r IHr]; simpl; [discriminate|].
  intros H. apply in_or_app. destruct k; try (now right; left);
    apply orb_prop in H as [H|H]; [left | right; right | left | right; right
                                  | left | right; right]; auto.
Qed.

Lemma items_no_div (toks : list Token) :
  Forall (fun t => mismatch "/" t = true) toks -> ~ In (Op ND_DIV) (items toks).
Proof.
  induction 1 as [|t l Ht _ IH]; simpl; [tauto|].
  unfold items. simpl. fold (items l). intros H. apply in_app_or in H as [H|H];
    [|now apply IH].
  unfold token_items, mismatch in *. destruct (kind t); simpl in *.
  - destruct (deref (str t) =? "+")%char; [destruct H as [H|[]]; discriminate|].
    destruct (deref (str t) =? "-")%char; [destruct H as [H|[]]; discriminate|].
    destruct (deref (str t) =? "*")%char; [destruct H as [H|[]]; discriminate|].
    destruct (deref (str t) =? "/")%char; [discriminate | destruct H].
  - destruct H as [H|[]]; discriminate.
  - destruct H.
Qed.

(** X14: a source that holds no character '/' and compiles gives a program
    that cannot fault: run from any machine state, it reaches [ret] with a
    value in RAX. *)
Theorem X14_no_slash_no_fault (user_input : string) (m : machine) :
  count_chars (Ascii.eqb "/") (c_str user_input) = 0 ->
  match parse user_input with
  | Ok node => exists v, run (program node) m = Some v
  | _ => True
  end.
Proof.
  intros H0. unfold parse.
  destruct (tokenize_cases user_input) as [(toks & -> & Hl)|(loc & -> & Hl)];
    [|exact I].
  cbn [bind]. pose proof (proj1 (parser_reads (parse_fuel toks)) toks) as Hr.
  destruct (expr (parse_fuel toks) toks) as [[node rest]| | |]; cbn [bind]; trivial.
  destruct Hr as (used & E1 & E2). simpl in E2.
  rewrite run_program. apply eval_no_div.
  destruct (has_div node) eqn:Hd; [|reflexivity]. exfalso.
  apply has_div_infix in Hd. rewrite E2 in Hd.
  apply (items_no_div used); [|exact Hd].
  pose proof (lexes_no_slash _ _ Hl H0) as Hf. rewrite E1 in Hf.
  now apply Forall_app in Hf as [Hf _].
Qed.

Lemma X14_no_slash_no_fault_witness :
  exists v, run (program (ND_BIN ND_SUB (ND_NUM 1) (ND_BIN ND_MUL (ND_NUM 2) (ND_NUM 3))))
              m0 = Some v.
Proof. exact (X14_no_slash_no_fault "1-2*3" m0 eq_refl). Defined.

(** ** The grammar of the comments *)

(* [mul] reads its right operand with [mul]: a product after an operator *)
Lemma G_mul_app (a : list Token) (t : Token) (b : list Token) :
  G_mul a -> mismatch "*" t = false \/ mismatch "/" t = false -> G_mul b ->
  G_mul (a ++ t :: b).
Proof.
  intros Ha Ht Hb. induction Hb as [p Hp | m t' p Hm IH Ht' Hp].
  - now apply G_mul_more.
  - replace (a ++ t :: m ++ t' :: p) with ((a ++ t :: m) ++ t' :: p)
      by (now rewrite <- app_assoc).
    now apply G_mul_more.
Qed.

Lemma accepts_lift (G G' : list Token -> Prop) (token used c1 : cursor)
  (x : result (Node * cursor)) :
  token = used ++ c1 ->
  (forall u, G' u -> G (used ++ u)) ->
  accepts G' c1 x -> accepts G token x.
Proof.
  intros -> HG H. destruct x as [[node rest]| | |]; simpl in *; trivial.
  destruct H as (u & -> & Hu). exists (used ++ u).
  split; [now rewrite app_assoc | now apply HG].
Qed.

Lemma parser_accepts (fuel : nat) :
  (forall token, accepts G_expr token (expr fuel token)) /\
  (forall node pre token, G_expr pre ->
     accepts (fun used => G_expr (pre ++ used)) token (expr_loop fuel node token)) /\
  (forall token, accepts G_mul token (mul fuel token)) /\
  (forall node pre token, G_mul pre ->
     accepts (fun used => G_mul (pre ++ used)) token (mul_loop fuel node token)) /\
  (forall token, accepts G_primary token (primary fuel token)).
Proof.
  induction fuel as [|f (IHe & IHel & IHm & IHml & IHp)].
  { repeat split; intros; exact I. }
  assert (Hrhs : forall (G : list Token -> Prop) k node pre t next
            (loop : Node -> cursor -> result (Node * cursor)),
            (forall node pre token, G pre ->
               accepts (fun used => G (pre ++ used)) token (loop node token)) ->
            G pre ->
            (forall u, G_mul u -> G (pre ++ t :: u)) ->
            accepts (fun used => G (pre ++ used)) (t :: next)
              ('(rhs, token) <- mul f next ;; loop (new_binary k node rhs) token)).
  { intros G k node pre t next loop IHl Hpre Hstep.
    pose proof (IHm next) as Hx.
    destruct (mul f next) as [[rhs c1]| | |]; cbn [bind]; try exact I.
    destruct Hx as (u & -> & Hu).
    apply (accepts_lift _ (fun used => G ((pre ++ t :: u) ++ used)) _ (t :: u) c1).
    - reflexivity.
    - intros u' Hu'. rewrite <- app_assoc in Hu'. exact Hu'.
    - apply IHl. now apply Hstep. }
  assert (Hstay : forall (G : list Token -> Prop) node pre token, G pre ->
            accepts (fun used => G (pre ++ used)) token (Ok (node, token))).
  { intros G node pre token Hpre. exists []. split; [reflexivity|].
    now rewrite app_nil_r. }
  split; [|split; [|split; [|split]]].
  - intros token. rewrite expr_eq. pose proof (IHm token) as Hx.
    destruct (mul f token) as [[n c1]| | |]; cbn [bind]; try exact I.
    destruct Hx as (u & -> & Hu).
    apply (accepts_lift _ (fun used => G_expr (u ++ used)) _ u c1); trivial.
    apply IHel. now apply G_expr_one.
  - intros node pre [|t next] Hpre; rewrite expr_loop_eq; [exact I|]. simpl consume.
    destruct (mismatch "+" t) eqn:H1; cbn [bind].
    + simpl consume. destruct (mismatch "-" t) eqn:H2; cbn [bind];
        [now apply Hstay|].
      apply Hrhs; trivial. intros u Hu. apply G_expr_more; auto.
    + apply Hrhs; trivial. intros u Hu. apply G_expr_more; auto.
  - intros token. rewrite mul_eq. pose proof (IHp token) as Hx.
    destruct (primary f token) as [[n c1]| | |]; cbn [bind]; try exact I.
    destruct Hx as (u & -> & Hu).
    apply (accepts_lift _ (fun used => G_mul (u ++ used)) _ u c1); trivial.
    apply IHml. now apply G_mul_one.
  - intros node pre [|t next] Hpre; rewrite mul_loop_eq; [exact I|]. simpl consume.
    destruct (mismatch "*" t) eqn:H1; cbn [bind].
    + simpl consume. destruct (mismatch "/" t) eqn:H2; cbn [bind];
        [now apply Hstay|].
      apply Hrhs; trivial. intros u Hu. apply G_mul_app; auto.
    + apply Hrhs; trivial. intros u Hu. apply G_mul_app; auto.
  - intros [|t next]; rewrite primary_eq; [exact I|]. simpl consume.
    destruct (mismatch "(" t) eqn:H1; cbn [bind].
    + simpl expect_number. destruct (kind t) eqn:Hk; simpl; trivial.
      exists [t]. split; [reflexivity | now apply G_num].
    + pose proof (IHe next) as Hx.
      destruct (expr f next) as [[n c1]| | |]; cbn [bind]; try exact I.
      destruct Hx as (u & -> & Hu).
      destruct c1 as [|t' c2]; simpl; trivial.
      destruct (mismatch ")" t') eqn:H2; simpl; trivial.
      exists (t :: u ++ [t']). split; [simpl; now rewrite <- app_assoc|].
      now apply G_paren.
Qed.

(** X15: whenever [expr] returns, the tokens it has read form a sentence of
    the grammar written in the comments of the parser: the parser accepts no
    token sequence outside that grammar. *)
Theorem X15_reads_a_sentence (fuel : nat) (token : cursor) :
  match expr fuel token with
  | Ok (_, rest) => exists used, token = used ++ rest /\ G_expr used
  | _ => True
  end.
Proof.
  pose proof (proj1 (parser_accepts fuel) token) as H.
  destruct (expr fuel token) as [[node rest]| | |]; trivial.
Qed.

Scheme G_primary_min := Minimality for G_primary Sort Prop
  with G_mul_min := Minimality for G_mul Sort Prop
  with G_expr_min := Minimality for G_expr Sort Prop.
Combined Scheme G_mutual_min from G_primary_min, G_mul_min, G_expr_min.

(* each function reads a sentence of its rule, and goes on as its loop
   does on what follows *)
Lemma grammar_read :
  (forall p, G_primary p ->
     forall rest, eventually (fun fuel =>
       exists node, primary fuel (p ++ rest) = Ok (node, rest))) /\
  (forall m, G_mul m ->
     forall tail final, stops_mul final ->
       eventually (fun fuel => forall node, exists node',
         mul_loop fuel node tail = Ok (node', final)) ->
       eventually (fun fuel => exists node, mul fuel (m ++ tail) = Ok (node, final))) /\
  (forall e, G_expr e ->
     forall tail final, stops_mul tail ->
       eventually (fun fuel => forall node, exists node',
         expr_loop fuel node tail = Ok (node', final)) ->
       eventually (fun fuel => exists node, expr fuel (e ++ tail) = Ok (node, final))).
Proof.
  apply G_mutual_min.
  - (* num *)
    intros t Hk rest. exists 1. intros fuel Hf. need_fuel fuel.
    rewrite primary_eq. simpl app.
    rewrite (consume_no _ _ _ (mismatch_num "(" t Hk)). cbn [bind].
    simpl. rewrite Hk. simpl. now eexists.
  - (* "(" expr ")" *)
    intros tl e tr Hl _ IHe Hr rest.
    assert (S1 : mismatch "+" tr = true) by (now apply (mismatch_other ")")).
    assert (S2 : mismatch "-" tr = true) by (now apply (mismatch_other ")")).
    assert (S3 : mismatch "*" tr = true) by (now apply (mismatch_other ")")).
    assert (S4 : mismatch "/" tr = true) by (now apply (mismatch_other ")")).
    destruct (IHe (tr :: rest) (tr :: rest)) as (N & HN).
    { now exists tr, rest. }
    { exists 1. intros fuel Hf node. need_fuel fuel. exists node.
      now apply expr_loop_stop. }
    exists (S N). intros fuel Hf. need_fuel fuel. rewrite primary_eq.
    replace ((tl :: e ++ [tr]) ++ rest) with (tl :: e ++ tr :: rest)
      by (simpl; now rewrite <- app_assoc).
    rewrite (consume_yes _ _ _ Hl). cbn [bind].
    destruct (HN fuel ltac:(lia)) as (node & ->). cbn [bind].
    simpl. rewrite Hr. now eexists.
  - (* primary *)
    intros p _ IHp tail final Hfin (NK & HK).
    destruct (IHp tail) as (N & HN).
    exists (S (N + NK)). intros fuel Hf. need_fuel fuel. rewrite mul_eq.
    destruct (HN fuel ltac:(lia)) as (node & ->). cbn [bind].
    apply HK. lia.
  - (* mul op primary *)
    intros m t p _ IHm Ht _ IHp tail final Hfin (NK & HK).
    replace ((m ++ t :: p) ++ tail) with (m ++ t :: p ++ tail)
      by (now rewrite <- app_assoc).
    apply IHm; [exact Hfin|].
    destruct (IHp tail) as (N & HN).
    destruct Hfin as (tf & rf & -> & F1 & F2).
    exists (S (S (S (N + NK)))). intros fuel Hf node.
    need_fuel fuel. rewrite mul_loop_eq.
    assert (Hrhs : forall k, exists node',
              ('(rhs, token) <- mul fuel (p ++ tail) ;;
               mul_loop fuel (new_binary k node rhs) token) = Ok (node', tf :: rf)).
    { intros k. need_fuel fuel. rewrite mul_eq.
      destruct (HN fuel ltac:(lia)) as (n1 & ->). cbn [bind].
      destruct (HK fuel ltac:(lia) n1) as (n2 & ->). cbn [bind].
      eexists. now apply mul_loop_stop. }
    destruct (mismatch "*" t) eqn:E1.
    + rewrite (consume_no _ _ _ E1). cbn [bind].
      destruct Ht as [Ht|Ht]; [discriminate|].
      rewrite (consume_yes _ _ _ Ht). cbn [bind]. apply Hrhs.
    + rewrite (consume_yes _ _ _ E1). cbn [bind]. apply Hrhs.
  - (* mul *)
    intros m _ IHm tail final Htail (NK & HK).
    destruct (IHm tail tail Htail) as (N & HN).
    { destruct Htail as (t & r & -> & T1 & T2). exists 1. intros fuel Hf node.
      need_fuel fuel. exists node. now apply mul_loop_stop. }
    exists (S (N + NK)). intros fuel Hf. need_fuel fuel. rewrite expr_eq.
    destruct (HN fuel ltac:(lia)) as (node & ->). cbn [bind].
    apply HK. lia.
  - (* expr op mul *)
    intros e t m _ IHe Ht _ IHm tail final Htail (NK & HK).
    replace ((e ++ t :: m) ++ tail) with (e ++ t :: m ++ tail)
      by (now rewrite <- app_assoc).
    assert (T1 : mismatch "*" t = true /\ mismatch "/" t = true).
    { destruct Ht as [Ht|Ht]; split;
        (eapply mismatch_other; [exact Ht | discriminate]). }
    apply IHe; [now exists t, (m ++ tail)|].
    destruct (IHm tail tail Htail) as (N & HN).
    { destruct Htail as (t' & r & -> & T2 & T3). exists 1. intros fuel Hf node.
      need_fuel fuel. exists node. now apply mul_loop_stop. }
    exists (S (N + NK)). intros fuel Hf node. need_fuel fuel. rewrite expr_loop_eq.
    assert (Hrhs : forall k, exists node',
              ('(rhs, token) <- mul fuel (m ++ tail) ;;
               expr_loop fuel (new_binary k node rhs) token) = Ok (node', final)).
    { intros k. destruct (HN fuel ltac:(lia)) as (n1 & ->). cbn [bind].
      apply HK. lia. }
    destruct (mismatch "+" t) eqn:E1.
    + rewrite (consume_no _ _ _ E1). cbn [bind].
      destruct Ht as [Ht|Ht]; [discriminate|].
      rewrite (consume_yes _ _ _ Ht). cbn [bind]. apply Hrhs.
    + rewrite (consume_yes _ _ _ E1). cbn [bind]. apply Hrhs.
Qed.

(** X16: a sentence of the grammar of the comments, followed by a token
    that is none of + - * /, is read entirely by [expr], which returns a
    tree and leaves the cursor on that token.  With X15: the token
    sequences [expr] reads are exactly the sentences of that grammar. *)
Theorem X16_sentences_are_read (used : list Token) (rest : cursor) :
  G_expr used -> stops_expr rest -> terminated rest ->
  exists node, expr (parse_fuel (used ++ rest)) (used ++ rest) = Ok (node, rest).
Proof.
  intros HG (t & r & -> & S1 & S2 & S3 & S4) Ht.
  destruct (proj2 (proj2 grammar_read) used HG (t :: r) (t :: r)) as (N & HN).
  - now exists t, r.
  - exists 1. intros fuel Hf node. need_fuel fuel. exists node.
    now apply expr_loop_stop.
  - destruct (HN N (le_n N)) as (node & E). exists node.
    apply (expr_any_fuel N); [|exact E].
    destruct Ht as (body & e & -> & He). exists (used ++ body), e.
    split; [now rewrite <- app_assoc | exact He].
Qed.

Lemma X16_sentences_are_read_witness :
  exists node,
    expr 15 [mkToken TK_NUM 1 "1*2"; mkToken TK_RESERVED 0 "*2"; mkToken TK_NUM 2 "2";
             mkToken TK_EOF 0 ""]
    = Ok (node, [mkToken TK_EOF 0 ""]).
Proof.
  apply (X16_sentences_are_read
           [mkToken TK_NUM 1 "1*2"; mkToken TK_RESERVED 0 "*2"; mkToken TK_NUM 2 "2"]
           [mkToken TK_EOF 0 ""]).
  - apply G_expr_one.
    apply (G_mul_more [mkToken TK_NUM 1 "1*2"] (mkToken TK_RESERVED 0 "*2")
             [mkToken TK_NUM 2 "2"]).
    + apply G_mul_one. now apply G_num.
    + now left.
    + now apply G_num.
  - exists (mkToken TK_EOF 0 ""), []. repeat split.
  - now exists [], (mkToken TK_EOF 0 "").
Defined.

(** * Errors, and the call stack *)

(** ** Where the parser stops *)

(* [mul] returns before a token that is neither * nor /, and [expr] before
   one that is none of + - * / *)
Lemma parser_stops (fuel : nat) :
  (forall token node rest, expr fuel token = Ok (node, rest) -> stops_expr rest) /\
  (forall node token node' rest,
     stops_mul token -> expr_loop fuel node token = Ok (node', rest) ->
     stops_expr rest) /\
  (forall token node rest, mul fuel token = Ok (node, rest) -> stops_mul rest) /\
  (forall node token node' rest,
     mul_loop fuel node token = Ok (node', rest) -> stops_mul rest).
Proof.
  induction fuel as [|f (IHe & IHel & IHm & IHml)].
  { repeat split; intros; discriminate. }
  split; [|split; [|split]].
  - intros token node rest. rewrite expr_eq.
    destruct (mul f token) as [[n c1]| | |] eqn:E; cbn [bind]; try discriminate.
    apply IHel. now apply (IHm token n).
  - intros node token node' rest Hs. rewrite expr_loop_eq.
    destruct token as [|t next]; [discriminate|]. cbn [consume].
    destruct (mismatch "+" t) eqn:E1; cbn [bind].
    + cbn [consume]. destruct (mismatch "-" t) eqn:E2; cbn [bind].
      * intros E. injection E as <- <-.
        destruct Hs as (t' & r' & E & S3 & S4). injection E as <- <-.
        now exists t, next.
      * destruct (mul f next) as [[n c1]| | |] eqn:E; cbn [bind]; try discriminate.
        apply IHel. now apply (IHm next n).
    + destruct (mul f next) as [[n c1]| | |] eqn:E; cbn [bind]; try discriminate.
      apply IHel. now apply (IHm next n).
  - intros token node rest. rewrite mul_eq.
    destruct (primary f token) as [[n c1]| | |] eqn:E; cbn [bind]; try discriminate.
    apply IHml.
  - intros node token node' rest. rewrite mul_loop_eq.
    destruct token as [|t next]; [discriminate|]. cbn [consume].
    destruct (mismatch "*" t) eqn:E1; cbn [bind].
    + cbn [consume]. destruct (mismatch "/" t) eqn:E2; cbn [bind].
      * intros E. injection E as <- <-. now exists t, next.
      * destruct (mul f next) as [[n c1]| | |] eqn:E; cbn [bind]; try discriminate.
        apply IHml.
    + destruct (mul f next) as [[n c1]| | |] eqn:E; cbn [bind]; try discriminate.
      apply IHml.
Qed.

(** ** What a return and an error of the parser depend on *)

Lemma determined_mono (G G' : list Token -> Prop)
  (f : cursor -> result (Node * cursor)) (c : cursor) :
  (forall x, G x -> G' x) -> determined G f c -> determined G' f c.
Proof.
  unfold determined. intros HG.
  destruct (f c) as [[n rest]| loc msg | |]; trivial.
  intros (used & t & s & -> & El & Hu & (w & more & Hw & Hm) & H).
  exists used, t, s. repeat split; trivial. exists w, more. split; [exact Hw|].
  now apply HG.
Qed.

(* after a token that has been consumed *)
Lemma determined_cons (G : list Token -> Prop)
  (f g : cursor -> result (Node * cursor)) (t : Token) (c : cursor) :
  (forall c, f (t :: c) = g c) ->
  determined (fun x => G (t :: x)) g c -> determined G f (t :: c).
Proof.
  unfold determined. intros E. rewrite E.
  destruct (g c) as [[n rest]| loc msg | |]; trivial.
  - intros (used & -> & H). exists (t :: used). split; [reflexivity|].
    intros t' s s' Er. simpl. rewrite E. now apply (H t' s).
  - intros (used & t' & s & -> & El & Hu & HG & H). exists (t :: used), t', s.
    repeat split; trivial. intros s'. simpl. rewrite E. apply H.
Qed.

(* a return at the token the call is at *)
Lemma determined_ret (G : list Token -> Prop)
  (f : cursor -> result (Node * cursor)) (node : Node) (t : Token) (s : cursor) :
  (forall s', f (t :: s') = Ok (node, t :: s')) -> determined G f (t :: s).
Proof.
  unfold determined. intros E. rewrite E. exists []. split; [reflexivity|].
  intros t' s0 s' Er. injection Er as <- <-. apply E.
Qed.

(* a return after the token the call is at *)
Lemma determined_step (G : list Token -> Prop)
  (f : cursor -> result (Node * cursor)) (node : Node) (t : Token) (s : cursor) :
  (forall s', f (t :: s') = Ok (node, s')) -> determined G f (t :: s).
Proof.
  unfold determined. intros E. rewrite E. exists [t]. split; [reflexivity|].
  intros t' s0 s' Er. apply E.
Qed.

(* an error at the token the call is at *)
Lemma determined_fail (G : list Token -> Prop)
  (f : cursor -> result (Node * cursor)) (msg : string) (t : Token) (s : cursor) :
  (forall s', f (t :: s') = ErrorAt (str t) msg) ->
  unexpected t msg -> (exists w more, wanted msg w /\ G (w :: more)) ->
  determined G f (t :: s).
Proof.
  unfold determined. intros E Hu HG. rewrite E. exists [], t, s.
  repeat split; trivial.
Qed.

(* a call, and what is done with what it returns *)
Lemma determined_bind (G G1 : list Token -> Prop)
  (g : cursor -> result (Node * cursor))
  (k : Node * cursor -> result (Node * cursor)) (c : cursor) :
  determined G1 g c -> accepts G1 c (g c) ->
  (forall x, G1 x -> exists more, G (x ++ more)) ->
  (forall n c1 used, c = used ++ c1 -> G1 used ->
     determined (fun x => G (used ++ x)) (fun c1 => k (n, c1)) c1) ->
  determined G (fun c => bind (g c) k) c.
Proof.
  unfold determined at 1 3. unfold accepts. intros Hg Ha HG Hk.
  destruct (g c) as [[n c1]| loc msg | |] eqn:E; cbn [bind]; trivial.
  - destruct Hg as (used & -> & Hl). destruct Ha as (used' & Eu & Hu).
    apply app_inv_tail in Eu as <-.
    specialize (Hk n c1 used eq_refl Hu). unfold determined in Hk.
    assert (Hl' : forall u1 t s s', c1 = u1 ++ t :: s ->
              g (used ++ u1 ++ t :: s') = Ok (n, u1 ++ t :: s')).
    { intros [|t1 u1] t s s' ->; simpl.
      - now apply (Hl t s).
      - now apply (Hl t1 (u1 ++ t :: s)). }
    destruct (k (n, c1)) as [[n' rest]| loc msg | |]; trivial.
    + destruct Hk as (u1 & -> & Hk). exists (used ++ u1).
      split; [now rewrite app_assoc|].
      intros t s s' ->. rewrite <- app_assoc, (Hl' u1 t s s' eq_refl). cbn [bind].
      now apply (Hk t s).
    + destruct Hk as (u1 & t & s & -> & El & Hx & (w & more & Hw & Hm) & Hk).
      exists (used ++ u1), t, s. split; [now rewrite app_assoc|].
      split; [exact El|]. split; [exact Hx|]. split.
      * exists w, more. split; [exact Hw|]. now rewrite <- app_assoc.
      * intros s'. rewrite <- app_assoc, (Hl' u1 t s s' eq_refl). cbn [bind].
        apply Hk.
  - destruct Hg as (used & t & s & -> & El & Hx & (w & more & Hw & Hm) & Hl).
    exists used, t, s. split; [reflexivity|]. split; [exact El|].
    split; [exact Hx|]. split.
    + destruct (HG _ Hm) as (more' & Hm'). exists w, (more ++ more').
      split; [exact Hw|]. rewrite <- app_assoc in Hm'. exact Hm'.
    + intros s'. now rewrite Hl.
Qed.

Lemma parser_determined (fuel : nat) :
  (forall c, determined G_expr (expr fuel) c) /\
  (forall node pre c, G_expr pre ->
     determined (fun x => G_expr (pre ++ x)) (expr_loop fuel node) c) /\
  (forall c, determined G_mul (mul fuel) c) /\
  (forall node pre c, G_mul pre ->
     determined (fun x => G_mul (pre ++ x)) (mul_loop fuel node) c) /\
  (forall c, determined G_primary (primary fuel) c).
Proof.
  induction fuel as [|f (IHe & IHel & IHm & IHml & IHp)].
  { repeat split; intros; exact I. }
  destruct (parser_accepts f) as (Ae & _ & Am & _ & Ap).
  assert (Hrhs : forall (G : list Token -> Prop) loop pre t c,
             (forall node pre c, G pre ->
                determined (fun x => G (pre ++ x)) (loop node) c) ->
             (forall m, G_mul m -> G (pre ++ t :: m)) ->
             forall k : Node -> Node,
             determined (fun x => G (pre ++ t :: x))
               (fun c => '(rhs, c1) <- mul f c ;; loop (k rhs) c1) c).
  { intros G loop pre t c Hloop Hm k.
    apply (determined_bind _ G_mul (mul f)); [apply IHm | apply Am | |].
    - intros m HG. exists []. rewrite app_nil_r. now apply Hm.
    - intros n c1 used _ Hu.
      apply (determined_mono (fun x => G ((pre ++ t :: used) ++ x))).
      + intros x. now rewrite <- app_assoc.
      + apply (Hloop (k n)). now apply Hm. }
  split; [|split; [|split; [|split]]].
  - intros c. apply (determined_bind _ G_mul (mul f)); [apply IHm | apply Am | |].
    + intros m HG. exists []. rewrite app_nil_r. now apply G_expr_one.
    + intros n c1 used _ Hu. apply (IHel n used c1). now apply G_expr_one.
  - intros node pre [|t next] Hpre; [exact I|].
    destruct (mismatch "+" t) eqn:E1; [destruct (mismatch "-" t) eqn:E2|].
    + apply (determined_ret _ _ node). intros s'.
      rewrite expr_loop_eq. cbn [consume]. rewrite E1. cbn [bind consume].
      now rewrite E2.
    + apply (determined_cons _ _
               (fun c => '(rhs, c1) <- mul f c ;;
                         expr_loop f (new_binary ND_SUB node rhs) c1)).
      * intros c. rewrite expr_loop_eq. cbn [consume]. rewrite E1.
        cbn [bind consume]. now rewrite E2.
      * apply (Hrhs (fun x => G_expr x) (expr_loop f) pre t next IHel).
        intros m Hm. apply G_expr_more; [exact Hpre | now right | exact Hm].
    + apply (determined_cons _ _
               (fun c => '(rhs, c1) <- mul f c ;;
                         expr_loop f (new_binary ND_ADD node rhs) c1)).
      * intros c. rewrite expr_loop_eq. cbn [consume]. now rewrite E1.
      * apply (Hrhs (fun x => G_expr x) (expr_loop f) pre t next IHel).
        intros m Hm. apply G_expr_more; [exact Hpre | now left | exact Hm].
  - intros c. apply (determined_bind _ G_primary (primary f)); [apply IHp | apply Ap | |].
    + intros m HG. exists []. rewrite app_nil_r. now apply G_mul_one.
    + intros n c1 used _ Hu. apply (IHml n used c1). now apply G_mul_one.
  - intros node pre [|t next] Hpre; [exact I|].
    destruct (mismatch "*" t) eqn:E1; [destruct (mismatch "/" t) eqn:E2|].
    + apply (determined_ret _ _ node). intros s'.
      rewrite mul_loop_eq. cbn [consume]. rewrite E1. cbn [bind consume].
      now rewrite E2.
    + apply (determined_cons _ _
               (fun c => '(rhs, c1) <- mul f c ;;
                         mul_loop f (new_binary ND_DIV node rhs) c1)).
      * intros c. rewrite mul_loop_eq. cbn [consume]. rewrite E1.
        cbn [bind consume]. now rewrite E2.
      * apply (Hrhs (fun x => G_mul x) (mul_loop f) pre t next IHml).
        intros m Hm. apply G_mul_app; [exact Hpre | now right | exact Hm].
    + apply (determined_cons _ _
               (fun c => '(rhs, c1) <- mul f c ;;
                         mul_loop f (new_binary ND_MUL node rhs) c1)).
      * intros c. rewrite mul_loop_eq. cbn [consume]. now rewrite E1.
      * apply (Hrhs (fun x => G_mul x) (mul_loop f) pre t next IHml).
        intros m Hm. apply G_mul_app; [exact Hpre | now left | exact Hm].
  - intros [|t next]; [exact I|].
    destruct (mismatch "(" t) eqn:E1.
    + destruct (TokenKind_eqb (kind t) TK_NUM) eqn:E2.
      * apply (determined_step _ _ (new_num (val t))). intros s'.
        rewrite primary_eq. cbn [consume]. rewrite E1. cbn [bind expect_number].
        now rewrite E2.
      * apply (determined_fail _ _ "expected a number").
        -- intros s'. rewrite primary_eq. cbn [consume]. rewrite E1.
           cbn [bind expect_number]. now rewrite E2.
        -- left. split; [reflexivity|]. split; [|exact E1].
           intros E. rewrite E in E2. discriminate.
        -- exists a_number, []. split; [now left | now apply G_num].
    + apply (determined_cons _ _
               (fun c => '(node, c1) <- expr f c ;;
                         c2 <- expect ")" c1 ;; Ok (node, c2))).
      * intros c. rewrite primary_eq. cbn [consume]. now rewrite E1.
      * apply (determined_bind _ G_expr (expr f)); [apply IHe | apply Ae | |].
        -- intros e HG. exists [closing]. now apply G_paren.
        -- intros n [|t2 c2] used _ Hu; [exact I|].
           destruct (mismatch ")" t2) eqn:E2.
           ++ apply (determined_fail _ _ "expected: ')'").
              ** intros s'. cbn [expect]. now rewrite E2.
              ** now right.
              ** exists closing, []. split; [now right | now apply G_paren].
           ++ apply (determined_step _ _ n). intros s'. cbn [expect].
              now rewrite E2.
Qed.

(** ** The parser on a stack of a given depth *)

Lemma bind_in_agrees {A B : Type} (x : staged A) (r : result A)
  (k : A -> staged B) (k' : A -> result B) :
  x = StackOverflow \/ x = Returned r ->
  (forall a, k a = StackOverflow \/ k a = Returned (k' a)) ->
  bind_in x k = StackOverflow \/ bind_in x k = Returned (bind r k').
Proof.
  intros [->| ->] Hk; [now left|].
  destruct r as [a| | |]; cbn [bind_in bind]; [apply Hk | now right ..].
Qed.

(* on a stack of any depth the parser is killed or does what it does on an
   unbounded one *)
Lemma parser_in_agrees (fuel : nat) :
  forall frames,
  (forall c, expr_in frames fuel c = StackOverflow \/
             expr_in frames fuel c = Returned (expr fuel c)) /\
  (forall node c, expr_loop_in frames fuel node c = StackOverflow \/
                  expr_loop_in frames fuel node c = Returned (expr_loop fuel node c)) /\
  (forall c, mul_in frames fuel c = StackOverflow \/
             mul_in frames fuel c = Returned (mul fuel c)) /\
  (forall node c, mul_loop_in frames fuel node c = StackOverflow \/
                  mul_loop_in frames fuel node c = Returned (mul_loop fuel node c)) /\
  (forall c, primary_in frames fuel c = StackOverflow \/
             primary_in frames fuel c = Returned (primary fuel c)).
Proof.
  induction fuel as [|f IH]; intros frames.
  { repeat split; intros; now right. }
  assert (Hloop : forall (k : Node -> Node)
               (loop_in : Node -> cursor -> staged (Node * cursor))
               (loop : Node -> cursor -> result (Node * cursor)) c,
             (forall node c, loop_in node c = StackOverflow \/
                             loop_in node c = Returned (loop node c)) ->
             ('(rhs, c1) <-- mul_in frames f c ;; loop_in (k rhs) c1) = StackOverflow \/
             ('(rhs, c1) <-- mul_in frames f c ;; loop_in (k rhs) c1) =
               Returned ('(rhs, c1) <- mul f c ;; loop (k rhs) c1)).
  { intros k loop_in loop c Hl. apply bind_in_agrees.
    - apply (IH frames).
    - intros [rhs c1]. apply Hl. }
  split; [|split; [|split; [|split]]].
  - intros c. destruct frames as [|fr]; [now left|].
    cbn [expr_in expr]. apply bind_in_agrees.
    + apply (IH fr).
    + intros [n c1]. apply (IH fr).
  - intros node [|t next]; [now right|].
    cbn [expr_loop_in expr_loop consume].
    destruct (mismatch "+" t); cbn [bind_in bind consume].
    + destruct (mismatch "-" t); cbn [bind_in bind]; [now right|].
      apply (Hloop (new_binary ND_SUB node)), (IH frames).
    + apply (Hloop (new_binary ND_ADD node)), (IH frames).
  - intros c. destruct frames as [|fr]; [now left|].
    cbn [mul_in mul]. apply bind_in_agrees.
    + apply (IH fr).
    + intros [n c1]. apply (IH fr).
  - intros node [|t next]; [now right|].
    cbn [mul_loop_in mul_loop consume].
    destruct (mismatch "*" t); cbn [bind_in bind consume].
    + destruct (mismatch "/" t); cbn [bind_in bind]; [now right|].
      apply (Hloop (new_binary ND_DIV node)), (IH frames).
    + apply (Hloop (new_binary ND_MUL node)), (IH frames).
  - intros c. destruct frames as [|fr]; [now left|].
    destruct c as [|t next]; [now right|].
    cbn [primary_in primary consume].
    destruct (mismatch "(" t); cbn [bind_in bind consume].
    + destruct (expect_number (t :: next)) as [[v c1]| | |]; now right.
    + apply bind_in_agrees; [apply (IH fr)|].
      intros [n c1]. destruct (expect ")" c1); now right.
Qed.

Lemma bind_in_returns_on {A B : Type} (x : staged A) (r : result A)
  (k : A -> staged B) (k' : A -> result B) :
  x = Returned r -> (forall a, r = Ok a -> k a = Returned (k' a)) ->
  bind_in x k = Returned (bind r k').
Proof.
  intros -> Hk. destruct r as [a| | |]; cbn [bind_in bind];
    [now apply Hk | reflexivity ..].
Qed.

Lemma parsed_strictly (b fuel : nat) (c : cursor) (node : Node) (rest : cursor) :
  parsed true b fuel c (Ok (node, rest)) ->
  terminated rest /\ List.length rest < List.length c.
Proof.
  simpl. intros (Ht & used & -> & Hu). split; [exact Ht|].
  rewrite length_app. destruct used; [now elim Hu | simpl; lia].
Qed.

Lemma after_op (op : ascii) (t : Token) (next : cursor) :
  terminated (t :: next) -> mismatch op t = false -> terminated next.
Proof.
  intros Ht Hm. apply (terminated_cons t); [exact Ht|].
  destruct (mismatch_false _ _ Hm) as [E _]. rewrite E. discriminate.
Qed.

(* a stack that holds three calls for each token is deep enough: a token
   takes at most a call of [expr], of [mul] and of [primary] *)
Lemma parser_in_deep_enough (fuel : nat) :
  forall frames,
  (forall c, terminated c -> 3 * List.length c <= frames ->
     expr_in frames fuel c = Returned (expr fuel c)) /\
  (forall node c, terminated c -> 3 * List.length c <= frames + 4 ->
     expr_loop_in frames fuel node c = Returned (expr_loop fuel node c)) /\
  (forall c, terminated c -> 3 * List.length c <= frames + 1 ->
     mul_in frames fuel c = Returned (mul fuel c)) /\
  (forall node c, terminated c -> 3 * List.length c <= frames + 4 ->
     mul_loop_in frames fuel node c = Returned (mul_loop fuel node c)) /\
  (forall c, terminated c -> 3 * List.length c <= frames + 2 ->
     primary_in frames fuel c = Returned (primary fuel c)).
Proof.
  induction fuel as [|f IH]; intros frames.
  { repeat split; intros; reflexivity. }
  destruct (parser_parsed f) as (Pe & _ & Pm & _ & Pp).
  assert (Hlen : forall c, terminated c -> 1 <= List.length c).
  { intros c Hc. apply terminated_nonnull in Hc. destruct c; [now elim Hc | simpl; lia]. }
  assert (Hrhs : forall (k : Node -> Node)
               (loop_in : Node -> cursor -> staged (Node * cursor))
               (loop : Node -> cursor -> result (Node * cursor)) c,
             (forall node c, terminated c -> 3 * List.length c <= frames + 4 ->
                loop_in node c = Returned (loop node c)) ->
             terminated c -> 3 * List.length c <= frames + 1 ->
             ('(rhs, c1) <-- mul_in frames f c ;; loop_in (k rhs) c1) =
               Returned ('(rhs, c1) <- mul f c ;; loop (k rhs) c1)).
  { intros k loop_in loop c Hl Hc Hf. apply bind_in_returns_on.
    - now apply (IH frames).
    - intros [rhs c1] E. pose proof (Pm c Hc) as H. rewrite E in H.
      apply parsed_strictly in H as [H1 H2]. apply Hl; [exact H1 | lia]. }
  split; [|split; [|split; [|split]]].
  - intros c Hc Hf. pose proof (Hlen c Hc) as Hn. destruct frames as [|fr]; [lia|].
    cbn [expr_in expr]. apply bind_in_returns_on.
    + apply (IH fr); [exact Hc | lia].
    + intros [n c1] E. pose proof (Pm c Hc) as H. rewrite E in H.
      apply parsed_strictly in H as [H1 H2]. apply (IH fr); [exact H1 | lia].
  - intros node [|t next] Hc Hf; [reflexivity|]. simpl in Hf.
    cbn [expr_loop_in expr_loop consume].
    destruct (mismatch "+" t) eqn:E1; cbn [bind_in bind consume].
    + destruct (mismatch "-" t) eqn:E2; cbn [bind_in bind consume]; [reflexivity|].
      apply (Hrhs (new_binary ND_SUB node));
        [apply (IH frames) | now apply (after_op "-" t) | lia].
    + apply (Hrhs (new_binary ND_ADD node));
        [apply (IH frames) | now apply (after_op "+" t) | lia].
  - intros c Hc Hf. pose proof (Hlen c Hc) as Hn. destruct frames as [|fr]; [lia|].
    cbn [mul_in mul]. apply bind_in_returns_on.
    + apply (IH fr); [exact Hc | lia].
    + intros [n c1] E. pose proof (Pp c Hc) as H. rewrite E in H.
      apply parsed_strictly in H as [H1 H2]. apply (IH fr); [exact H1 | lia].
  - intros node [|t next] Hc Hf; [reflexivity|]. simpl in Hf.
    cbn [mul_loop_in mul_loop consume].
    destruct (mismatch "*" t) eqn:E1; cbn [bind_in bind consume].
    + destruct (mismatch "/" t) eqn:E2; cbn [bind_in bind consume]; [reflexivity|].
      apply (Hrhs (new_binary ND_DIV node));
        [apply (IH frames) | now apply (after_op "/" t) | lia].
    + apply (Hrhs (new_binary ND_MUL node));
        [apply (IH frames) | now apply (after_op "*" t) | lia].
  - intros c Hc Hf. pose proof (Hlen c Hc) as Hn. destruct frames as [|fr]; [lia|].
    destruct c as [|t next]; [reflexivity|]. simpl in Hf.
    cbn [primary_in primary consume].
    destruct (mismatch "(" t) eqn:E1; cbn [bind_in bind consume].
    + destruct (expect_number (t :: next)) as [[v c1]| | |]; reflexivity.
    + apply bind_in_returns_on.
      * apply (IH fr); [now apply (after_op "(" t) | lia].
      * intros [n c1] _. destruct (expect ")" c1); reflexivity.
Qed.

(* each opening parenthesis takes a call of [expr], of [mul] and of
   [primary]: a source that opens more of them than a third of the stack
   can hold is not parsed *)
Lemma parser_in_nesting (ps : list Token) :
  Forall (fun t => mismatch "(" t = false) ps ->
  forall frames fuel rest,
    frames < 3 * List.length ps + 3 -> 3 * List.length ps + 3 <= fuel ->
    expr_in frames fuel (ps ++ rest) = StackOverflow.
Proof.
  induction 1 as [|t ps Ht _ IH]; intros frames fuel rest Hfr Hfu; simpl in Hfr, Hfu.
  - do 3 need_fuel fuel.
    destruct frames as [|[|[|fr]]]; [reflexivity .. | lia].
  - do 3 need_fuel fuel.
    destruct frames as [|[|[|fr]]]; [reflexivity ..|].
    cbn [expr_in mul_in primary_in app consume]. rewrite Ht. cbn [bind_in].
    rewrite IH; [reflexivity | lia | lia].
Qed.

(** ** The code generator on a stack of a given depth *)

Lemma gen_not_nil (node : Node) : gen node <> [].
Proof.
  destruct node as [v|k l r]; simpl; [discriminate|].
  intros E. apply app_eq_nil in E as [_ E]. apply app_eq_nil in E as [_ E].
  discriminate.
Qed.

(* [gen] returns, having printed the whole code, on a stack as deep as the
   tree is high; on a lower one it is killed, having printed the beginning
   of the code and not all of it *)
Lemma gen_in_cases (frames : nat) :
  forall node,
    (height node <= frames /\ gen_in frames node = (gen node, true)) \/
    (frames < height node /\
     exists code rest,
       gen_in frames node = (code, false) /\ gen node = code ++ rest /\ rest <> []).
Proof.
  induction frames as [|fr IH]; intros node.
  { right. split; [destruct node; simpl; lia|].
    exists [], (gen node). repeat split. apply gen_not_nil. }
  destruct node as [v|k l r]; [left; split; [simpl; lia | reflexivity]|].
  cbn [gen_in height gen].
  destruct (IH l) as [[Hl ->]|[Hl (cl & rl & -> & El & Hrl)]].
  - destruct (IH r) as [[Hr ->]|[Hr (cr & rr & -> & Er & Hrr)]].
    + left. split; [lia | reflexivity].
    + right. split; [lia|].
      exists (gen l ++ cr), (rr ++ [pop rdi; pop rax] ++ gen_op k ++ [push_reg rax]).
      split; [reflexivity|]. split.
      * rewrite Er, <- !app_assoc. reflexivity.
      * intros E. apply app_eq_nil in E as [E _]. now apply Hrr.
  - right. split; [lia|].
    exists cl, (rl ++ gen r ++ [pop rdi; pop rax] ++ gen_op k ++ [push_reg rax]).
    split; [reflexivity|]. split.
    + rewrite El, <- !app_assoc. reflexivity.
    + intros E. apply app_eq_nil in E as [E _]. now apply Hrl.
Qed.

(* a tree is not higher than it has literals and operators *)
Lemma height_infix (node : Node) : height node <= List.length (infix node).
Proof.
  induction node as [v|k l IHl r IHr]; simpl; [lia|].
  rewrite length_app. simpl. lia.
Qed.

Lemma items_length (toks : list Token) : List.length (items toks) <= List.length toks.
Proof.
  induction toks as [|t toks IH]; simpl; [lia|].
  unfold items in *. rewrite length_app.
  assert (H : List.length (token_items t) <= 1).
  { unfold token_items. destruct (kind t); simpl; [|lia|lia].
    repeat match goal with |- context [if ?b then _ else _] => destruct b end;
      simpl; lia. }
  simpl. lia.
Qed.

(* the tree of a stream is lower than the stream is long *)
Lemma height_parsed (fuel : nat) (toks : cursor) (node : Node) (rest : cursor) :
  expr fuel toks = Ok (node, rest) -> rest <> [] ->
  height node < List.length toks.
Proof.
  intros E Hr. pose proof (proj1 (parser_reads fuel) toks) as H.
  rewrite E in H. simpl in H. destruct H as (used & -> & Hi).
  pose proof (height_infix node) as H1. rewrite Hi in H1. simpl in H1.
  pose proof (items_length used) as H2. rewrite length_app.
  destruct rest; [now elim Hr|]. simpl. lia.
Qed.

(** ** Sources in error *)

Lemma terminated_tail (used rest : cursor) :
  terminated (used ++ rest) -> rest <> [] -> terminated rest.
Proof.
  intros (body & e & E & He) Hr.
  destruct (exists_last Hr) as (r' & x & ->).
  rewrite app_assoc in E. apply app_inj_tail in E as [_ ->]. now exists r', e.
Qed.

(* a sentence followed by a token that is none of + - * / is read entirely *)
Lemma expr_reads_sentence (used : list Token) (rest : cursor) :
  G_expr used -> stops_expr rest -> terminated rest ->
  exists node, expr (parse_fuel (used ++ rest)) (used ++ rest) = Ok (node, rest).
Proof.
  intros HG (t & r & -> & S1 & S2 & S3 & S4) Ht.
  destruct (proj2 (proj2 grammar_read) used HG (t :: r) (t :: r)) as (N & HN).
  - now exists t, r.
  - exists 1. intros fuel Hf node. need_fuel fuel. exists node.
    now apply expr_loop_stop.
  - destruct (HN N (le_n N)) as (node & E). exists node.
    apply (expr_any_fuel N); [|exact E].
    destruct Ht as (body & e & -> & He). exists (used ++ body), e.
    split; [now rewrite <- app_assoc | exact He].
Qed.

(* the streams without syntax error are those [expr] returns on *)
Lemma syntax_ok_parses (toks : cursor) :
  terminated toks -> syntax_ok toks ->
  exists node rest, expr (parse_fuel toks) toks = Ok (node, rest).
Proof.
  intros Ht (used & rest & -> & HG & Hs).
  assert (Hr : terminated rest).
  { apply (terminated_tail used); [exact Ht|].
    destruct Hs as (t & r & -> & _). discriminate. }
  destruct (expr_reads_sentence used rest HG Hs Hr) as (node & E).
  now exists node, rest.
Qed.

Lemma parses_syntax_ok (fuel : nat) (toks : cursor) (node : Node) (rest : cursor) :
  expr fuel toks = Ok (node, rest) -> syntax_ok toks.
Proof.
  intros E. pose proof (proj1 (parser_accepts fuel) toks) as H.
  rewrite E in H. simpl in H. destruct H as (used & -> & HG).
  exists used, rest. split; [reflexivity|]. split; [exact HG|].
  now apply (proj1 (parser_stops fuel) _ _ _ E).
Qed.

Lemma viable_prefix (a b : list Token) : viable (a ++ b) -> viable a.
Proof. intros (suffix & H). exists (b ++ suffix). now rewrite app_assoc. Qed.

(* the token of a syntax error: what is before it, followed by a token
   that the message asks for, can be continued to a stream without error,
   and nothing that goes on with the token itself can *)
Lemma error_token (fuel : nat) (toks : cursor) (loc msg : string) :
  expr fuel toks = ErrorAt loc msg ->
  exists used t rest,
    toks = used ++ t :: rest /\ loc = str t /\ unexpected t msg /\
    (exists w, wanted msg w /\ viable (used ++ [w])) /\ ~ viable (used ++ [t]).
Proof.
  intros E. pose proof (proj1 (parser_determined fuel) toks) as H.
  unfold determined in H. rewrite E in H.
  destruct H as (used & t & rest & -> & -> & Hu & (w & more & Hw & Hm) & Hl).
  exists used, t, rest. split; [reflexivity|]. split; [reflexivity|].
  split; [exact Hu|]. split.
  - exists w. split; [exact Hw|].
    exists (more ++ [new_token TK_EOF ""]), (used ++ w :: more), [new_token TK_EOF ""].
    split; [now rewrite <- !app_assoc|]. split; [exact Hm|].
    exists (new_token TK_EOF ""), []. repeat split.
  - intros (suffix & u2 & r2 & E2 & HG & Hs).
    set (e := new_token TK_EOF "").
    assert (Hr : terminated (r2 ++ [e])) by now exists r2, e.
    assert (Hs' : stops_expr (r2 ++ [e])).
    { destruct Hs as (t' & r' & -> & Hs). now exists t', (r' ++ [e]). }
    destruct (expr_reads_sentence u2 (r2 ++ [e]) HG Hs' Hr) as (node & E3).
    assert (EY : u2 ++ r2 ++ [e] = used ++ t :: suffix ++ [e]).
    { rewrite app_assoc, <- E2, <- !app_assoc. reflexivity. }
    rewrite EY in E3. specialize (Hl (suffix ++ [e])).
    set (Y := used ++ t :: suffix ++ [e]) in *.
    assert (H1 : expr (Nat.max fuel (parse_fuel Y)) Y = expr fuel Y).
    { apply expr_fuel_le; [apply Nat.le_max_l | now rewrite Hl]. }
    assert (H2 : expr (Nat.max fuel (parse_fuel Y)) Y = expr (parse_fuel Y) Y).
    { apply expr_fuel_le; [apply Nat.le_max_r | now rewrite E3]. }
    rewrite H1, Hl, E3 in H2. discriminate.
Qed.

(** ** Sources that only open parentheses *)

Lemma lexes_opens (n : nat) :
  exists ps, lexes (opens n) (ps ++ [new_token TK_EOF ""]) /\
    List.length ps = n /\ Forall (fun t => mismatch "(" t = false) ps.
Proof.
  induction n as [|n (ps & Hl & Hn & Hp)].
  - exists []. split; [now apply lexes_eof|]. split; [reflexivity | constructor].
  - exists (new_token TK_RESERVED (opens (S n)) :: ps). split; [|split].
    + simpl. now apply lexes_punct.
    + simpl. now rewrite Hn.
    + constructor; [reflexivity | exact Hp].
Qed.

(* on an unbounded stack the error is found at the token after the last
   parenthesis *)
Lemma expr_opens (ps : list Token) :
  Forall (fun t => mismatch "(" t = false) ps ->
  forall fuel e rest,
    mismatch "(" e = true -> TokenKind_eqb (kind e) TK_NUM = false ->
    3 * List.length ps + 3 <= fuel ->
    expr fuel (ps ++ e :: rest) = ErrorAt (str e) "expected a number".
Proof.
  induction 1 as [|t ps Ht _ IH]; intros fuel e rest H1 H2 Hf; simpl in Hf.
  - do 3 need_fuel fuel. cbn [app expr mul primary consume]. rewrite H1.
    cbn [bind expect_number]. now rewrite H2.
  - do 3 need_fuel fuel. cbn [app expr mul primary consume]. rewrite Ht.
    cbn [bind]. rewrite (IH fuel e rest H1 H2); [reflexivity | lia].
Qed.

(* and so it is on a stack that holds three calls for each parenthesis and
   three more *)
Lemma expr_in_opens (ps : list Token) :
  Forall (fun t => mismatch "(" t = false) ps ->
  forall frames fuel e rest,
    mismatch "(" e = true -> TokenKind_eqb (kind e) TK_NUM = false ->
    3 * List.length ps + 3 <= frames -> 3 * List.length ps + 3 <= fuel ->
    expr_in frames fuel (ps ++ e :: rest) =
      Returned (ErrorAt (str e) "expected a number").
Proof.
  induction 1 as [|t ps Ht _ IH]; intros frames fuel e rest H1 H2 Hfr Hfu;
    simpl in Hfr, Hfu.
  - do 3 need_fuel fuel. do 3 need_fuel frames.
    cbn [app expr_in mul_in primary_in consume]. rewrite H1.
    cbn [bind_in expect_number]. now rewrite H2.
  - do 3 need_fuel fuel. do 3 need_fuel frames.
    cbn [app expr_in mul_in primary_in consume]. rewrite Ht.
    cbn [bind_in]. rewrite (IH frames fuel e rest H1 H2); [reflexivity | lia | lia].
Qed.

Lemma length_opens (n : nat) : String.length (opens n) = n.
Proof. induction n as [|n IH]; simpl; [reflexivity | now rewrite IH]. Qed.

(** ** What [main] does on a stack of a given depth *)

Lemma error_at_diagnostic (pre loc msg : string) :
  error_at (pre ++ loc) loc msg = diagnostic (pre ++ loc) (String.length pre) msg.
Proof. unfold error_at, diagnostic. now rewrite offset_suffix. Qed.

(* on a stack that holds three calls for each token the parser is not
   killed *)
Lemma expr_in_cases (frames : nat) (toks : cursor) :
  terminated toks ->
  (frames < 3 * List.length toks /\
   expr_in frames (parse_fuel toks) toks = StackOverflow) \/
  expr_in frames (parse_fuel toks) toks = Returned (expr (parse_fuel toks) toks).
Proof.
  intros Ht. destruct (le_lt_dec (3 * List.length toks) frames) as [Hf|Hf].
  - right. now apply (parser_in_deep_enough (parse_fuel toks) frames).
  - destruct (proj1 (parser_in_agrees (parse_fuel toks) frames) toks) as [E|E].
    + left. now split.
    + now right.
Qed.

(* a syntax error is reported unless the parser is killed before it comes
   to it *)
Lemma main_on_stack_error (frames gen_frames : nat) (argv0 user_input : string)
  (toks : list Token) (loc msg : string) :
  tokenize user_input = Ok toks ->
  expr (parse_fuel toks) toks = ErrorAt loc msg ->
  (frames < 3 * List.length toks /\
   main_on_stack frames gen_frames [argv0; user_input] = Some (Killed [])) \/
  main_on_stack frames gen_frames [argv0; user_input] =
    Some (Exited (error_at user_input loc msg)).
Proof.
  intros Et E. unfold main_on_stack. rewrite Et.
  destruct (expr_in_cases frames toks (lexes_terminated _ _ (tokenize_Ok _ _ Et)))
    as [[Hf ->]| ->].
  - left. now split.
  - rewrite E. now right.
Qed.

(* a stream without syntax error is compiled unless the parser or the code
   generator is killed, which they are not on a stack as deep as the stream
   is long (three calls a token for the parser) *)
Lemma main_on_stack_parsed (frames gen_frames : nat) (argv0 user_input : string)
  (toks : list Token) (node : Node) (rest : cursor) :
  tokenize user_input = Ok toks ->
  expr (parse_fuel toks) toks = Ok (node, rest) ->
  (frames < 3 * List.length toks /\
   main_on_stack frames gen_frames [argv0; user_input] = Some (Killed [])) \/
  (gen_frames < List.length toks /\
   exists code more,
     gen node = code ++ more /\ more <> [] /\
     main_on_stack frames gen_frames [argv0; user_input] =
       Some (Killed (prologue ++ map emit code))) \/
  main_on_stack frames gen_frames [argv0; user_input] =
    Some (Exited (mkProcess (prologue ++ map emit (program node)) "" 0)).
Proof.
  intros Et E. unfold main_on_stack. rewrite Et.
  destruct (expr_in_cases frames toks (lexes_terminated _ _ (tokenize_Ok _ _ Et)))
    as [[Hf ->]| ->]; [left; now split|].
  rewrite E. right.
  destruct (gen_in_cases gen_frames node) as [[_ ->]|[Hh (code & more & -> & Eg & Hm)]].
  - now right.
  - left. split; [|now exists code, more].
    assert (Hr : rest <> []).
    { pose proof (proj1 (parser_stops (parse_fuel toks)) _ _ _ E) as (t & r & -> & _).
      discriminate. }
    pose proof (height_parsed _ _ _ _ E Hr). lia.
Qed.

(* a run that is not killed is the run on an unbounded stack *)
Lemma main_on_stack_agrees (frames gen_frames : nat) (argv : list string) :
  (exists printed, main_on_stack frames gen_frames argv = Some (Killed printed)) \/
  main_on_stack frames gen_frames argv = option_map Exited (main argv).
Proof.
  destruct argv as [|a0 [|a1 [|a2 argv]]]; try (now right).
  unfold main_on_stack, main. destruct (tokenize a1) as [toks|loc msg| |] eqn:Et;
    cbn [bind]; try (now right).
  destruct (expr_in_cases frames toks (lexes_terminated _ _ (tokenize_Ok _ _ Et)))
    as [[_ ->]| ->]; [left; now eexists|].
  destruct (expr (parse_fuel toks) toks) as [[node rest]|loc msg| |];
    try (now right).
  destruct (gen_in_cases gen_frames node) as [[_ ->]|[_ (code & more & -> & _)]].
  - now right.
  - left. now eexists.
Qed.

(** ** The diagnostics *)

(** C6, as the code has it.  The process runs on a call stack that holds
    [frames] nested calls of [expr], [mul] and [primary] (any number).
    - A source with a character, before its end, that is neither white
      space, punctuation nor a digit: the process prints the source line, a
      caret under the first such character and "invalid token", and exits
      with status 1, nothing printed on stdout.
    - A source whose tokens do not begin with an expression followed by a
      token other than + - * /: the error is at the first token [t] that no
      stream without error can have after the tokens before it.  Unless the
      recursion of the parser exhausts the stack, which it does not when the
      stack holds three calls for each token, and in which case the process
      is killed with nothing printed, the process prints
      the source line, a caret under the first character of [t] and a
      message, and exits with status 1, nothing printed on stdout.  The
      message names a token that [t] is not and that could have come in its
      place: a number or a closing parenthesis.
    - On any other source no diagnostic is printed: a process that exits has
      status 0 and an empty stderr. *)
Theorem C6_diagnostic_unless_killed (frames gen_frames : nat)
  (argv0 user_input : string) :
  (string_forallb lexable (c_str user_input) = false ->
   exists pre loc,
     user_input = (pre ++ loc)%string /\ string_forallb lexable pre = true /\
     lexable (deref loc) = false /\ deref loc <> NUL /\
     main_on_stack frames gen_frames [argv0; user_input] =
       Some (Exited (diagnostic user_input (String.length pre) "invalid token"))) /\
  (forall toks,
     tokenize user_input = Ok toks -> ~ syntax_ok toks ->
     exists used t rest pre msg,
       toks = used ++ t :: rest /\ user_input = (pre ++ str t)%string /\
       viable used /\ ~ viable (used ++ [t]) /\
       unexpected t msg /\ (exists w, wanted msg w /\ viable (used ++ [w])) /\
       ((frames < 3 * List.length toks /\
         main_on_stack frames gen_frames [argv0; user_input] = Some (Killed [])) \/
        main_on_stack frames gen_frames [argv0; user_input] =
          Some (Exited (diagnostic user_input (String.length pre) msg)))) /\
  (forall toks p,
     tokenize user_input = Ok toks -> syntax_ok toks ->
     main_on_stack frames gen_frames [argv0; user_input] = Some (Exited p) ->
     status p = 0%Z /\ stderr p = "").
Proof.
  split; [|split].
  - intros Hx.
    destruct (tokenize_cases user_input) as [(toks & Et & Hl)|(loc & Et & Hl)].
    { rewrite (lexes_lexable _ _ Hl) in Hx. discriminate. }
    destruct (lex_fails_first _ _ Hl) as (pre & -> & H1 & H2 & H3).
    exists pre, loc. repeat split; trivial.
    unfold main_on_stack. rewrite Et. now rewrite error_at_diagnostic.
  - intros toks Et Hn. pose proof (tokenize_Ok _ _ Et) as Hl.
    destruct (expr_cases toks (lexes_terminated _ _ Hl))
      as [(node & rest & used & E & _)|(loc & msg & E & _)].
    { elim Hn. now apply (parses_syntax_ok _ _ _ _ E). }
    destruct (error_token _ _ _ _ E)
      as (used & t & rest & Eu & -> & Hu & (w & Hw & Hv) & Hnv).
    assert (Hp : points_into (str t) user_input).
    { destruct (lexes_shape _ _ Hl) as [Hf _]. rewrite Forall_forall in Hf.
      apply Hf. rewrite Eu. apply in_or_app. right. now left. }
    destruct Hp as (pre & Ep & _).
    exists used, t, rest, pre, msg.
    split; [exact Eu|]. split; [exact Ep|].
    split; [now apply (viable_prefix used [w])|]. split; [exact Hnv|].
    split; [exact Hu|]. split; [now exists w|].
    destruct (main_on_stack_error frames gen_frames argv0 _ _ _ _ Et E) as [H|H].
    + now left.
    + right. rewrite H, Ep. now rewrite error_at_diagnostic.
  - intros toks p Et Hs. pose proof (tokenize_Ok _ _ Et) as Hl.
    destruct (syntax_ok_parses toks (lexes_terminated _ _ Hl) Hs) as (node & rest & E).
    destruct (main_on_stack_parsed frames gen_frames argv0 _ _ _ _ Et E)
      as [[_ ->]|[(_ & code & more & _ & _ & ->)| ->]]; try discriminate.
    intros H. injection H as <-. now split.
Qed.

Lemma C6_diagnostic_unless_killed_witness :
  (exists pre loc,
     "1+a" = (pre ++ loc)%string /\ string_forallb lexable pre = true /\
     lexable (deref loc) = false /\ deref loc <> NUL /\
     main_on_stack 0 0 ["9cc"; "1+a"] =
       Some (Exited (diagnostic "1+a" (String.length pre) "invalid token"))) /\
  (exists used t rest pre msg,
     [mkToken TK_NUM 1 "1+*2"; mkToken TK_RESERVED 0 "+*2";
      mkToken TK_RESERVED 0 "*2"; mkToken TK_NUM 2 "2"; mkToken TK_EOF 0 ""]
       = used ++ t :: rest /\
     "1+*2" = (pre ++ str t)%string /\
     viable used /\ ~ viable (used ++ [t]) /\
     unexpected t msg /\ (exists w, wanted msg w /\ viable (used ++ [w])) /\
     main_on_stack 15 0 ["9cc"; "1+*2"] =
       Some (Exited (diagnostic "1+*2" (String.length pre) msg))) /\
  (forall p, main_on_stack 18 5 ["9cc"; "1+2)"] = Some (Exited p) ->
     status p = 0%Z /\ stderr p = "").
Proof.
  split; [|split].
  - apply (proj1 (C6_diagnostic_unless_killed 0 0 "9cc" "1+a")). reflexivity.
  - destruct (C6_diagnostic_unless_killed 15 0 "9cc" "1+*2") as (_ & H & _).
    destruct (H [mkToken TK_NUM 1 "1+*2"; mkToken TK_RESERVED 0 "+*2";
                 mkToken TK_RESERVED 0 "*2"; mkToken TK_NUM 2 "2"; mkToken TK_EOF 0 ""])
      as (used & t & rest & pre & msg & H1 & H2 & H3 & H4 & H5 & H6 & [[H7 _]|H7]).
    + reflexivity.
    + intros Hs. apply syntax_ok_parses in Hs as (node & r & E).
      * vm_compute in E. discriminate E.
      * exists [mkToken TK_NUM 1 "1+*2"; mkToken TK_RESERVED 0 "+*2";
                mkToken TK_RESERVED 0 "*2"; mkToken TK_NUM 2 "2"], (mkToken TK_EOF 0 "").
        split; reflexivity.
    + simpl in H7. lia.
    + exists used, t, rest, pre, msg. repeat split; assumption.
  - intros p.
    apply (proj2 (proj2 (C6_diagnostic_unless_killed 18 5 "9cc" "1+2)"))
             [mkToken TK_NUM 1 "1+2)"; mkToken TK_RESERVED 0 "+2)";
              mkToken TK_NUM 2 "2)"; mkToken TK_RESERVED 0 ")"; mkToken TK_EOF 0 ""]).
    + reflexivity.
    + exists [mkToken TK_NUM 1 "1+2)"; mkToken TK_RESERVED 0 "+2)"; mkToken TK_NUM 2 "2)"],
             [mkToken TK_RESERVED 0 ")"; mkToken TK_EOF 0 ""].
      split; [reflexivity|]. split.
      * apply (G_expr_more [mkToken TK_NUM 1 "1+2)"] (mkToken TK_RESERVED 0 "+2)")
                 [mkToken TK_NUM 2 "2)"]).
        -- apply G_expr_one, G_mul_one. now apply G_num.
        -- now left.
        -- apply G_mul_one. now apply G_num.
      * exists (mkToken TK_RESERVED 0 ")"), [mkToken TK_EOF 0 ""]. repeat split.
Defined.

(** C6 as the specification has it does not hold, for two reasons.
    - Whatever the depth of the call stack, there is a source with a syntax
      error on which the process is killed and prints no diagnostic: one
      that opens a parenthesis for each call the stack can hold.  With room
      for eight calls, "((" is such a source; on an unbounded stack the
      error would be reported at its end.  A source of [n] opening
      parentheses is reported, at its end, when the stack holds [3 * n + 3]
      calls, and kills the process when it holds less.
    - Tokens left after an expression are not looked at: the tokens of
      "1+2)" are not an expression, and the process prints the assembly of
      "1+2" and exits with status 0. *)
Lemma C6_errors_without_diagnostic :
  (main_on_stack 8 8 ["9cc"; "(("] = Some (Killed []) /\
   main ["9cc"; "(("] = Some (diagnostic "((" 2 "expected a number")) /\
  (forall frames gen_frames n argv0,
     exists toks,
       tokenize (opens n) = Ok toks /\ ~ syntax_ok toks /\
       (frames < 3 * n + 3 ->
        main_on_stack frames gen_frames [argv0; opens n] = Some (Killed [])) /\
       (3 * n + 3 <= frames ->
        main_on_stack frames gen_frames [argv0; opens n] =
          Some (Exited (diagnostic (opens n) n "expected a number")))) /\
  (tokenize "1+2)" =
     Ok ([mkToken TK_NUM 1 "1+2)"; mkToken TK_RESERVED 0 "+2)"; mkToken TK_NUM 2 "2)";
          mkToken TK_RESERVED 0 ")"] ++ [mkToken TK_EOF 0 ""]) /\
   ~ G_expr [mkToken TK_NUM 1 "1+2)"; mkToken TK_RESERVED 0 "+2)";
             mkToken TK_NUM 2 "2)"; mkToken TK_RESERVED 0 ")"] /\
   main_on_stack 18 5 ["9cc"; "1+2)"] =
     Some (Exited
             (mkProcess [".intel_syntax noprefix"; ".global main"; "main:";
                         "  push 1"; "  push 2"; "  pop rdi"; "  pop rax";
                         "  add rax, rdi"; "  push rax"; "  pop rax"; "  ret"] "" 0))).
Proof.
  split; [split; reflexivity|]. split.
  - intros frames gen_frames n argv0.
    destruct (lexes_opens n) as (ps & Hl & Hn & Hp).
    pose proof (lexes_tokenize _ _ Hl) as Et.
    assert (Hfu : 3 * List.length ps + 3 <= parse_fuel (ps ++ [new_token TK_EOF ""])).
    { unfold parse_fuel. rewrite length_app. simpl. lia. }
    exists (ps ++ [new_token TK_EOF ""]). split; [exact Et|]. split; [|split].
    + intros Hs.
      destruct (syntax_ok_parses _ (lexes_terminated _ _ Hl) Hs) as (node & r & E).
      rewrite (expr_opens ps Hp) in E;
        [discriminate | reflexivity | reflexivity | exact Hfu].
    + intros Hf. unfold main_on_stack. rewrite Et.
      rewrite (parser_in_nesting ps Hp); [reflexivity | lia | exact Hfu].
    + intros Hf. unfold main_on_stack. rewrite Et.
      rewrite (expr_in_opens ps Hp);
        [|reflexivity | reflexivity | lia | exact Hfu].
      unfold error_at, diagnostic, offset. cbn [str new_token String.length].
      now rewrite length_opens, Nat.sub_0_r.
  - split; [reflexivity|]. split; [|reflexivity].
    intros HG.
    destruct (expr_reads_sentence _ [mkToken TK_EOF 0 ""] HG) as (node & E).
    + exists (mkToken TK_EOF 0 ""), []. repeat split.
    + now exists [], (mkToken TK_EOF 0 "").
    + vm_compute in E. discriminate E.
Qed.

(** ** How a run ends *)

(** X12: every run of [main], on a call stack that holds [frames] nested
    calls of the parser and [gen_frames] of [gen], ends in one of three
    ways.  With status 0, an empty stderr and, on stdout, the prologue, the
    code of a tree and the epilogue, which happens only with exactly one
    argument.  With status 1, nothing on stdout and a message on stderr that
    ends with a newline.  Or killed for want of stack, which happens only
    with one argument that the tokenizer accepts: in the parser, nothing
    printed, only when the stack holds less than three calls for each token;
    or in [gen], the prologue and a beginning of the code of
    the tree printed and not all of it, only when the stack holds less calls
    than there are tokens.  Assembly and a diagnostic are never printed by
    the same run. *)
Theorem X12_main_outcomes (frames gen_frames : nat) (argv : list string) :
  exists o, main_on_stack frames gen_frames argv = Some o /\
    match o with
    | Exited p =>
        (status p = 0%Z /\ stderr p = "" /\ List.length argv = 2 /\
         exists node, stdout p = prologue ++ map emit (program node)) \/
        (status p = 1%Z /\ stdout p = [] /\
         exists text, stderr p = (text ++ newline)%string)
    | Killed printed =>
        exists argv0 user_input toks,
          argv = [argv0; user_input] /\ tokenize user_input = Ok toks /\
          ((frames < 3 * List.length toks /\ printed = []) \/
           (gen_frames < List.length toks /\
            exists node rest code more,
              expr (parse_fuel toks) toks = Ok (node, rest) /\
              gen node = code ++ more /\ more <> [] /\
              printed = prologue ++ map emit code))
    end.
Proof.
  assert (Hu : forall msg, exists text, stderr (error msg) = (text ++ newline)%string)
    by (intros msg; now exists msg).
  assert (He : forall user_input loc msg,
             exists text, stderr (error_at user_input loc msg) = (text ++ newline)%string).
  { intros user_input loc msg. unfold error_at. cbn [stderr].
    exists (c_str user_input ++ newline ++ spaces (offset user_input loc)
            ++ "^ " ++ msg)%string.
    now rewrite !append_assoc. }
  destruct argv as [|a0 [|a1 [|a2 argv]]];
    try (eexists; split; [reflexivity|]; right; repeat split; apply Hu).
  destruct (tokenize_cases a1) as [(toks & Et & Hl)|(loc & Et & Hl)].
  - destruct (expr_cases toks (lexes_terminated _ _ Hl))
      as [(node & rest & used & E & _)|(loc & msg & E & _)].
    + destruct (main_on_stack_parsed frames gen_frames a0 _ _ _ _ Et E)
        as [[Hf ->]|[(Hg & code & more & Eg & Hm & ->)| ->]];
        eexists; (split; [reflexivity|]).
      * exists a0, a1, toks. split; [reflexivity|]. split; [exact Et|]. now left.
      * exists a0, a1, toks. split; [reflexivity|]. split; [exact Et|]. right.
        split; [exact Hg|]. now exists node, rest, code, more.
      * left. repeat split. now exists node.
    + destruct (main_on_stack_error frames gen_frames a0 _ _ _ _ Et E) as [[Hf ->]| ->];
        eexists; (split; [reflexivity|]).
      * exists a0, a1, toks. split; [reflexivity|]. split; [exact Et|]. now left.
      * right. repeat split. apply He.
  - unfold main_on_stack. rewrite Et. eexists. split; [reflexivity|].
    right. repeat split. apply He.
Qed.
